(** * GaussianKijunStrategy: trade lifecycle and risk management

    Shallow embedding of [src/app/strategies.py] (class
    [GaussianKijunStrategy]) and the properties of its position sizing,
    entry gating, stop management and exit logic.

    Modelling conventions.
    - A Python [float] is an exact rational ([Q]).  Comparisons, [max],
      [min] and [abs] are exact on floats, so every branch taken by the
      model is the branch taken by the code whenever the arithmetic involved
      is exact; the concrete runs below use small integers and halves.
      The position sizer is also given on IEEE binary64 numbers, with
      their rounding and exceptions, and its own properties are stated
      on those.  The one NaN test of the source,
      [pd.isna(adx)], is kept: [adx] is an [option Q] with [None] for NaN;
      the other values of a bar are finite.
    - A raised exception ([ZeroDivisionError]) is [None] in an [option]
      result; [next] propagates it.
    - The broker is external: the position size and the equity are read
      from the per-bar environment, and every [self.buy], [self.sell] and
      [self.close] call is appended, as an order intent, to the field
      [sent] of the state, whatever the framework then does with it.  The
      identity of an order object ([is]) is its index in [sent].
    - An entry of [external_trades] carries the outcome of parsing its
      ['entry'] string: the float after the ['@'], or the fact that the
      conversion raises.
    - Logging has no effect on the state and is left out.

    The configuration helpers of [src/config/utils.py], through which the
    tools build the configuration the strategy runs with, are embedded in
    the module [ConfigUtils]. *)

From Stdlib Require Import ZArith QArith Qround Qabs Bool List String Lia Lqa.
From Stdlib.Floats Require Import SpecFloat.
Import ListNotations.

Local Open Scope Z_scope.

(** ** Python arithmetic on floats *)

Module Py.

Definition ltb (a b : Q) : bool := negb (Qle_bool b a).
Definition leb (a b : Q) : bool := Qle_bool a b.

(** [max(a, b)] and [min(a, b)] return the first argument unless the second
    is strictly better. *)
Definition max (a b : Q) : Q := if ltb a b then b else a.
Definition min (a b : Q) : Q := if ltb b a then b else a.

(** [a / b]: raises [ZeroDivisionError] when [b] is zero. *)
Definition div (a b : Q) : option Q :=
  if Qeq_bool b 0 then None else Some (a / b)%Q.

(** [int(x)] truncates toward zero. *)
Definition int (x : Q) : Z :=
  if Qle_bool 0 x then Qfloor x else Qceiling x.

(** [x or d] on an [Optional[float]]: [None] and [0.0] are falsy. *)
Definition or_else (x : option Q) (d : Q) : Q :=
  match x with
  | Some v => if Qeq_bool v 0 then d else v
  | None => d
  end.

End Py.

(** ** Configuration ([config.TradingConfig], the fields the strategy reads) *)

Record config := {
  tp_r_multiple : Q;
  trailing_atr_mult : Q;
  adx_threshold : Z;
  risk_pct : Q;
  max_trades_per_day : Z;
  min_bars : Z;
  contract_multiplier : Q;
  fixed_position_size : Q
}.

(** The defaults of [TradingConfig]. *)
Definition default_config : config := {|
  tp_r_multiple := 2;
  trailing_atr_mult := 4;
  adx_threshold := 19;
  risk_pct := 1 # 100;
  max_trades_per_day := 5;
  min_bars := 200;
  contract_multiplier := 3768 # 1000;
  fixed_position_size := 20000
|}.

(** ** Orders handed to the broker *)

Inductive side := Buy | Sell.

Inductive request :=
| Market (sd : side) (size : Z)            (* self.buy(size=..) / self.sell(size=..) *)
| Limit (sd : side) (size : Z) (price : Q) (* exectype=bt.Order.Limit *)
| ClosePosition.                           (* self.close() *)

Record order := { ref : nat; req : request }.

Inductive order_status :=
| Created | Submitted | Accepted | Partial | Completed
| Canceled | Expired | Margin | Rejected.

(** [close_reason]: the empty string, or one of the four messages the
    strategy writes.  The stop-loss messages embed the formatted stop. *)
Inductive reason :=
| NoReason
| TrendbreakLong
| TrendbreakShort
| StopLossLong (stop : Q)
| StopLossShort (stop : Q).

Definition reason_empty (r : reason) : bool :=
  match r with NoReason => true | _ => false end.

(** ** Strategy state ([__init__]) *)

Record state := {
  today : option Z;
  trades_today : Z;
  entry_price : option Q;
  stop_price : option Q;
  initial_atr : option Q;
  entry_risk : option Q;
  tp_price : option Q;
  breakeven_active : bool;
  highest_since_entry : option Q;
  lowest_since_entry : option Q;
  close_reason : reason;
  entry_order : option order;
  exit_order : option order;
  executed_external : list string;
  sent : list order
}.

Definition init : state := {|
  today := None;
  trades_today := 0;
  entry_price := None;
  stop_price := None;
  initial_atr := None;
  entry_risk := None;
  tp_price := None;
  breakeven_active := false;
  highest_since_entry := None;
  lowest_since_entry := None;
  close_reason := NoReason;
  entry_order := None;
  exit_order := None;
  executed_external := [];
  sent := []
|}.

Definition set_day (d : Z) (s : state) : state :=
  {| today := Some d; trades_today := 0;
     entry_price := entry_price s; stop_price := stop_price s;
     initial_atr := initial_atr s; entry_risk := entry_risk s;
     tp_price := tp_price s; breakeven_active := breakeven_active s;
     highest_since_entry := highest_since_entry s;
     lowest_since_entry := lowest_since_entry s;
     close_reason := close_reason s; entry_order := entry_order s;
     exit_order := exit_order s; executed_external := executed_external s;
     sent := sent s |}.

Definition set_stop_price (v : Q) (s : state) : state :=
  {| today := today s; trades_today := trades_today s;
     entry_price := entry_price s; stop_price := Some v;
     initial_atr := initial_atr s; entry_risk := entry_risk s;
     tp_price := tp_price s; breakeven_active := breakeven_active s;
     highest_since_entry := highest_since_entry s;
     lowest_since_entry := lowest_since_entry s;
     close_reason := close_reason s; entry_order := entry_order s;
     exit_order := exit_order s; executed_external := executed_external s;
     sent := sent s |}.

Definition set_breakeven_active (b : bool) (s : state) : state :=
  {| today := today s; trades_today := trades_today s;
     entry_price := entry_price s; stop_price := stop_price s;
     initial_atr := initial_atr s; entry_risk := entry_risk s;
     tp_price := tp_price s; breakeven_active := b;
     highest_since_entry := highest_since_entry s;
     lowest_since_entry := lowest_since_entry s;
     close_reason := close_reason s; entry_order := entry_order s;
     exit_order := exit_order s; executed_external := executed_external s;
     sent := sent s |}.

Definition set_highest (v : Q) (s : state) : state :=
  {| today := today s; trades_today := trades_today s;
     entry_price := entry_price s; stop_price := stop_price s;
     initial_atr := initial_atr s; entry_risk := entry_risk s;
     tp_price := tp_price s; breakeven_active := breakeven_active s;
     highest_since_entry := Some v;
     lowest_since_entry := lowest_since_entry s;
     close_reason := close_reason s; entry_order := entry_order s;
     exit_order := exit_order s; executed_external := executed_external s;
     sent := sent s |}.

Definition set_lowest (v : Q) (s : state) : state :=
  {| today := today s; trades_today := trades_today s;
     entry_price := entry_price s; stop_price := stop_price s;
     initial_atr := initial_atr s; entry_risk := entry_risk s;
     tp_price := tp_price s; breakeven_active := breakeven_active s;
     highest_since_entry := highest_since_entry s;
     lowest_since_entry := Some v;
     close_reason := close_reason s; entry_order := entry_order s;
     exit_order := exit_order s; executed_external := executed_external s;
     sent := sent s |}.

Definition set_close_reason (r : reason) (s : state) : state :=
  {| today := today s; trades_today := trades_today s;
     entry_price := entry_price s; stop_price := stop_price s;
     initial_atr := initial_atr s; entry_risk := entry_risk s;
     tp_price := tp_price s; breakeven_active := breakeven_active s;
     highest_since_entry := highest_since_entry s;
     lowest_since_entry := lowest_since_entry s;
     close_reason := r; entry_order := entry_order s;
     exit_order := exit_order s; executed_external := executed_external s;
     sent := sent s |}.

Definition set_exit_order (o : option order) (s : state) : state :=
  {| today := today s; trades_today := trades_today s;
     entry_price := entry_price s; stop_price := stop_price s;
     initial_atr := initial_atr s; entry_risk := entry_risk s;
     tp_price := tp_price s; breakeven_active := breakeven_active s;
     highest_since_entry := highest_since_entry s;
     lowest_since_entry := lowest_since_entry s;
     close_reason := close_reason s; entry_order := entry_order s;
     exit_order := o; executed_external := executed_external s;
     sent := sent s |}.

Definition add_executed (k : string) (s : state) : state :=
  {| today := today s; trades_today := trades_today s;
     entry_price := entry_price s; stop_price := stop_price s;
     initial_atr := initial_atr s; entry_risk := entry_risk s;
     tp_price := tp_price s; breakeven_active := breakeven_active s;
     highest_since_entry := highest_since_entry s;
     lowest_since_entry := lowest_since_entry s;
     close_reason := close_reason s; entry_order := entry_order s;
     exit_order := exit_order s;
     executed_external := k :: executed_external s;
     sent := sent s |}.

(** A broker call: the new order object is appended to [sent] and returned. *)
Definition submit (r : request) (s : state) : order * state :=
  let o := {| ref := List.length (sent s); req := r |} in
  (o,
   {| today := today s; trades_today := trades_today s;
      entry_price := entry_price s; stop_price := stop_price s;
      initial_atr := initial_atr s; entry_risk := entry_risk s;
      tp_price := tp_price s; breakeven_active := breakeven_active s;
      highest_since_entry := highest_since_entry s;
      lowest_since_entry := lowest_since_entry s;
      close_reason := close_reason s; entry_order := entry_order s;
      exit_order := exit_order s; executed_external := executed_external s;
      sent := sent s ++ [o] |}).

(** ** Per-bar inputs *)

(** The values read at the top of [next] (lines 78-92). *)
Record indicators := {
  close : Q;
  prev_close : Q;
  high : Q;
  low : Q;
  gauss : Q;
  gauss_prev : Q;
  kijun : Q;
  kijun_prev : Q;
  vapi : Q;
  vapi_prev : Q;
  adx : option Q;      (* None: NaN *)
  smma : Q;
  atr : Q;
  swing_low : Q;
  swing_high : Q
}.

(** What one call of [next] reads from outside the strategy object:
    the bar's calendar date, [len(self.data)], the indicator values
    ([None] when a conversion raised [ValueError] or [TypeError]), the
    broker's position size and account value. *)
Record env := {
  date : Z;
  nbars : Z;
  values : option indicators;
  position : Z;
  equity : Q
}.

(** An entry of [external_trades].  [x_entry] is the value of the key
    ['entry'] (the empty string when the key is absent: both are falsy),
    [x_price] the result of [float(trade['entry'].split('@')[1])] (line
    106): the float, or [None] when the conversion raises ([IndexError]
    without an ['@'], [ValueError] when what follows is not a number),
    [x_direction] and [x_size] the optional keys ['direction'] and
    ['size']. *)
Record ext_trade := {
  x_entry : string;
  x_price : option Q;
  x_direction : option string;
  x_size : option Z
}.

(** ** Position sizing *)

(** [calculate_size] (lines 314-331). *)
Definition calculate_size (cfg : config) (eq : Q) (entry stop : Q)
    (short : bool) : option Z :=
  let risk_amount := (eq * risk_pct cfg)%Q in
  let distance := Qabs (entry - stop) in
  if Py.leb distance 0 then Some 0
  else
    match Py.div risk_amount (distance * contract_multiplier cfg) with
    | None => None
    | Some raw_size => Some (Z.max 0 (Qfloor raw_size))
    end.

(** [_determine_size] (lines 152-166). *)
Definition _determine_size (cfg : config) (eq : Q) (entry stop : Q)
    (short : bool) : option Z :=
  if Py.ltb 0 (fixed_position_size cfg) then
    let usd := fixed_position_size cfg in
    match Py.div usd entry with
    | None => None
    | Some q => Some (Z.max 1 (Py.int q))
    end
  else calculate_size cfg eq entry stop short.

(** The sizer as the code computes it, on IEEE binary64 numbers
    ([SpecFloat] with a 53-bit significand): the same two functions with
    the rounding of every operation, the infinities and NaN, and the
    exceptions of the division, of [int] and of [math.floor].  The
    properties of the sizer itself are stated on these.
    A decimal literal is the correctly rounded quotient of two integers. *)
Module Binary64.

Definition prec : Z := 53.
Definition emax : Z := 1024.

Definition of_Z (z : Z) : spec_float :=
  match z with
  | Z0 => S754_zero false
  | Zpos p => binary_normalize prec emax (Zpos p) 0 false
  | Zneg p => binary_normalize prec emax (Zneg p) 0 true
  end.

Definition decimal (num den : Z) : spec_float :=
  SFdiv prec emax (of_Z num) (of_Z den).

Definition is_zero (x : spec_float) : bool :=
  match x with S754_zero _ => true | _ => false end.

(** Neither an infinity nor NaN. *)
Definition finite (x : spec_float) : bool :=
  match x with S754_zero _ | S754_finite _ _ _ => true | _ => false end.

(** [a / b]; a zero divisor raises. *)
Definition div (a b : spec_float) : option spec_float :=
  if is_zero b then None else Some (SFdiv prec emax a b).

(** [math.floor(x)]; NaN and the infinities raise. *)
Definition floor (x : spec_float) : option Z :=
  match x with
  | S754_zero _ => Some 0
  | S754_finite s m e =>
      let v := if s then Zneg m else Zpos m in
      Some (if 0 <=? e then v * 2 ^ e else v / 2 ^ (- e))
  | _ => None
  end.

(** [int(x)]: truncation toward zero. *)
Definition int (x : spec_float) : option Z :=
  match x with
  | S754_zero _ => Some 0
  | S754_finite s m e =>
      let v := if s then Zneg m else Zpos m in
      Some (if 0 <=? e then v * 2 ^ e else Z.quot v (2 ^ (- e)))
  | _ => None
  end.

Definition calculate_size (risk_pct cm eq entry stop : spec_float)
    : option Z :=
  let risk_amount := SFmul prec emax eq risk_pct in
  let distance := SFabs (SFsub prec emax entry stop) in
  if SFleb distance (S754_zero false) then Some 0
  else
    match div risk_amount (SFmul prec emax distance cm) with
    | None => None
    | Some raw_size =>
        match floor raw_size with
        | None => None
        | Some n => Some (Z.max 0 n)
        end
    end.

Definition _determine_size (fixed risk_pct cm eq entry stop : spec_float)
    : option Z :=
  if SFltb (S754_zero false) fixed then
    match div fixed entry with
    | None => None
    | Some q =>
        match int q with
        | None => None
        | Some n => Some (Z.max 1 n)
        end
    end
  else calculate_size risk_pct cm eq entry stop.

End Binary64.

(** ** Entries *)

(** [_enter_long] (lines 168-187). *)
Definition _enter_long (cfg : config) (c : Q) (size : Z) (stop atr_v : Q)
    (s : state) : state :=
  let (o, s1) := submit (Market Buy size) s in
  let risk := (c - stop)%Q in
  {| today := today s1;
     trades_today := trades_today s1 + 1;
     entry_price := Some c;
     stop_price := Some stop;
     initial_atr := Some atr_v;
     entry_risk := Some risk;
     tp_price := Some (c + tp_r_multiple cfg * risk)%Q;
     breakeven_active := false;
     highest_since_entry := Some c;
     lowest_since_entry := lowest_since_entry s1;
     close_reason := close_reason s1;
     entry_order := Some o;
     exit_order := exit_order s1;
     executed_external := executed_external s1;
     sent := sent s1 |}.

(** [_enter_short] (lines 189-208). *)
Definition _enter_short (cfg : config) (c : Q) (size : Z) (stop atr_v : Q)
    (s : state) : state :=
  let (o, s1) := submit (Market Sell size) s in
  let risk := (stop - c)%Q in
  {| today := today s1;
     trades_today := trades_today s1 + 1;
     entry_price := Some c;
     stop_price := Some stop;
     initial_atr := Some atr_v;
     entry_risk := Some risk;
     tp_price := Some (c - tp_r_multiple cfg * risk)%Q;
     breakeven_active := false;
     highest_since_entry := highest_since_entry s1;
     lowest_since_entry := Some c;
     close_reason := close_reason s1;
     entry_order := Some o;
     exit_order := exit_order s1;
     executed_external := executed_external s1;
     sent := sent s1 |}.

(** ** Position management ([_update_position_management], lines 210-285) *)

Definition is_none {A} (x : option A) : bool :=
  match x with None => true | Some _ => false end.

(** [int(math.floor(abs(self.position.size) * 0.3))].  For an integer
    size the binary64 product rounds to the exact value whenever that
    value is an integer, so the floor agrees with the rational one. *)
Definition tp_size (pos : Z) : Z := Qfloor (inject_Z (Z.abs pos) * (3 # 10)).

Module Long.

(* lines 228-232 *)
Definition breakeven (cfg : config) (c ep er : Q) (s : state) : state :=
  let be_price := (ep + tp_r_multiple cfg * er)%Q in
  if Py.leb be_price c && negb (breakeven_active s)
  then set_breakeven_active true (set_stop_price ep s)
  else s.

(* lines 235-239; [stop_price] is not None past the guard of line 220 *)
Definition trailing (cfg : config) (hi : Q) (s : state) : state :=
  match initial_atr s, stop_price s with
  | Some a, Some sp =>
      let trail_stop := (hi - a * trailing_atr_mult cfg)%Q in
      if Py.ltb sp trail_stop then set_stop_price trail_stop s else s
  | _, _ => s
  end.

(* lines 242-247 *)
Definition take_profit (pos : Z) (h : Q) (s : state) : state :=
  match tp_price s with
  | Some tp =>
      if Py.leb tp h && is_none (exit_order s) then
        if 0 <? tp_size pos then
          let (o, s1) := submit (Limit Sell (tp_size pos) tp) s in
          set_exit_order (Some o) s1
        else s
      else s
  | None => s
  end.

(* lines 250-253 *)
Definition stop_loss (c : Q) (s : state) : state :=
  match stop_price s with
  | Some sp =>
      if Py.leb c sp && reason_empty (close_reason s) then
        let (_, s1) := submit ClosePosition s in
        set_close_reason (StopLossLong sp) s1
      else s
  | None => s
  end.

Definition manage (cfg : config) (pos : Z) (c h ep er : Q) (s : state)
    : state :=
  let hi := Py.max (Py.or_else (highest_since_entry s) ep) h in
  let s := set_highest hi s in
  let s := breakeven cfg c ep er s in
  let s := trailing cfg hi s in
  let s := take_profit pos h s in
  stop_loss c s.

End Long.

Module Short.

(* lines 260-264 *)
Definition breakeven (cfg : config) (c ep er : Q) (s : state) : state :=
  let be_price := (ep - tp_r_multiple cfg * er)%Q in
  if Py.leb c be_price && negb (breakeven_active s)
  then set_breakeven_active true (set_stop_price ep s)
  else s.

(* lines 267-271 *)
Definition trailing (cfg : config) (lo : Q) (s : state) : state :=
  match initial_atr s, stop_price s with
  | Some a, Some sp =>
      let trail_stop := (lo + a * trailing_atr_mult cfg)%Q in
      if Py.ltb trail_stop sp then set_stop_price trail_stop s else s
  | _, _ => s
  end.

(* lines 274-279 *)
Definition take_profit (pos : Z) (l : Q) (s : state) : state :=
  match tp_price s with
  | Some tp =>
      if Py.leb l tp && is_none (exit_order s) then
        if 0 <? tp_size pos then
          let (o, s1) := submit (Limit Buy (tp_size pos) tp) s in
          set_exit_order (Some o) s1
        else s
      else s
  | None => s
  end.

(* lines 282-285 *)
Definition stop_loss (c : Q) (s : state) : state :=
  match stop_price s with
  | Some sp =>
      if Py.leb sp c && reason_empty (close_reason s) then
        let (_, s1) := submit ClosePosition s in
        set_close_reason (StopLossShort sp) s1
      else s
  | None => s
  end.

Definition manage (cfg : config) (pos : Z) (c l ep er : Q) (s : state)
    : state :=
  let lo := Py.min (Py.or_else (lowest_since_entry s) ep) l in
  let s := set_lowest lo s in
  let s := breakeven cfg c ep er s in
  let s := trailing cfg lo s in
  let s := take_profit pos l s in
  stop_loss c s.

End Short.

Definition _update_position_management (cfg : config) (pos : Z)
    (c h l kijun_v : Q) (s : state) : state :=
  match entry_price s, stop_price s, entry_risk s with
  | Some ep, Some _, Some er =>
      if 0 <? pos then Long.manage cfg pos c h ep er s
      else Short.manage cfg pos c l ep er s
  | _, _, _ => s
  end.

(** ** The bar handler ([next], lines 63-150) *)

(* lines 69-71 *)
Definition roll_day (d : Z) (s : state) : state :=
  match today s with
  | None => set_day d s
  | Some t => if d =? t then s else set_day d s
  end.

Definition mem (k : string) (l : list string) : bool :=
  existsb (String.eqb k) l.

Definition direction_of (t : ext_trade) : string :=
  match x_direction t with Some d => d | None => "long"%string end.

(* line 105: the trade has an entry that was not executed yet *)
Definition pending (s : state) (t : ext_trade) : bool :=
  negb (String.eqb (x_entry t) "") &&
  negb (mem (x_entry t) (executed_external s)).

(* lines 109, 114: [abs(close - entry_price) < atr * 0.5] *)
Definition near (i : indicators) (entry_px : Q) : bool :=
  Py.ltb (Qabs (close i - entry_px)) (atr i * (1 # 2)).

(** The outcome of the override loop (lines 103-118): an exception, an
    entry followed by [return], or falling through to the rest of [next]. *)
Inductive override_result :=
| Raised
| Entered (s : state)
| FellThrough.

Fixpoint external_override (cfg : config) (e : env) (i : indicators)
    (trades : list ext_trade) (s : state) : override_result :=
  match trades with
  | [] => FellThrough
  | t :: rest =>
      if pending s t then
        match x_price t with
        | None => Raised
        | Some entry_px =>
            let direction := direction_of t in
            (* the default of [trade.get] is evaluated before the lookup *)
            match _determine_size cfg (equity e) entry_px (entry_px - atr i)
                    false with
            | None => Raised
            | Some dflt =>
                let size :=
                  match x_size t with Some z => z | None => dflt end in
                if String.eqb direction "long" && near i entry_px then
                  Entered (add_executed (x_entry t)
                             (_enter_long cfg (close i) size (swing_low i)
                                (atr i) s))
                else if String.eqb direction "short" && near i entry_px then
                  Entered (add_executed (x_entry t)
                             (_enter_short cfg (close i) size (swing_high i)
                                (atr i) s))
                else external_override cfg e i rest s
            end
        end
      else external_override cfg e i rest s
  end.

Definition long_signal (i : indicators) : bool :=
  Py.ltb (gauss_prev i) (gauss i) && Py.ltb (vapi_prev i) (vapi i) &&
  Py.ltb (smma i) (close i) && Py.ltb (gauss i) (close i) &&
  Py.ltb (swing_low i) (close i).

Definition short_signal (i : indicators) : bool :=
  negb (Py.ltb (gauss_prev i) (gauss i)) &&
  negb (Py.ltb (vapi_prev i) (vapi i)) &&
  Py.ltb (close i) (smma i) && Py.ltb (close i) (gauss i) &&
  Py.ltb (close i) (swing_high i).

(* lines 134-139 *)
Definition try_short (cfg : config) (e : env) (i : indicators) (s : state)
    : option state :=
  if short_signal i then
    match _determine_size cfg (equity e) (close i) (swing_high i) true with
    | None => None
    | Some size =>
        if 0 <? size
        then Some (_enter_short cfg (close i) size (swing_high i) (atr i) s)
        else Some s
    end
  else Some s.

(* lines 124-139 *)
Definition flat_branch (cfg : config) (e : env) (i : indicators) (s : state)
    : option state :=
  let s := set_close_reason NoReason (set_exit_order None s) in
  if long_signal i then
    match _determine_size cfg (equity e) (close i) (swing_low i) false with
    | None => None
    | Some size =>
        if 0 <? size
        then Some (_enter_long cfg (close i) size (swing_low i) (atr i) s)
        else try_short cfg e i s
    end
  else try_short cfg e i s.

Definition trendbreak_long (i : indicators) : bool :=
  Py.ltb (close i) (kijun i) && Py.ltb (prev_close i) (kijun_prev i).

Definition trendbreak_short (i : indicators) : bool :=
  Py.ltb (kijun i) (close i) && Py.ltb (kijun_prev i) (prev_close i).

(* lines 143-150 *)
Definition trend_break (pos : Z) (i : indicators) (s : state) : state :=
  if (0 <? pos) && trendbreak_long i && reason_empty (close_reason s) then
    let (_, s1) := submit ClosePosition s in
    set_close_reason TrendbreakLong s1
  else if (pos <? 0) && trendbreak_short i && reason_empty (close_reason s) then
    let (_, s1) := submit ClosePosition s in
    set_close_reason TrendbreakShort s1
  else s.

(* lines 141-150 *)
Definition open_branch (cfg : config) (e : env) (i : indicators) (s : state)
    : state :=
  let s := _update_position_management cfg (position e)
             (close i) (high i) (low i) (kijun i) s in
  trend_break (position e) i s.

(* line 96 *)
Definition adx_blocks (cfg : config) (i : indicators) : bool :=
  match adx i with
  | None => true
  | Some a => Py.leb a (inject_Z (adx_threshold cfg))
  end.

Definition next (cfg : config) (ext : list ext_trade) (e : env) (s : state)
    : option state :=
  let s := roll_day (date e) s in
  if nbars e <? min_bars cfg then Some s
  else
    match values e with
    | None => Some s
    | Some i =>
        if adx_blocks cfg i then Some s
        else if max_trades_per_day cfg <=? trades_today s then Some s
        else
          match external_override cfg e i ext s with
          | Raised => None
          | Entered s' => Some s'
          | FellThrough =>
              if position e =? 0 then flat_branch cfg e i s
              else Some (open_branch cfg e i s)
          end
    end.

(** ** Broker notifications *)

Definition is_exit_order (o : order) (s : state) : bool :=
  match exit_order s with
  | Some x => Nat.eqb (ref x) (ref o)
  | None => false
  end.

(* lines 287-302 *)
Definition notify_order (o : order) (st : order_status) (s : state) : state :=
  match st with
  | Completed | Canceled | Rejected =>
      if is_exit_order o s then set_exit_order None s else s
  | _ => s
  end.

(* lines 304-312 *)
Definition notify_trade (isclosed : bool) (s : state) : state :=
  if isclosed then set_close_reason NoReason s else s.

(** ** Runs: bars interleaved with broker notifications *)

Inductive event :=
| OnBar (e : env)
| OnOrder (o : order) (st : order_status)
| OnTrade (isclosed : bool).

Definition step (cfg : config) (ext : list ext_trade) (ev : event) (s : state)
    : option state :=
  match ev with
  | OnBar e => next cfg ext e s
  | OnOrder o st => Some (notify_order o st s)
  | OnTrade c => Some (notify_trade c s)
  end.

Fixpoint run (cfg : config) (ext : list ext_trade) (evs : list event)
    (s : state) : option state :=
  match evs with
  | [] => Some s
  | ev :: rest =>
      match step cfg ext ev s with
      | None => None
      | Some s' => run cfg ext rest s'
      end
  end.

(** ** Order intents in the outbox *)

Definition is_entry (o : order) : bool :=
  match req o with Market _ _ => true | _ => false end.

Definition is_partial (o : order) : bool :=
  match req o with Limit _ _ _ => true | _ => false end.

Definition is_close (o : order) : bool :=
  match req o with ClosePosition => true | _ => false end.

Definition entry_intents (l : list order) : list order := filter is_entry l.
Definition partial_intents (l : list order) : list order := filter is_partial l.
Definition close_intents (l : list order) : list order := filter is_close l.

(** ** Concrete bars

    One trading day on the default configuration, past the warm-up.  The
    previous-bar fields of each bar repeat the values of the bar before it. *)

Module Scenario.

(** Flat; the long signal holds; fixed notional 20000 at 400 buys 50 with
    stop 390, risk 10 and take-profit 420. *)
Definition entry_bar : env := {|
  date := 1; nbars := 300; position := 0; equity := 100000;
  values := Some {|
    close := 400; prev_close := 399; high := 401; low := 398;
    gauss := 395; gauss_prev := 394; kijun := 398; kijun_prev := 398;
    vapi := 2; vapi_prev := 1; adx := Some 25%Q; smma := 380; atr := 5;
    swing_low := 390; swing_high := 410 |}
|}.

(** The state the entry bar leaves behind. *)
Definition opened : state := {|
  today := Some 1; trades_today := 1;
  entry_price := Some 400%Q; stop_price := Some 390%Q;
  initial_atr := Some 5%Q; entry_risk := Some 10%Q;
  tp_price := Some 420%Q; breakeven_active := false;
  highest_since_entry := Some 400%Q; lowest_since_entry := None;
  close_reason := NoReason;
  entry_order := Some {| ref := 0; req := Market Buy 50 |};
  exit_order := None; executed_external := [];
  sent := [{| ref := 0; req := Market Buy 50 |}]
|}.

(** Long 50; the high reaches the take-profit level. *)
Definition tp_bar : env := {|
  date := 1; nbars := 301; position := 50; equity := 100000;
  values := Some {|
    close := 841 # 2; prev_close := 400; high := 421; low := 400;
    gauss := 400; gauss_prev := 395; kijun := 399; kijun_prev := 398;
    vapi := 3; vapi_prev := 2; adx := Some 30%Q; smma := 381; atr := 5;
    swing_low := 390; swing_high := 410 |}
|}.

(** Long 35 after the partial fill; the high is above the level again. *)
Definition tp_again_bar : env := {|
  date := 1; nbars := 302; position := 35; equity := 100750;
  values := Some {|
    close := 421; prev_close := 841 # 2; high := 422; low := 419;
    gauss := 405; gauss_prev := 400; kijun := 400; kijun_prev := 399;
    vapi := 4; vapi_prev := 3; adx := Some 31%Q; smma := 382; atr := 5;
    swing_low := 390; swing_high := 410 |}
|}.

(** Long 50; first close under the Kijun. *)
Definition dip_bar : env := {|
  date := 1; nbars := 301; position := 50; equity := 99800;
  values := Some {|
    close := 396; prev_close := 400; high := 400; low := 395;
    gauss := 396; gauss_prev := 395; kijun := 398; kijun_prev := 398;
    vapi := 1; vapi_prev := 2; adx := Some 25%Q; smma := 380; atr := 5;
    swing_low := 390; swing_high := 410 |}
|}.

(** Long 50; second close under the Kijun, and under the stop of 390. *)
Definition break_values : indicators := {|
  close := 389; prev_close := 396; high := 396; low := 388;
  gauss := 395; gauss_prev := 396; kijun := 398; kijun_prev := 398;
  vapi := 0; vapi_prev := 1; adx := Some 25%Q; smma := 380; atr := 5;
  swing_low := 390; swing_high := 410
|}.

Definition break_bar : env := {|
  date := 1; nbars := 302; position := 50; equity := 99450;
  values := Some break_values
|}.

(** The same bar with a trend strength of 15, under the threshold of 19. *)
Definition weak_break_bar : env := {|
  date := 1; nbars := 302; position := 50; equity := 99450;
  values := Some {|
    close := 389; prev_close := 396; high := 396; low := 388;
    gauss := 395; gauss_prev := 396; kijun := 398; kijun_prev := 398;
    vapi := 0; vapi_prev := 1; adx := Some 15%Q; smma := 380; atr := 5;
    swing_low := 390; swing_high := 410 |}
|}.

(** An agent trade at 410, too far from the entry bar's close of 400. *)
Definition agent_410 : ext_trade :=
  {| x_entry := "long@410"; x_price := Some 410%Q;
     x_direction := None; x_size := None |}.

(** Long 50; the close comes within half an ATR of 410. *)
Definition rally_bar : env := {|
  date := 1; nbars := 301; position := 50; equity := 100450;
  values := Some {|
    close := 409; prev_close := 400; high := 410; low := 400;
    gauss := 400; gauss_prev := 395; kijun := 399; kijun_prev := 398;
    vapi := 3; vapi_prev := 2; adx := Some 30%Q; smma := 381; atr := 5;
    swing_low := 392; swing_high := 410 |}
|}.

(** An agent trade at 400. *)
Definition agent_400 : ext_trade :=
  {| x_entry := "long@400"; x_price := Some 400%Q;
     x_direction := None; x_size := None |}.


(** Flat; the close is 400 and the last swing low, 410, lies above it. *)
Definition under_swing_bar : env := {|
  date := 1; nbars := 300; position := 0; equity := 100000;
  values := Some {|
    close := 400; prev_close := 405; high := 406; low := 399;
    gauss := 402; gauss_prev := 404; kijun := 398; kijun_prev := 398;
    vapi := 1; vapi_prev := 2; adx := Some 25%Q; smma := 380; atr := 5;
    swing_low := 410; swing_high := 420 |}
|}.

(** Long 50 from the bar above. *)
Definition after_swing_bar : env := {|
  date := 1; nbars := 301; position := 50; equity := 100050;
  values := Some {|
    close := 401; prev_close := 400; high := 402; low := 399;
    gauss := 401; gauss_prev := 402; kijun := 398; kijun_prev := 398;
    vapi := 2; vapi_prev := 1; adx := Some 25%Q; smma := 380; atr := 5;
    swing_low := 410; swing_high := 420 |}
|}.

(** The entry bar seen during the warm-up (100 bars of 200). *)
Definition warmup_bar : env := {|
  date := 1; nbars := 100; position := 0; equity := 100000;
  values := values entry_bar
|}.



(** The entry bar on an account of 1000. *)
Definition small_account_bar : env := {|
  date := 1; nbars := 300; position := 0; equity := 1000;
  values := values entry_bar
|}.

End Scenario.

(** Risk-based sizing: the defaults with the fixed notional switched off. *)
Definition risk_config : config := {|
  tp_r_multiple := 2;
  trailing_atr_mult := 4;
  adx_threshold := 19;
  risk_pct := 1 # 100;
  max_trades_per_day := 5;
  min_bars := 200;
  contract_multiplier := 3768 # 1000;
  fixed_position_size := 0
|}.

(** * Predicates used in the statements *)

(** The fields that only an entry writes. *)
Definition same_trade (s s' : state) : Prop :=
  today s' = today s /\
  trades_today s' = trades_today s /\
  entry_price s' = entry_price s /\
  initial_atr s' = initial_atr s /\
  entry_risk s' = entry_risk s /\
  tp_price s' = tp_price s /\
  executed_external s' = executed_external s /\
  entry_intents (sent s') = entry_intents (sent s).

(** The effect of a bar on the outbox and the counter: nothing that
    concerns entries, or one market order with the counter up by one. *)
Definition no_entry (s s' : state) : Prop :=
  entry_intents (sent s') = entry_intents (sent s) /\
  trades_today s' = trades_today s.

Definition one_entry (s s' : state) : Prop :=
  exists o, is_entry o = true /\ sent s' = sent s ++ [o] /\
            trades_today s' = trades_today s + 1.



(** The default size the override loop computes for a trade at [px]
    (line 108). *)
Definition sized (cfg : config) (e : env) (i : indicators) (px : Q)
    : option Z :=
  _determine_size cfg (equity e) px (px - atr i) false.




Definition closes (s : state) : nat := List.length (close_intents (sent s)).

(** What the steps ahead of the exit checks leave alone. *)
Definition same_exit (s s' : state) : Prop :=
  close_reason s' = close_reason s /\
  close_intents (sent s') = close_intents (sent s) /\
  (stop_price s <> None -> stop_price s' <> None).

(** The three outcomes of an exit check: nothing, or one close with its
    reason written over an empty one. *)
Definition closed_with (r : reason) (s s' : state) : Prop :=
  close_reason s = NoReason /\ close_reason s' = r /\
  closes s' = S (closes s) /\ stop_price s' = stop_price s.

(** How a managed bar ends, given whether the stop was hit and whether the
    trend-break condition holds: the stop-loss is looked at first. *)
Definition exit_outcome (stop_hit broke : bool) (sl tb : reason)
    (s s' : state) : Prop :=
  if stop_hit then close_reason s' = sl /\ closes s' = S (closes s)
  else if broke then close_reason s' = tb /\ closes s' = S (closes s)
  else close_reason s' = NoReason /\ closes s' = closes s.

Definition partials (s : state) : nat := List.length (partial_intents (sent s)).

(** An event that leaves the in-flight marker [exit_order] to the bar
    handler: a bar with the position open, a trade notification, or an
    order notification that does not clear the marker. *)
Definition undisturbed_event (ev : event) (s : state) : Prop :=
  match ev with
  | OnBar e => position e <> 0
  | OnOrder o st => exit_order (notify_order o st s) = exit_order s
  | OnTrade _ => True
  end.

Fixpoint undisturbed (cfg : config) (ext : list ext_trade) (evs : list event)
    (s : state) : Prop :=
  match evs with
  | [] => True
  | ev :: rest =>
      undisturbed_event ev s /\
      match step cfg ext ev s with
      | Some s' => undisturbed cfg ext rest s'
      | None => True
      end
  end.

Definition same_partial (s s' : state) : Prop :=
  partial_intents (sent s') = partial_intents (sent s) /\
  exit_order s' = exit_order s.

(** Nothing about partial exits changed, or the marker went from unset to
    set together with exactly one new limit order. *)
Definition at_most_one_partial (s s' : state) : Prop :=
  same_partial s s' \/
  (exit_order s = None /\ exit_order s' <> None /\
   partials s' = S (partials s)).

(** The price levels of the open position. *)
Definition same_levels (s s' : state) : Prop :=
  entry_price s' = entry_price s /\
  stop_price s' = stop_price s /\
  initial_atr s' = initial_atr s /\
  entry_risk s' = entry_risk s /\
  highest_since_entry s' = highest_since_entry s /\
  lowest_since_entry s' = lowest_since_entry s.

(** A long position whose stop is where a ratchet can hold it: at or under
    a positive entry price, or at or under the trailing level of the
    highest high seen. *)
Definition long_guarded (cfg : config) (s : state) : Prop :=
  exists ep sp h,
    entry_price s = Some ep /\ stop_price s = Some sp /\
    highest_since_entry s = Some h /\ entry_risk s <> None /\
    (0 < ep)%Q /\ (ep <= h)%Q /\
    ((sp <= ep)%Q \/
     exists a, initial_atr s = Some a /\
               (sp <= h - a * trailing_atr_mult cfg)%Q).

(** The mirror image for a short position; the lowest low stays positive. *)
Definition short_guarded (cfg : config) (s : state) : Prop :=
  exists ep sp l,
    entry_price s = Some ep /\ stop_price s = Some sp /\
    lowest_since_entry s = Some l /\ entry_risk s <> None /\
    (0 < l)%Q /\ (l <= ep)%Q /\
    ((ep <= sp)%Q \/
     exists a, initial_atr s = Some a /\
               (l + a * trailing_atr_mult cfg <= sp)%Q).

(** The stop of [s'] is at or above (long) the stop of [s]. *)
Definition stop_le (s s' : state) : Prop :=
  match stop_price s, stop_price s' with
  | Some a, Some b => (a <= b)%Q
  | _, _ => False
  end.

(** A bar of a long (short) position's life; for a short one the low is
    positive. *)
Definition long_event (ev : event) : Prop :=
  match ev with
  | OnBar e => 0 < position e
  | _ => True
  end.

Definition short_event (ev : event) : Prop :=
  match ev with
  | OnBar e =>
      position e < 0 /\ forall i, values e = Some i -> (0 < low i)%Q
  | _ => True
  end.

(** * Further predicates *)

(** A bar the handler leaves after the day rollover: still in the warm-up,
    values that cannot be read, or a trend strength that is NaN. *)
Definition skipped (cfg : config) (e : env) : Prop :=
  nbars e < min_bars cfg \/ values e = None \/
  exists i, values e = Some i /\ adx i = None.

(** Every order of the outbox carries its own index. *)
Definition numbered (l : list order) : Prop :=
  forall n o, nth_error l n = Some o -> ref o = n.

(** [s'] has the outbox of [s] with at most [k] orders appended, numbered
    on from it. *)
Definition appended (k : nat) (s s' : state) : Prop :=
  exists l,
    sent s' = sent s ++ l /\ (List.length l <= k)%nat /\
    (numbered (sent s) -> numbered (sent s')).

(** The levels fixed at the entry are untouched and the breakeven flag has
    not been taken back. *)
Definition held (s s' : state) : Prop :=
  entry_price s' = entry_price s /\
  initial_atr s' = initial_atr s /\
  entry_risk s' = entry_risk s /\
  tp_price s' = tp_price s /\
  executed_external s' = executed_external s /\
  (breakeven_active s = true -> breakeven_active s' = true).

(** Nothing about full closes changed, or an empty close reason was
    written together with exactly one close order. *)
Definition at_most_one_close (s s' : state) : Prop :=
  (close_reason s' = close_reason s /\ closes s' = closes s) \/
  (close_reason s = NoReason /\ reason_empty (close_reason s') = false /\
   closes s' = S (closes s)).

(** An event of a position's life in which the close reason is not
    reset: a bar with the position open, an order notification, a trade
    notification that is not a closure. *)
Definition latched_event (ev : event) : Prop :=
  match ev with
  | OnBar e => position e <> 0
  | OnOrder _ _ => True
  | OnTrade c => c = false
  end.

(** A long position past its breakeven: the stop is at or above the
    entry price. *)
Definition long_locked (s : state) : Prop :=
  breakeven_active s = true /\
  exists ep sp,
    entry_price s = Some ep /\ stop_price s = Some sp /\
    entry_risk s <> None /\ (ep <= sp)%Q.

Definition short_locked (s : state) : Prop :=
  breakeven_active s = true /\
  exists ep sp,
    entry_price s = Some ep /\ stop_price s = Some sp /\
    entry_risk s <> None /\ (sp <= ep)%Q.

Definition keys (ext : list ext_trade) : list string := map x_entry ext.

(** The number of bars among the events. *)
Fixpoint bars (evs : list event) : nat :=
  match evs with
  | [] => 0
  | OnBar _ :: rest => S (bars rest)
  | _ :: rest => bars rest
  end.

(** A bar of a short position's life. *)
Definition short_side_event (ev : event) : Prop :=
  match ev with
  | OnBar e => position e < 0
  | _ => True
  end.

(** * Configuration helpers ([src/config/utils.py])

    The two helpers work on plain Python data: the dictionaries that agents
    and tools pass around, and the dump of the application configuration.
    A value is JSON-like data or a [Path] (written by its string); a
    dictionary is the list of its items in insertion order, with string
    keys.  A raised [TypeError] is [None] in an [option] result.  The
    pydantic calls ([model_validate], [model_dump], [AppConfig()]) are
    external and are parameters of the two functions. *)

Module ConfigUtils.

Local Open Scope string_scope.

#[warnings="-register-all"]
Inductive pyval : Type :=
| PNone
| PBool (b : bool)
| PInt (n : Z)
| PFloat (x : Q)
| PStr (s : string)
| PPath (p : string)
| PList (l : list pyval)
| PDict (d : list (string * pyval)).

(** ** Dictionary operations *)

Section Dict.

Context {V : Type}.

(** [d.get(k)] *)
Fixpoint lookup (k : string) (d : list (string * V)) : option V :=
  match d with
  | [] => None
  | (k', v) :: r => if String.eqb k' k then Some v else lookup k r
  end.

(** [k in d] *)
Definition has_key (k : string) (d : list (string * V)) : bool :=
  match lookup k d with Some _ => true | None => false end.

(** [d[k] = v]: the value is replaced where the key stands, a new key is
    added at the end. *)
Definition setitem (k : string) (v : V) (d : list (string * V))
  : list (string * V) :=
  if has_key k d
  then map (fun kv => if String.eqb (fst kv) k then (k, v) else kv) d
  else d ++ [(k, v)].

(** [d.pop(k)] *)
Definition pop (k : string) (d : list (string * V)) : list (string * V) :=
  filter (fun kv => negb (String.eqb (fst kv) k)) d.

(** [d.update(other)] *)
Definition update (d other : list (string * V)) : list (string * V) :=
  fold_left (fun acc kv => setitem (fst kv) (snd kv) acc) other d.

End Dict.

Definition dict : Type := list (string * pyval).

(** ** [safe_dump_config] (lines 10-34) *)

Definition masked : pyval := PStr "MASKED".

(** The inner [convert_paths] (lines 21-31).  On a dictionary the source
    first overwrites the value of ["xai_api_key"], when the key is there,
    and then converts every value; converting ["MASKED"] returns it, so the
    item is written here in one step (lemma [convert_paths_dict] gives the
    two steps of the source). *)
Fixpoint convert_paths (obj : pyval) : pyval :=
  match obj with
  | PPath p => PStr p
  | PDict d =>
      PDict (map (fun kv =>
                    if String.eqb (fst kv) "xai_api_key"
                    then ("xai_api_key", masked)
                    else (fst kv, convert_paths (snd kv))) d)
  | PList l => PList (map convert_paths l)
  | _ => obj
  end.

(** The masking statement of lines 26-27 on its own. *)
Definition mask (d : dict) : dict :=
  if has_key "xai_api_key" d then setitem "xai_api_key" masked d else d.

Section Dump.

Variable AppConfig : Type.
(** [config.model_dump()] *)
Variable model_dump : AppConfig -> dict.
(** [AppConfig()] *)
Variable app_default : AppConfig.

(** The argument is a dictionary or a configuration object. *)
Definition safe_dump_config (config : dict + AppConfig) : pyval :=
  let config :=
    match config with
    | inl _ => app_default
    | inr c => c
    end in
  let config_dict := model_dump config in
  convert_paths (PDict config_dict).

End Dump.

(** ** [safe_validate_config] (lines 37-88) *)

Definition trading_map : list (string * string) :=
  [ ("ticker", "ticker");
    ("gaussian_period", "gaussian_period");
    ("adx_threshold", "adx_threshold");
    ("atr_period", "atr_period");
    ("tp_r_multiple", "tp_r_multiple");
    ("trailing_atr_mult", "trailing_atr_mult");
    ("risk_pct", "risk_pct");
    ("symbol", "ticker");
    ("tp1", "tp_r_multiple") ].

Definition defaults : dict :=
  [ ("atr_period", PInt 14);
    ("gaussian_period", PInt 26);
    ("adx_threshold", PInt 19);
    ("tp_r_multiple", PFloat 2);
    ("trailing_atr_mult", PFloat 4);
    ("risk_pct", PFloat (1 # 100)) ].

(** One turn of the loop of lines 54-62 on the pair
    ([config_dict], [trading_extra]). *)
Definition extract (st : dict * dict) (item : string * pyval) : dict * dict :=
  let '(config_dict, trading_extra) := st in
  let '(key, value) := item in
  match lookup key trading_map with
  | Some mapped_key =>
      (pop key config_dict, setitem mapped_key value trading_extra)
  | None =>
      if String.eqb key "trading" then
        match value with
        | PDict other => (config_dict, update trading_extra other)
        | _ => st
        end
      else st
  end.

(** [key in obj] for a string [key]: a key of a dictionary, a substring of
    a string, an element of a list; a [TypeError] on the other values. *)
Definition contains (key : string) (obj : pyval) : option bool :=
  match obj with
  | PDict d => Some (has_key key d)
  | PStr s =>
      Some (match String.index 0 key s with Some _ => true | None => false end)
  | PList l =>
      Some (existsb (fun x => match x with
                              | PStr s => String.eqb s key
                              | _ => false
                              end) l)
  | _ => None
  end.

(** [obj[key] = v] for a string [key]: only a dictionary takes it. *)
Definition assign (key : string) (v : pyval) (obj : pyval) : option pyval :=
  match obj with
  | PDict d => Some (PDict (setitem key v d))
  | _ => None
  end.

(** One turn of the loop of lines 80-82 on [trading]. *)
Definition fill (trading : option pyval) (item : string * pyval)
  : option pyval :=
  match trading with
  | None => None
  | Some t =>
      match contains (fst item) t with
      | None => None
      | Some true => Some t
      | Some false => assign (fst item) (snd item) t
      end
  end.

(** The loop of lines 53-62, over the items the dictionary has when the
    loop starts: the dictionary and [trading_extra] after it. *)
Definition extracted (config_dict : dict) : dict * dict :=
  fold_left extract config_dict (config_dict, []).

(** Lines 53-82: the dictionary as it is handed to [model_validate], which
    is also the state the caller's dictionary is left in. *)
Definition prepared (config_dict : dict) : option dict :=
  let '(config_dict, trading_extra) := extracted config_dict in
  let config_dict :=
    match trading_extra with
    | [] => config_dict
    | _ => setitem "trading" (PDict trading_extra) config_dict
    end in
  let config_dict :=
    if has_key "trading" config_dict then config_dict
    else setitem "trading" (PDict []) config_dict in
  match lookup "trading" config_dict with
  | None => None (* [config_dict["trading"]] of an absent key: never here *)
  | Some trading =>
      match fold_left fill defaults (Some trading) with
      | None => None
      | Some trading => Some (setitem "trading" trading config_dict)
      end
  end.

Section Validate.

Variable AppConfig : Type.
(** [AppConfig.model_validate(d)]; [None] when it raises. *)
Variable model_validate : dict -> option AppConfig.
(** [AppConfig()] *)
Variable app_default : AppConfig.

(** The result is the pair of the caller's dictionary after the call and
    the returned configuration. *)
Definition safe_validate_config (config_dict : dict)
  : option (dict * AppConfig) :=
  match prepared config_dict with
  | None => None
  | Some d =>
      Some (d, match model_validate d with
               | Some c => c
               | None => app_default
               end)
  end.

End Validate.

(** ** Predicates used in the statements *)

(** A key that [trading_map] sends into the trading section. *)
Definition is_alias (k : string) : bool := has_key k trading_map.

(** No [Path] is left, at any depth of lists and dictionaries, and every
    ["xai_api_key"] of every dictionary holds ["MASKED"]. *)
Fixpoint converted (obj : pyval) : Prop :=
  match obj with
  | PPath _ => False
  | PList l => fold_right (fun x rest => converted x /\ rest) True l
  | PDict d =>
      fold_right
        (fun kv rest =>
           (if String.eqb (fst kv) "xai_api_key"
            then snd kv = masked
            else converted (snd kv)) /\ rest)
        True d
  | _ => True
  end.

(** The value an item of the caller's dictionary gives to the key [m] of
    the trading section: a top-level key mapped to [m], or the item
    ["trading"] when it is a dictionary with the key [m]. *)
Definition writes (m : string) (item : string * pyval) : option pyval :=
  match lookup (fst item) trading_map with
  | Some mapped_key =>
      if String.eqb mapped_key m then Some (snd item) else None
  | None =>
      if String.eqb (fst item) "trading" then
        match snd item with
        | PDict other => lookup m other
        | _ => None
        end
      else None
  end.

(** The last such value in the order of the dictionary, from [acc]. *)
Definition last_write (m : string) (items : dict) (acc : option pyval)
  : option pyval :=
  fold_left (fun acc item =>
               match writes m item with
               | Some v => Some v
               | None => acc
               end) items acc.

(** The keys of a dictionary are distinct: of a ["trading"] section. *)
Definition sections_well_formed (d : dict) : Prop :=
  forall t, In ("trading", PDict t) d -> NoDup (map fst t).

(** The loop of lines 80-82 when [trading] is the dictionary [t]. *)
Definition filled (dl t : dict) : dict :=
  fold_left (fun t item =>
               if has_key (fst item) t then t
               else setitem (fst item) (snd item) t) dl t.

(** The six keys of [defaults] are keys of [t]. *)
Definition complete (t : dict) : Prop :=
  forall k, has_key k defaults = true -> has_key k t = true.

End ConfigUtils.

(** * Properties *)

(** ** Comparisons *)

Lemma leb_le (a b : Q) : Py.leb a b = true <-> (a <= b)%Q.
Proof. apply Qle_bool_iff. Qed.

Lemma ltb_lt (a b : Q) : Py.ltb a b = true <-> (a < b)%Q.
Proof.
  unfold Py.ltb. rewrite negb_true_iff. split; intro H.
  - apply Qnot_le_lt. intro L. apply Qle_bool_iff in L. congruence.
  - destruct (Qle_bool b a) eqn:E; [|reflexivity].
    apply Qle_bool_iff in E. exfalso. revert H. apply Qle_not_lt, E.
Qed.

Lemma leb_gt (a b : Q) : Py.leb a b = false <-> (b < a)%Q.
Proof.
  unfold Py.leb. split; intro H.
  - apply Qnot_le_lt. intro L. apply Qle_bool_iff in L. congruence.
  - destruct (Qle_bool a b) eqn:E; [|reflexivity].
    apply Qle_bool_iff in E. exfalso. revert H. apply Qle_not_lt, E.
Qed.

Lemma ltb_ge (a b : Q) : Py.ltb a b = false <-> (b <= a)%Q.
Proof.
  unfold Py.ltb. rewrite negb_false_iff. apply Qle_bool_iff.
Qed.

(** ** Position sizing *)

Lemma calculate_size_nonneg cfg eq entry stop short n :
  calculate_size cfg eq entry stop short = Some n -> 0 <= n.
Proof.
  unfold calculate_size.
  destruct (Py.leb (Qabs (entry - stop)) 0).
  - intros [= <-]. lia.
  - destruct (Py.div _ _); [|discriminate]. intros [= <-]. lia.
Qed.

Lemma calculate_size_degenerate cfg eq entry stop short :
  (Qabs (entry - stop) <= 0)%Q ->
  calculate_size cfg eq entry stop short = Some 0.
Proof.
  intro H. unfold calculate_size.
  apply leb_le in H. now rewrite H.
Qed.

(** C7.  The two worked examples of the position sizer: a fixed notional of
    20000 at an entry price of 400 gives 50 contracts whatever the other
    inputs are; risk-based sizing (fixed notional 0) with equity 100000,
    risk fraction 0.01, entry 400, stop 390 and contract multiplier 3.768
    gives floor(1000 / (10 * 3.768)) = 26.  The binary64 evaluation of the
    two examples gives the same counts. *)
Theorem determine_size_examples :
  (forall tp tr adxt rp mt mb cm eq stop short,
     _determine_size
       {| tp_r_multiple := tp; trailing_atr_mult := tr; adx_threshold := adxt;
          risk_pct := rp; max_trades_per_day := mt; min_bars := mb;
          contract_multiplier := cm; fixed_position_size := 20000 |}
       eq 400 stop short = Some 50) /\
  (forall tp tr adxt mt mb short,
     _determine_size
       {| tp_r_multiple := tp; trailing_atr_mult := tr; adx_threshold := adxt;
          risk_pct := 1 # 100; max_trades_per_day := mt; min_bars := mb;
          contract_multiplier := 3768 # 1000; fixed_position_size := 0 |}
       100000 400 390 short = Some 26) /\
  Qfloor (1000 / (10 * (3768 # 1000))) = 26 /\
  Binary64._determine_size (Binary64.of_Z 20000)
    (Binary64.decimal 1 100) (Binary64.decimal 3768 1000)
    (Binary64.of_Z 100000) (Binary64.of_Z 400) (Binary64.of_Z 390) = Some 50 /\
  Binary64._determine_size (Binary64.of_Z 0)
    (Binary64.decimal 1 100) (Binary64.decimal 3768 1000)
    (Binary64.of_Z 100000) (Binary64.of_Z 400) (Binary64.of_Z 390) = Some 26.
Proof.
  split; [|split; [|split; [|split]]]; intros; vm_compute; reflexivity.
Qed.

Lemma int_of_finite (x : spec_float) :
  Binary64.int x = None <-> Binary64.finite x = false.
Proof.
  destruct x; simpl; split; intro H; try reflexivity; discriminate.
Qed.

Lemma floor_of_finite (x : spec_float) :
  Binary64.floor x = None <-> Binary64.finite x = false.
Proof.
  destruct x; simpl; split; intro H; try reflexivity; discriminate.
Qed.

(** C6, as the code has it, on the binary64 evaluation and on the
    rational model.  Whenever the sizer returns, the count is not
    negative.  In risk-based mode (no positive [fixed_position_size]) it
    returns exactly 0 when the stop distance [|entry - stop|] is not
    positive.  In fixed-notional mode the stop is not looked at: the count
    is [max(1, int(fixed / entry))], at least 1 whatever the stop distance
    is, and the call raises instead of returning exactly when the entry
    price is zero ([ZeroDivisionError]) or the quotient is an infinity or
    NaN ([OverflowError], [ValueError] of [int]).  In risk-based mode with
    a positive (or NaN) distance it raises exactly when the product of the
    distance and the contract multiplier is zero or the quotient is an
    infinity or NaN. *)
Theorem determine_size_nonneg_and_degenerate :
  (forall fixed risk_pct cm eq entry stop n,
     Binary64._determine_size fixed risk_pct cm eq entry stop = Some n ->
     0 <= n) /\
  (forall fixed risk_pct cm eq entry stop,
     SFltb (S754_zero false) fixed = false ->
     SFleb (SFabs (SFsub Binary64.prec Binary64.emax entry stop))
       (S754_zero false) = true ->
     Binary64._determine_size fixed risk_pct cm eq entry stop = Some 0) /\
  (forall fixed risk_pct cm eq entry stop n,
     SFltb (S754_zero false) fixed = true ->
     Binary64._determine_size fixed risk_pct cm eq entry stop = Some n ->
     1 <= n /\
     Some n = option_map (Z.max 1)
                (Binary64.int (SFdiv Binary64.prec Binary64.emax fixed entry))) /\
  (forall fixed risk_pct cm eq entry stop,
     SFltb (S754_zero false) fixed = true ->
     (Binary64._determine_size fixed risk_pct cm eq entry stop = None <->
      Binary64.is_zero entry = true \/
      Binary64.finite (SFdiv Binary64.prec Binary64.emax fixed entry)
      = false)) /\
  (forall fixed risk_pct cm eq entry stop,
     SFltb (S754_zero false) fixed = false ->
     SFleb (SFabs (SFsub Binary64.prec Binary64.emax entry stop))
       (S754_zero false) = false ->
     let risk_exposure :=
       SFmul Binary64.prec Binary64.emax
         (SFabs (SFsub Binary64.prec Binary64.emax entry stop)) cm in
     (Binary64._determine_size fixed risk_pct cm eq entry stop = None <->
      Binary64.is_zero risk_exposure = true \/
      Binary64.finite
        (SFdiv Binary64.prec Binary64.emax
           (SFmul Binary64.prec Binary64.emax eq risk_pct) risk_exposure)
      = false)) /\
  (forall cfg eq entry stop short n,
     _determine_size cfg eq entry stop short = Some n -> 0 <= n) /\
  (forall cfg eq entry stop short,
     (fixed_position_size cfg <= 0)%Q ->
     (Qabs (entry - stop) <= 0)%Q ->
     _determine_size cfg eq entry stop short = Some 0) /\
  (forall cfg eq entry stop short n,
     (0 < fixed_position_size cfg)%Q ->
     _determine_size cfg eq entry stop short = Some n -> 1 <= n).
Proof.
  split; [|split; [|split; [|split; [|split; [|split; [|split]]]]]].
  - intros fixed risk_pct cm eq entry stop n.
    unfold Binary64._determine_size, Binary64.calculate_size, Binary64.div.
    destruct (SFltb _ fixed).
    + destruct (Binary64.is_zero entry); [discriminate|].
      destruct (Binary64.int _); [|discriminate]. intros [= <-]. lia.
    + destruct (SFleb _ _); [intros [= <-]; lia|].
      destruct (Binary64.is_zero _); [discriminate|].
      destruct (Binary64.floor _); [|discriminate]. intros [= <-]. lia.
  - intros fixed risk_pct cm eq entry stop Hf Hd.
    unfold Binary64._determine_size, Binary64.calculate_size.
    now rewrite Hf, Hd.
  - intros fixed risk_pct cm eq entry stop n Hf.
    unfold Binary64._determine_size, Binary64.div. rewrite Hf.
    destruct (Binary64.is_zero entry); [discriminate|].
    destruct (Binary64.int _); [|discriminate].
    intros [= <-]. split; [lia | reflexivity].
  - intros fixed risk_pct cm eq entry stop Hf.
    unfold Binary64._determine_size, Binary64.div. rewrite Hf.
    destruct (Binary64.is_zero entry).
    + split; auto.
    + rewrite <- int_of_finite.
      destruct (Binary64.int _); split; try discriminate; auto.
      intros [H | H]; discriminate.
  - intros fixed risk_pct cm eq entry stop Hf Hd risk_exposure.
    unfold Binary64._determine_size, Binary64.calculate_size, Binary64.div.
    rewrite Hf, Hd. fold risk_exposure.
    destruct (Binary64.is_zero risk_exposure).
    + split; auto.
    + rewrite <- floor_of_finite.
      destruct (Binary64.floor _); split; try discriminate; auto.
      intros [H | H]; discriminate.
  - intros cfg eq entry stop short n. unfold _determine_size.
    destruct (Py.ltb 0 (fixed_position_size cfg)).
    + destruct (Py.div _ _); [|discriminate]. intros [= <-]. lia.
    + apply calculate_size_nonneg.
  - intros cfg eq entry stop short Hf Hd. unfold _determine_size.
    apply ltb_ge in Hf. rewrite Hf.
    now apply calculate_size_degenerate.
  - intros cfg eq entry stop short n Hf. unfold _determine_size.
    apply ltb_lt in Hf. rewrite Hf.
    destruct (Py.div _ _); [|discriminate]. intros [= <-]. lia.
Qed.

Lemma determine_size_nonneg_and_degenerate_witness :
  SFltb (S754_zero false) (Binary64.of_Z 0) = false /\
  SFleb (SFabs (SFsub Binary64.prec Binary64.emax
                  (Binary64.of_Z 400) (Binary64.of_Z 400)))
    (S754_zero false) = true /\
  Binary64._determine_size (Binary64.of_Z 0)
    (Binary64.decimal 1 100) (Binary64.decimal 3768 1000)
    (Binary64.of_Z 100000) (Binary64.of_Z 400) (Binary64.of_Z 400) = Some 0 /\
  SFltb (S754_zero false) (Binary64.of_Z 20000) = true /\
  Binary64._determine_size (Binary64.of_Z 20000)
    (Binary64.decimal 1 100) (Binary64.decimal 3768 1000)
    (Binary64.of_Z 100000) (S754_zero false) (Binary64.of_Z 390) = None.
Proof.
  assert (Hf : SFltb (S754_zero false) (Binary64.of_Z 0) = false)
    by reflexivity.
  assert (Hd : SFleb (SFabs (SFsub Binary64.prec Binary64.emax
                               (Binary64.of_Z 400) (Binary64.of_Z 400)))
                 (S754_zero false) = true) by (vm_compute; reflexivity).
  assert (Hn : SFltb (S754_zero false) (Binary64.of_Z 20000) = true)
    by (vm_compute; reflexivity).
  split; [exact Hf | split; [exact Hd | split; [|split; [exact Hn|]]]].
  - exact (proj1 (proj2 determine_size_nonneg_and_degenerate)
             (Binary64.of_Z 0) (Binary64.decimal 1 100)
             (Binary64.decimal 3768 1000) (Binary64.of_Z 100000)
             (Binary64.of_Z 400) (Binary64.of_Z 400) Hf Hd).
  - apply (proj1 (proj2 (proj2 (proj2 determine_size_nonneg_and_degenerate)))
             (Binary64.of_Z 20000) (Binary64.decimal 1 100)
             (Binary64.decimal 3768 1000) (Binary64.of_Z 100000)
             (S754_zero false) (Binary64.of_Z 390) Hn).
    left. reflexivity.
Defined.

(** C6 as stated fails: with the default configuration (fixed notional
    20000) a zero stop distance still yields 50 contracts, on the binary64
    evaluation as on the rational model; and with a zero entry price the
    sizer does not return at all. *)
Lemma determine_size_degenerate_counterexample :
  SFleb (SFabs (SFsub Binary64.prec Binary64.emax
                  (Binary64.of_Z 400) (Binary64.of_Z 400)))
    (S754_zero false) = true /\
  Binary64._determine_size (Binary64.of_Z 20000)
    (Binary64.decimal 1 100) (Binary64.decimal 3768 1000)
    (Binary64.of_Z 100000) (Binary64.of_Z 400) (Binary64.of_Z 400) = Some 50 /\
  Binary64._determine_size (Binary64.of_Z 20000)
    (Binary64.decimal 1 100) (Binary64.decimal 3768 1000)
    (Binary64.of_Z 100000) (Binary64.of_Z 0) (Binary64.of_Z 0) = None /\
  (Qabs (400 - 400) <= 0)%Q /\
  _determine_size default_config 100000 400 400 false = Some 50 /\
  _determine_size default_config 100000 400 400 false <> Some 0.
Proof.
  split; [vm_compute; reflexivity|].
  split; [vm_compute; reflexivity|].
  split; [vm_compute; reflexivity|].
  split; [vm_compute; discriminate | split; [reflexivity | discriminate]].
Qed.

(** ** Management with unset fields *)

(** C10.  When [entry_price], [stop_price] or [entry_risk] is unset,
    position management returns at once: the state is unchanged, so no
    order is sent and no arithmetic is done on an unset field. *)
Theorem update_position_management_unset cfg pos c h l k s :
  entry_price s = None \/ stop_price s = None \/ entry_risk s = None ->
  _update_position_management cfg pos c h l k s = s.
Proof.
  unfold _update_position_management.
  intros [H | [H | H]]; rewrite H.
  - reflexivity.
  - now destruct (entry_price s).
  - now destruct (entry_price s), (stop_price s).
Qed.

Lemma update_position_management_unset_witness :
  entry_price init = None /\
  _update_position_management default_config 50 400 401 399 395 init = init.
Proof.
  split; [reflexivity |].
  apply (update_position_management_unset default_config 50 400 401 399 395 init).
  left. reflexivity.
Defined.
(** ** Runs on the concrete bars *)

Import Scenario.

Ltac by_eval :=
  vm_compute; first [reflexivity | discriminate | (intro; discriminate)].

Ltac eval_all :=
  lazymatch goal with
  | |- exists _, _ => eexists; eval_all
  | |- _ /\ _ => split; [by_eval | eval_all]
  | |- _ => by_eval
  end.

Lemma entry_bar_run :
  run default_config [] [OnBar entry_bar] init = Some opened.
Proof. by_eval. Qed.

(** C2 at a failing input.  One long position of 50: the take-profit
    level 420 is reached, 15 contracts are offered at the limit, the
    broker reports the order completed, and on the next bar the level is
    reached again: a second partial order, for 10 of the remaining 35,
    goes out.  Without the completion in between, the same two bars send
    one partial order only. *)
Theorem partial_exit_fires_twice :
  (exists s,
     run default_config []
       [OnBar entry_bar; OnBar tp_bar; OnBar tp_again_bar] init = Some s /\
     sent s = [{| ref := 0; req := Market Buy 50 |};
               {| ref := 1; req := Limit Sell 15 420 |}]) /\
  exists s,
    run default_config []
      [OnBar entry_bar; OnBar tp_bar;
       OnOrder {| ref := 1; req := Limit Sell 15 420 |} Completed;
       OnBar tp_again_bar] init = Some s /\
    sent s = [{| ref := 0; req := Market Buy 50 |};
              {| ref := 1; req := Limit Sell 15 420 |};
              {| ref := 2; req := Limit Sell 10 420 |}] /\
    List.length (partial_intents (sent s)) = 2%nat /\
    List.length (entry_intents (sent s)) = 1%nat /\
    List.length (close_intents (sent s)) = 0%nat.
Proof. split; eval_all. Qed.

(** C4 as stated fails.  On [break_bar] the two-bar trend-break condition
    and the stop-loss condition both hold for the open long position; the
    single close that goes out carries the stop-loss reason, because
    position management, with its stop-loss check, runs before the
    trend-break check. *)
Lemma both_exits_hold_counterexample :
  exists i s,
    values break_bar = Some i /\
    trendbreak_long i = true /\
    run default_config [] [OnBar entry_bar; OnBar dip_bar; OnBar break_bar]
      init = Some s /\
    close_reason s = StopLossLong 390 /\
    close_reason s <> TrendbreakLong /\
    close_intents (sent s) = [{| ref := 1; req := ClosePosition |}].
Proof. eval_all. Qed.

(** The two early returns of lines 96-100 end the bar for an open position
    as well: only the day rollover has happened. *)
Lemma next_returns_on_weak_trend cfg ext e s i :
  values e = Some i -> adx_blocks cfg i = true ->
  next cfg ext e s = Some (roll_day (date e) s).
Proof.
  intros Hv Ha. unfold next. rewrite Hv, Ha.
  now destruct (nbars e <? min_bars cfg).
Qed.

Lemma next_returns_at_daily_cap cfg ext e s :
  max_trades_per_day cfg <= trades_today (roll_day (date e) s) ->
  next cfg ext e s = Some (roll_day (date e) s).
Proof.
  intro Hc. unfold next. apply Z.leb_le in Hc. rewrite Hc.
  destruct (nbars e <? min_bars cfg); [reflexivity|].
  destruct (values e) as [i|]; [|reflexivity].
  now destruct (adx_blocks cfg i).
Qed.

(** C5 at a failing input.  A long position is open with its stop at 390
    and the bar closes at 389.  With a trend strength of 25 the stop-loss
    close goes out; with a trend strength of 15 (at or under the threshold
    of 19) the bar handler returns before position management and the
    state, with the outbox, is what it was before the bar.  The same
    happens once the daily trade cap is reached: with a cap of 1 the
    position opened on [entry_bar] is not managed for the rest of the day. *)
Theorem gates_skip_management :
  (exists s0 s1,
     run default_config [] [OnBar entry_bar; OnBar dip_bar] init = Some s0 /\
     stop_price s0 = Some 390%Q /\
     next default_config [] weak_break_bar s0 = Some s0 /\
     next default_config [] break_bar s0 = Some s1 /\
     close_intents (sent s0) = [] /\
     close_intents (sent s1) = [{| ref := 1; req := ClosePosition |}]) /\
  (let capped :=
     {| tp_r_multiple := 2; trailing_atr_mult := 4; adx_threshold := 19;
        risk_pct := 1 # 100; max_trades_per_day := 1; min_bars := 200;
        contract_multiplier := 3768 # 1000; fixed_position_size := 20000 |} in
   exists s0,
     run capped [] [OnBar entry_bar] init = Some s0 /\
     trades_today s0 = 1 /\
     stop_price s0 = Some 390%Q /\
     run capped [] [OnBar dip_bar; OnBar break_bar] s0 = Some s0).
Proof. split; [| intro capped; subst capped]; eval_all. Qed.

(** C3 at a failing input.  A long position of 50 is open from the signal
    entry on [entry_bar]; on [rally_bar] the pending agent trade at 410 is
    within half an ATR of the close, and the override loop buys 48 more
    and overwrites the entry price and the stop of the open position. *)
Theorem override_enters_while_open :
  exists s0 s1,
    run default_config [agent_410] [OnBar entry_bar] init = Some s0 /\
    sent s0 = [{| ref := 0; req := Market Buy 50 |}] /\
    position rally_bar = 50 /\
    next default_config [agent_410] rally_bar s0 = Some s1 /\
    sent s1 = [{| ref := 0; req := Market Buy 50 |};
               {| ref := 1; req := Market Buy 48 |}] /\
    entry_price s0 = Some 400%Q /\ entry_price s1 = Some 409%Q /\
    stop_price s0 = Some 390%Q /\ stop_price s1 = Some 392%Q.
Proof. eval_all. Qed.

(** C9 at a failing input.  Risk-based sizing on an account of 1000: the
    risk amount is 10.  On the flat bar the long signal fires and the sizer
    returns 0 for it (stop distance 10), so the signal path would skip the
    entry: with no external trades nothing is sent and the counter stays
    at 0.  With the pending agent trade at 400 the override loop runs
    first; its default size, for a stop distance of one ATR, is 0 as well,
    and it calls [_enter_long] with it: [self.buy(size=0)] is called and
    the daily counter goes to 1.  The two sizes are 0 on the binary64
    evaluation too. *)
Theorem override_enters_with_zero_size :
  exists i s,
    values small_account_bar = Some i /\
    position small_account_bar = 0 /\
    long_signal i = true /\
    _determine_size risk_config (equity small_account_bar)
      (close i) (swing_low i) false = Some 0 /\
    sized risk_config small_account_bar i 400 = Some 0 /\
    Binary64._determine_size (Binary64.of_Z 0)
      (Binary64.decimal 1 100) (Binary64.decimal 3768 1000)
      (Binary64.of_Z 1000) (Binary64.of_Z 400) (Binary64.of_Z 390) = Some 0 /\
    Binary64._determine_size (Binary64.of_Z 0)
      (Binary64.decimal 1 100) (Binary64.decimal 3768 1000)
      (Binary64.of_Z 1000) (Binary64.of_Z 400) (Binary64.of_Z 395) = Some 0 /\
    next risk_config [] small_account_bar init = Some (set_day 1 init) /\
    sent (set_day 1 init) = [] /\ trades_today (set_day 1 init) = 0 /\
    next risk_config [agent_400] small_account_bar init = Some s /\
    sent s = [{| ref := 0; req := Market Buy 0 |}] /\
    entry_intents (sent s) = [{| ref := 0; req := Market Buy 0 |}] /\
    trades_today s = 1 /\
    executed_external s = ["long@400"%string].
Proof. eval_all. Qed.

(** C1 at a failing input.  The override loop enters long at 400 with the
    swing low 410 as stop (the signal path would have refused: it asks for
    [swing_low < close]).  The entry risk is -10, so the breakeven level is
    380; on the next bar the close of 401 is above it and the stop of the
    open long position moves from 410 down to 400. *)
Theorem long_stop_decreases :
  exists s0 s1,
    run default_config [agent_400] [OnBar under_swing_bar] init = Some s0 /\
    position after_swing_bar = 50 /\
    next default_config [agent_400] after_swing_bar s0 = Some s1 /\
    stop_price s0 = Some 410%Q /\
    stop_price s1 = Some 400%Q /\
    (400 < 410)%Q /\
    close_intents (sent s1) = [].
Proof. eval_all. Qed.


(** ** What each step leaves alone *)

Ltac split_ifs :=
  repeat match goal with
         | |- context [if ?c then _ else _] => destruct c eqn:?
         | |- context [match ?x with Some _ => _ | None => _ end] =>
             destruct x eqn:?
         end.

Lemma filter_snoc {A} (f : A -> bool) (l : list A) (x : A) :
  filter f (l ++ [x]) = if f x then filter f l ++ [x] else filter f l.
Proof.
  rewrite filter_app. simpl. destruct (f x); [reflexivity | apply app_nil_r].
Qed.

Lemma same_trade_refl s : same_trade s s.
Proof. repeat split. Qed.

Lemma same_trade_trans s1 s2 s3 :
  same_trade s1 s2 -> same_trade s2 s3 -> same_trade s1 s3.
Proof.
  unfold same_trade. intros H1 H2.
  decompose [and] H1. decompose [and] H2.
  repeat split; congruence.
Qed.

Ltac same_trade_cases :=
  split_ifs; unfold same_trade, submit, entry_intents; simpl;
  rewrite ?filter_snoc; simpl; repeat split.

Lemma long_manage_same_trade cfg pos c h ep er s :
  same_trade s (Long.manage cfg pos c h ep er s).
Proof.
  unfold Long.manage.
  eapply same_trade_trans; [|unfold Long.stop_loss; same_trade_cases].
  eapply same_trade_trans; [|unfold Long.take_profit; same_trade_cases].
  eapply same_trade_trans; [|unfold Long.trailing; same_trade_cases].
  eapply same_trade_trans; [|unfold Long.breakeven; same_trade_cases].
  repeat split.
Qed.

Lemma short_manage_same_trade cfg pos c l ep er s :
  same_trade s (Short.manage cfg pos c l ep er s).
Proof.
  unfold Short.manage.
  eapply same_trade_trans; [|unfold Short.stop_loss; same_trade_cases].
  eapply same_trade_trans; [|unfold Short.take_profit; same_trade_cases].
  eapply same_trade_trans; [|unfold Short.trailing; same_trade_cases].
  eapply same_trade_trans; [|unfold Short.breakeven; same_trade_cases].
  repeat split.
Qed.

Lemma update_position_management_same_trade cfg pos c h l k s :
  same_trade s (_update_position_management cfg pos c h l k s).
Proof.
  unfold _update_position_management.
  destruct (entry_price s), (stop_price s), (entry_risk s);
    try apply same_trade_refl.
  destruct (0 <? pos);
    [apply long_manage_same_trade | apply short_manage_same_trade].
Qed.

Lemma trend_break_same_trade pos i s : same_trade s (trend_break pos i s).
Proof. unfold trend_break. same_trade_cases. Qed.

Lemma open_branch_same_trade cfg e i s : same_trade s (open_branch cfg e i s).
Proof.
  unfold open_branch.
  eapply same_trade_trans;
    [apply update_position_management_same_trade | apply trend_break_same_trade].
Qed.

Lemma roll_day_sent d s : sent (roll_day d s) = sent s.
Proof. unfold roll_day. now destruct (today s) as [t|]; [destruct (d =? t)|]. Qed.

Lemma roll_day_exit_order d s : exit_order (roll_day d s) = exit_order s.
Proof. unfold roll_day. now destruct (today s) as [t|]; [destruct (d =? t)|]. Qed.

Lemma roll_day_close_reason d s : close_reason (roll_day d s) = close_reason s.
Proof. unfold roll_day. now destruct (today s) as [t|]; [destruct (d =? t)|]. Qed.

(** ** Entries and the daily counter *)

Lemma enter_long_one_entry cfg c size stop a s :
  one_entry s (_enter_long cfg c size stop a s).
Proof.
  exists {| ref := List.length (sent s); req := Market Buy size |}.
  repeat split.
Qed.

Lemma enter_short_one_entry cfg c size stop a s :
  one_entry s (_enter_short cfg c size stop a s).
Proof.
  exists {| ref := List.length (sent s); req := Market Sell size |}.
  repeat split.
Qed.

Lemma external_override_one_entry cfg e i trades s s' :
  external_override cfg e i trades s = Entered s' -> one_entry s s'.
Proof.
  induction trades as [|t rest IH]; simpl; [discriminate|].
  destruct (pending s t); [|exact IH].
  destruct (x_price t) as [px|]; [|discriminate].
  destruct (_determine_size _ _ _ _ _); [|discriminate].
  destruct (String.eqb (direction_of t) "long" && near i px).
  - intros [= <-]. eexists. split; [|split]; [| reflexivity | reflexivity].
    reflexivity.
  - destruct (String.eqb (direction_of t) "short" && near i px);
      [|exact IH].
    intros [= <-]. eexists. split; [|split]; [| reflexivity | reflexivity].
    reflexivity.
Qed.

Lemma long_short_exclusive i : long_signal i = true -> short_signal i = false.
Proof.
  unfold long_signal, short_signal.
  destruct (Py.ltb (gauss_prev i) (gauss i)); simpl; [reflexivity | discriminate].
Qed.

Lemma try_short_entry cfg e i s s' :
  try_short cfg e i s = Some s' -> s' = s \/ one_entry s s'.
Proof.
  unfold try_short. destruct (short_signal i); [|intros [= <-]; now left].
  destruct (_determine_size _ _ _ _ _) as [size|]; [|discriminate].
  destruct (0 <? size); intros [= <-]; [right | now left].
  apply enter_short_one_entry.
Qed.

Lemma flat_branch_entry cfg e i s s' :
  flat_branch cfg e i s = Some s' -> no_entry s s' \/ one_entry s s'.
Proof.
  unfold flat_branch.
  set (s0 := set_close_reason NoReason (set_exit_order None s)).
  assert (H0 : forall x, x = s0 \/ one_entry s0 x ->
                         no_entry s x \/ one_entry s x).
  { intros x [-> | H]; [left; split; reflexivity | right; exact H]. }
  destruct (long_signal i).
  - destruct (_determine_size _ _ _ _ _) as [size|]; [|discriminate].
    destruct (0 <? size).
    + intros [= <-]. right. apply (enter_long_one_entry cfg _ _ _ _ s0).
    + intro H. apply H0. eapply try_short_entry, H.
  - intro H. apply H0. eapply try_short_entry, H.
Qed.






(** ** The external-trades override *)





(** ** Full closes: stop-loss first, then trend-break *)

Lemma same_exit_refl s : same_exit s s.
Proof. repeat split. auto. Qed.

Lemma same_exit_trans s1 s2 s3 :
  same_exit s1 s2 -> same_exit s2 s3 -> same_exit s1 s3.
Proof.
  intros (R1 & C1 & S1) (R2 & C2 & S2).
  repeat split; [congruence | congruence | auto].
Qed.

Ltac same_exit_cases :=
  split_ifs; unfold same_exit, submit, close_intents; simpl;
  rewrite ?filter_snoc; simpl; repeat split; auto; try discriminate.

Lemma long_before_exit cfg pos c h ep er s :
  same_exit s
    (Long.take_profit pos h
       (Long.trailing cfg (Py.max (Py.or_else (highest_since_entry s) ep) h)
          (Long.breakeven cfg c ep er
             (set_highest (Py.max (Py.or_else (highest_since_entry s) ep) h) s)))).
Proof.
  eapply same_exit_trans; [|unfold Long.take_profit; same_exit_cases].
  eapply same_exit_trans; [|unfold Long.trailing; same_exit_cases].
  eapply same_exit_trans; [|unfold Long.breakeven; same_exit_cases].
  repeat split. auto.
Qed.

Lemma short_before_exit cfg pos c l ep er s :
  same_exit s
    (Short.take_profit pos l
       (Short.trailing cfg (Py.min (Py.or_else (lowest_since_entry s) ep) l)
          (Short.breakeven cfg c ep er
             (set_lowest (Py.min (Py.or_else (lowest_since_entry s) ep) l) s)))).
Proof.
  eapply same_exit_trans; [|unfold Short.take_profit; same_exit_cases].
  eapply same_exit_trans; [|unfold Short.trailing; same_exit_cases].
  eapply same_exit_trans; [|unfold Short.breakeven; same_exit_cases].
  repeat split. auto.
Qed.

Lemma long_stop_loss_cases c s :
  match stop_price s with
  | Some sp =>
      if Py.leb c sp && reason_empty (close_reason s)
      then closed_with (StopLossLong sp) s (Long.stop_loss c s)
      else Long.stop_loss c s = s
  | None => Long.stop_loss c s = s
  end.
Proof.
  unfold Long.stop_loss. destruct (stop_price s) as [sp|] eqn:Hs; [|reflexivity].
  destruct (Py.leb c sp); simpl; [|reflexivity].
  destruct (close_reason s) eqn:Hr; simpl; try reflexivity.
  unfold closed_with, closes, close_intents, submit. simpl.
  rewrite filter_snoc, Hr. simpl. rewrite length_app. simpl.
  repeat split; auto. lia.
Qed.

Lemma short_stop_loss_cases c s :
  match stop_price s with
  | Some sp =>
      if Py.leb sp c && reason_empty (close_reason s)
      then closed_with (StopLossShort sp) s (Short.stop_loss c s)
      else Short.stop_loss c s = s
  | None => Short.stop_loss c s = s
  end.
Proof.
  unfold Short.stop_loss. destruct (stop_price s) as [sp|] eqn:Hs; [|reflexivity].
  destruct (Py.leb sp c); simpl; [|reflexivity].
  destruct (close_reason s) eqn:Hr; simpl; try reflexivity.
  unfold closed_with, closes, close_intents, submit. simpl.
  rewrite filter_snoc, Hr. simpl. rewrite length_app. simpl.
  repeat split; auto. lia.
Qed.

Lemma trend_break_cases pos i s :
  if (0 <? pos) && trendbreak_long i && reason_empty (close_reason s)
  then closed_with TrendbreakLong s (trend_break pos i s)
  else if (pos <? 0) && trendbreak_short i && reason_empty (close_reason s)
  then closed_with TrendbreakShort s (trend_break pos i s)
  else trend_break pos i s = s.
Proof.
  unfold trend_break.
  destruct ((0 <? pos) && trendbreak_long i && reason_empty (close_reason s)) eqn:L.
  - apply andb_prop in L. destruct L as [_ L].
    destruct (close_reason s) eqn:Hr; try discriminate.
    unfold closed_with, closes, close_intents, submit. simpl.
    rewrite filter_snoc, Hr. simpl. rewrite length_app. simpl.
    repeat split; auto. lia.
  - destruct ((pos <? 0) && trendbreak_short i && reason_empty (close_reason s)) eqn:S;
      [|reflexivity].
    apply andb_prop in S. destruct S as [_ S].
    destruct (close_reason s) eqn:Hr; try discriminate.
    unfold closed_with, closes, close_intents, submit. simpl.
    rewrite filter_snoc, Hr. simpl. rewrite length_app. simpl.
    repeat split; auto. lia.
Qed.

Lemma trend_break_after_close pos i s :
  reason_empty (close_reason s) = false -> trend_break pos i s = s.
Proof.
  intro H. pose proof (trend_break_cases pos i s) as T.
  rewrite H, !andb_false_r in T. exact T.
Qed.

Lemma trend_break_stop_price pos i s :
  stop_price (trend_break pos i s) = stop_price s.
Proof.
  pose proof (trend_break_cases pos i s) as T.
  destruct (_ && _ && _); [apply T|].
  destruct (_ && _ && _); [apply T | now rewrite T].
Qed.

Lemma long_exit cfg pos i c h ep er s :
  0 < pos -> stop_price s <> None -> close_reason s = NoReason ->
  exists sp,
    stop_price (trend_break pos i (Long.manage cfg pos c h ep er s)) = Some sp /\
    exit_outcome (Py.leb c sp) (trendbreak_long i) (StopLossLong sp)
      TrendbreakLong s (trend_break pos i (Long.manage cfg pos c h ep er s)).
Proof.
  intros Hpos Hs Hr. unfold Long.manage.
  pose proof (long_before_exit cfg pos c h ep er s) as (R0 & C0 & S0).
  set (m0 := Long.take_profit _ _ _) in *.
  specialize (S0 Hs). rewrite Hr in R0.
  assert (Hc0 : closes m0 = closes s) by (unfold closes; now rewrite C0).
  pose proof (long_stop_loss_cases c m0) as SL.
  destruct (stop_price m0) as [sp|] eqn:Hsp; [|congruence].
  exists sp. rewrite trend_break_stop_price.
  unfold exit_outcome. rewrite R0 in SL. simpl in SL. rewrite andb_true_r in SL.
  destruct (Py.leb c sp).
  - destruct SL as (_ & R1 & C1 & S1).
    rewrite trend_break_after_close by (now rewrite R1).
    repeat split; congruence.
  - rewrite SL. split; [exact Hsp|].
    pose proof (trend_break_cases pos i m0) as T.
    apply Z.ltb_lt in Hpos. rewrite Hpos, R0 in T. simpl in T.
    rewrite andb_true_r in T.
    destruct (trendbreak_long i).
    + destruct T as (_ & R1 & C1 & _). split; congruence.
    + assert (Hn : (pos <? 0) = false) by (apply Z.ltb_lt in Hpos; lia).
      rewrite Hn in T. simpl in T. rewrite T. split; assumption.
Qed.

Lemma short_exit cfg pos i c l ep er s :
  pos < 0 -> stop_price s <> None -> close_reason s = NoReason ->
  exists sp,
    stop_price (trend_break pos i (Short.manage cfg pos c l ep er s)) = Some sp /\
    exit_outcome (Py.leb sp c) (trendbreak_short i) (StopLossShort sp)
      TrendbreakShort s (trend_break pos i (Short.manage cfg pos c l ep er s)).
Proof.
  intros Hpos Hs Hr. unfold Short.manage.
  pose proof (short_before_exit cfg pos c l ep er s) as (R0 & C0 & S0).
  set (m0 := Short.take_profit _ _ _) in *.
  specialize (S0 Hs). rewrite Hr in R0.
  assert (Hc0 : closes m0 = closes s) by (unfold closes; now rewrite C0).
  pose proof (short_stop_loss_cases c m0) as SL.
  destruct (stop_price m0) as [sp|] eqn:Hsp; [|congruence].
  exists sp. rewrite trend_break_stop_price.
  unfold exit_outcome. rewrite R0 in SL. simpl in SL. rewrite andb_true_r in SL.
  destruct (Py.leb sp c).
  - destruct SL as (_ & R1 & C1 & S1).
    rewrite trend_break_after_close by (now rewrite R1).
    repeat split; congruence.
  - rewrite SL. split; [exact Hsp|].
    pose proof (trend_break_cases pos i m0) as T.
    assert (Hn : (0 <? pos) = false) by (apply Z.ltb_ge; lia).
    apply Z.ltb_lt in Hpos. rewrite Hpos, Hn, R0 in T. simpl in T.
    rewrite andb_true_r in T.
    destruct (trendbreak_short i).
    + destruct T as (_ & R1 & C1 & _). split; congruence.
    + rewrite T. split; assumption.
Qed.

Lemma short_manage_stop_price cfg pos c l ep er s :
  stop_price s <> None -> stop_price (Short.manage cfg pos c l ep er s) <> None.
Proof.
  intro Hs. unfold Short.manage.
  pose proof (short_before_exit cfg pos c l ep er s) as (_ & _ & S0).
  specialize (S0 Hs). set (m0 := Short.take_profit _ _ _) in *.
  pose proof (short_stop_loss_cases c m0) as SL.
  destruct (stop_price m0) as [sp|] eqn:E0; [|congruence].
  destruct (Py.leb sp c && reason_empty (close_reason m0)).
  - destruct SL as (_ & _ & _ & E1). congruence.
  - rewrite SL. congruence.
Qed.

Lemma update_position_management_closes cfg pos c h l k s :
  let m := _update_position_management cfg pos c h l k s in
  m = s \/
  (close_reason s = NoReason /\ reason_empty (close_reason m) = false /\
   closes m = S (closes s)) \/
  (close_reason m = close_reason s /\ closes m = closes s).
Proof.
  unfold _update_position_management.
  destruct (entry_price s) as [ep|]; [|now left].
  destruct (stop_price s) as [sp0|] eqn:Hs; [|now left].
  destruct (entry_risk s) as [er|]; [|now left].
  assert (Hs' : stop_price s <> None) by congruence.
  destruct (0 <? pos).
  - unfold Long.manage.
    pose proof (long_before_exit cfg pos c h ep er s) as (R0 & C0 & S0).
    set (m0 := Long.take_profit _ _ _) in *.
    assert (Hc0 : closes m0 = closes s) by (unfold closes; now rewrite C0).
    pose proof (long_stop_loss_cases c m0) as SL.
    destruct (stop_price m0) as [sp|]; [|right; right; rewrite SL; auto].
    destruct (_ && _); [|right; right; rewrite SL; auto].
    destruct SL as (Re & R1 & C1 & _). right. left.
    repeat split; [congruence | now rewrite R1 | congruence].
  - unfold Short.manage.
    pose proof (short_before_exit cfg pos c l ep er s) as (R0 & C0 & S0).
    set (m0 := Short.take_profit _ _ _) in *.
    assert (Hc0 : closes m0 = closes s) by (unfold closes; now rewrite C0).
    pose proof (short_stop_loss_cases c m0) as SL.
    destruct (stop_price m0) as [sp|]; [|right; right; rewrite SL; auto].
    destruct (_ && _); [|right; right; rewrite SL; auto].
    destruct SL as (Re & R1 & C1 & _). right. left.
    repeat split; [congruence | now rewrite R1 | congruence].
Qed.

(** C4, as the code has it.  On a bar where position management runs, the
    stop-loss condition is looked at first (inside position management,
    against the stop as breakeven and trailing have just left it) and the
    trend-break condition second.  With no close reason set and the
    position fields set: if the close has crossed the stop, the reason is
    the stop-loss one and the trend-break is suppressed; otherwise, if the
    two-bar trend-break condition holds, the reason is the trend-break one;
    otherwise nothing is closed.  With a close reason already set, neither
    check sends anything.  In every case at most one full close is sent on
    the bar. *)
Theorem stop_loss_before_trend_break cfg e i s :
  let s' := open_branch cfg e i s in
  (closes s' <= S (closes s))%nat /\
  (reason_empty (close_reason s) = false ->
   close_reason s' = close_reason s /\ closes s' = closes s) /\
  (entry_price s <> None -> stop_price s <> None -> entry_risk s <> None ->
   close_reason s = NoReason ->
   exists sp,
     stop_price s' = Some sp /\
     (0 < position e ->
      exit_outcome (Py.leb (close i) sp) (trendbreak_long i)
        (StopLossLong sp) TrendbreakLong s s') /\
     (position e < 0 ->
      exit_outcome (Py.leb sp (close i)) (trendbreak_short i)
        (StopLossShort sp) TrendbreakShort s s')).
Proof.
  unfold open_branch. cbv zeta.
  set (pos := position e).
  set (m := _update_position_management cfg pos (close i) (high i) (low i)
              (kijun i) s).
  pose proof (update_position_management_closes cfg pos (close i) (high i)
                (low i) (kijun i) s) as M. fold m in M. cbv zeta in M.
  pose proof (trend_break_cases pos i m) as T.
  split; [|split].
  - assert (B : trend_break pos i m = m \/
                (close_reason m = NoReason /\
                 closes (trend_break pos i m) = S (closes m))).
    { destruct (_ && _ && _); [right; split; apply T|].
      destruct (_ && _ && _); [right; split; apply T | now left]. }
    destruct M as [-> | [(_ & Hm & Cm) | (_ & Cm)]].
    + destruct B as [-> | [_ ->]]; lia.
    + destruct B as [-> | [Hr _]]; [lia | rewrite Hr in Hm; discriminate].
    + destruct B as [-> | [_ ->]]; lia.
  - intro Hr.
    assert (Hm : close_reason m = close_reason s /\ closes m = closes s).
    { destruct M as [-> | [(Hn & _) | Hm]]; auto.
      rewrite Hn in Hr. discriminate. }
    destruct Hm as [Rm Cm].
    rewrite trend_break_after_close by (now rewrite Rm). auto.
  - intros He Hs Hk Hr. subst m. unfold _update_position_management in *.
    destruct (entry_price s) as [ep|]; [|congruence].
    destruct (stop_price s) as [sp0|] eqn:Hsp0; [|congruence].
    destruct (entry_risk s) as [er|]; [|congruence].
    assert (Hs' : stop_price s <> None) by congruence.
    destruct (0 <? pos) eqn:Hpos.
    + apply Z.ltb_lt in Hpos.
      destruct (long_exit cfg pos i (close i) (high i) ep er s Hpos Hs' Hr)
        as (sp & Hsp & Ho).
      exists sp. split; [exact Hsp | split; [auto | lia]].
    + apply Z.ltb_ge in Hpos.
      destruct (Z.eq_dec pos 0) as [Hz | Hz].
      * pose proof (short_manage_stop_price cfg pos (close i) (low i) ep er s
                      Hs') as Hn.
        rewrite <- (trend_break_stop_price pos i) in Hn.
        destruct (stop_price (trend_break pos i
                    (Short.manage cfg pos (close i) (low i) ep er s)))
          as [sp|]; [|congruence].
        exists sp. split; [reflexivity | split; lia].
      * assert (Hneg : pos < 0) by lia.
        destruct (short_exit cfg pos i (close i) (low i) ep er s Hneg Hs' Hr)
          as (sp & Hsp & Ho).
        exists sp. split; [exact Hsp | split; [lia | auto]].
Qed.

Lemma stop_loss_before_trend_break_witness :
  close_reason opened = NoReason /\
  0 < position break_bar /\
  exists sp,
    stop_price (open_branch default_config break_bar break_values opened)
    = Some sp /\
    exit_outcome (Py.leb (close break_values) sp) (trendbreak_long break_values)
      (StopLossLong sp) TrendbreakLong opened
      (open_branch default_config break_bar break_values opened).
Proof.
  split; [reflexivity | split; [reflexivity |]].
  destruct (stop_loss_before_trend_break default_config break_bar
              break_values opened) as (_ & _ & H).
  destruct H as (sp & Hsp & Hl & _); try discriminate; [reflexivity |].
  exists sp. split; [exact Hsp | apply Hl; reflexivity].
Defined.

(** ** Partial take-profit orders *)

Lemma same_partial_refl s : same_partial s s.
Proof. split; reflexivity. Qed.

Lemma same_partial_trans s1 s2 s3 :
  same_partial s1 s2 -> same_partial s2 s3 -> same_partial s1 s3.
Proof. intros [A B] [C D]. split; congruence. Qed.

Lemma at_most_one_partial_trans s1 s2 s3 :
  at_most_one_partial s1 s2 -> at_most_one_partial s2 s3 ->
  at_most_one_partial s1 s3.
Proof.
  unfold at_most_one_partial, same_partial, partials.
  intros [[A B] | (A & B & C)] [[D E] | (D & E & F)].
  - left. split; congruence.
  - right. repeat split; congruence.
  - right. repeat split; congruence.
  - congruence.
Qed.

Ltac same_partial_cases :=
  split_ifs; unfold same_partial, submit, partial_intents; simpl;
  rewrite ?filter_snoc; simpl; repeat split.

Lemma long_take_profit_partial pos h s :
  at_most_one_partial s (Long.take_profit pos h s).
Proof.
  unfold Long.take_profit.
  destruct (tp_price s) as [tp|]; [|left; apply same_partial_refl].
  destruct (Py.leb tp h); simpl; [|left; apply same_partial_refl].
  destruct (exit_order s) eqn:E; simpl; [left; apply same_partial_refl|].
  destruct (0 <? tp_size pos); [|left; apply same_partial_refl].
  right. unfold partials, partial_intents, submit. simpl.
  rewrite filter_snoc. simpl. rewrite length_app. simpl.
  split; [exact E | split; [discriminate | lia]].
Qed.

Lemma short_take_profit_partial pos l s :
  at_most_one_partial s (Short.take_profit pos l s).
Proof.
  unfold Short.take_profit.
  destruct (tp_price s) as [tp|]; [|left; apply same_partial_refl].
  destruct (Py.leb l tp); simpl; [|left; apply same_partial_refl].
  destruct (exit_order s) eqn:E; simpl; [left; apply same_partial_refl|].
  destruct (0 <? tp_size pos); [|left; apply same_partial_refl].
  right. unfold partials, partial_intents, submit. simpl.
  rewrite filter_snoc. simpl. rewrite length_app. simpl.
  split; [exact E | split; [discriminate | lia]].
Qed.

Lemma open_branch_partial cfg e i s :
  at_most_one_partial s (open_branch cfg e i s).
Proof.
  unfold open_branch.
  eapply at_most_one_partial_trans;
    [|left; unfold trend_break; same_partial_cases].
  unfold _update_position_management.
  destruct (entry_price s); [|left; apply same_partial_refl].
  destruct (stop_price s); [|left; apply same_partial_refl].
  destruct (entry_risk s); [|left; apply same_partial_refl].
  destruct (0 <? position e).
  - unfold Long.manage.
    eapply at_most_one_partial_trans;
      [|left; unfold Long.stop_loss; same_partial_cases].
    eapply at_most_one_partial_trans; [|apply long_take_profit_partial].
    left.
    eapply same_partial_trans; [|unfold Long.trailing; same_partial_cases].
    eapply same_partial_trans; [|unfold Long.breakeven; same_partial_cases].
    split; reflexivity.
  - unfold Short.manage.
    eapply at_most_one_partial_trans;
      [|left; unfold Short.stop_loss; same_partial_cases].
    eapply at_most_one_partial_trans; [|apply short_take_profit_partial].
    left.
    eapply same_partial_trans; [|unfold Short.trailing; same_partial_cases].
    eapply same_partial_trans; [|unfold Short.breakeven; same_partial_cases].
    split; reflexivity.
Qed.

Lemma external_override_partial cfg e i trades s s' :
  external_override cfg e i trades s = Entered s' -> same_partial s s'.
Proof.
  induction trades as [|t rest IH]; simpl; [discriminate|].
  destruct (pending s t); [|exact IH].
  destruct (x_price t) as [px|]; [|discriminate].
  destruct (_determine_size _ _ _ _ _); [|discriminate].
  destruct (String.eqb (direction_of t) "long" && near i px).
  - intros [= <-]. unfold same_partial, partial_intents. simpl.
    rewrite filter_snoc. simpl. split; reflexivity.
  - destruct (String.eqb (direction_of t) "short" && near i px);
      [|exact IH].
    intros [= <-]. unfold same_partial, partial_intents. simpl.
    rewrite filter_snoc. simpl. split; reflexivity.
Qed.

Lemma next_partial cfg ext e s s' :
  position e <> 0 -> next cfg ext e s = Some s' -> at_most_one_partial s s'.
Proof.
  intro Hpos. unfold next.
  assert (R : same_partial s (roll_day (date e) s))
    by (split; [now rewrite roll_day_sent | apply roll_day_exit_order]).
  set (s0 := roll_day (date e) s) in *.
  destruct (nbars e <? min_bars cfg); [intros [= <-]; now left|].
  destruct (values e) as [i|]; [|intros [= <-]; now left].
  destruct (adx_blocks cfg i); [intros [= <-]; now left|].
  destruct (max_trades_per_day cfg <=? trades_today s0);
    [intros [= <-]; now left|].
  destruct (external_override cfg e i ext s0) eqn:E; [discriminate | |].
  - intros [= <-]. left.
    eapply same_partial_trans; [exact R | eapply external_override_partial, E].
  - apply Z.eqb_neq in Hpos. rewrite Hpos. intros [= <-].
    eapply at_most_one_partial_trans; [left; exact R | apply open_branch_partial].
Qed.

Lemma step_partial cfg ext ev s s' :
  undisturbed_event ev s -> step cfg ext ev s = Some s' ->
  at_most_one_partial s s'.
Proof.
  destruct ev as [e | o st | c]; simpl.
  - apply next_partial.
  - intros H [= <-]. left. split; [|exact H].
    unfold notify_order.
    destruct st; try reflexivity; destruct (is_exit_order o s); reflexivity.
  - intros _ [= <-]. left. unfold notify_trade.
    destruct c; split; reflexivity.
Qed.

Lemma run_partial cfg ext evs : forall s s',
  undisturbed cfg ext evs s -> run cfg ext evs s = Some s' ->
  at_most_one_partial s s'.
Proof.
  induction evs as [|ev rest IH]; simpl; intros s s'.
  - intros _ [= <-]. left. apply same_partial_refl.
  - intros [Hev Hrest]. destruct (step cfg ext ev s) as [s1|] eqn:E;
      [|discriminate].
    intro Hrun. eapply at_most_one_partial_trans.
    + eapply step_partial; eassumption.
    + apply IH; assumption.
Qed.

(** X20.  One partial exit in flight at a time.  Over any run of bars with
    the position open and notifications that do not clear the in-flight
    marker [exit_order], at most one partial take-profit order is sent,
    and none at all when an exit order is already in flight; sending one
    sets the marker. *)
Theorem one_partial_exit_in_flight cfg ext evs s s' :
  undisturbed cfg ext evs s ->
  run cfg ext evs s = Some s' ->
  (partials s' <= S (partials s))%nat /\
  (exit_order s <> None ->
   partial_intents (sent s') = partial_intents (sent s) /\
   exit_order s' = exit_order s) /\
  (partials s' = S (partials s) ->
   exit_order s = None /\ exit_order s' <> None).
Proof.
  intros U R.
  destruct (run_partial cfg ext evs s s' U R) as [[A B] | (A & B & C)].
  - assert (P : partials s' = partials s) by (unfold partials; now rewrite A).
    repeat split; auto; lia.
  - repeat split; try tauto; lia.
Qed.

Lemma one_partial_exit_in_flight_witness :
  exists s',
    run default_config [] [OnBar tp_bar; OnOrder {| ref := 0; req := Market Buy 50 |} Completed; OnBar tp_again_bar] opened = Some s' /\
    (partials s' <= S (partials opened))%nat.
Proof.
  eexists. split; [by_eval |].
  eapply (one_partial_exit_in_flight default_config []
            [OnBar tp_bar; OnOrder {| ref := 0; req := Market Buy 50 |} Completed;
             OnBar tp_again_bar] opened).
  - vm_compute. repeat split; discriminate.
  - by_eval.
Defined.

(** ** The stop ratchet on well-placed positions *)

Lemma same_levels_refl s : same_levels s s.
Proof. repeat split. Qed.

Lemma same_levels_trans s1 s2 s3 :
  same_levels s1 s2 -> same_levels s2 s3 -> same_levels s1 s3.
Proof.
  unfold same_levels. intros H1 H2.
  decompose [and] H1. decompose [and] H2. repeat split; congruence.
Qed.

Ltac same_levels_cases :=
  split_ifs; unfold same_levels, submit; simpl; repeat split.

Lemma roll_day_levels d s : same_levels s (roll_day d s).
Proof. unfold roll_day. same_levels_cases. Qed.

Lemma trend_break_levels pos i s : same_levels s (trend_break pos i s).
Proof. unfold trend_break. same_levels_cases. Qed.

Lemma notify_order_levels o st s : same_levels s (notify_order o st s).
Proof. unfold notify_order. destruct st; same_levels_cases. Qed.

Lemma notify_trade_levels c s : same_levels s (notify_trade c s).
Proof. unfold notify_trade. same_levels_cases. Qed.

Lemma long_guarded_levels cfg s s' :
  same_levels s s' -> long_guarded cfg s -> long_guarded cfg s' /\ stop_le s s'.
Proof.
  intros (E & S & A & R & H & L) (ep & sp & h & He & Hs & Hh & Hr & G).
  split.
  - exists ep, sp, h. rewrite E, S, H, R, A. auto.
  - unfold stop_le. rewrite S, Hs. apply Qle_refl.
Qed.

Lemma short_guarded_levels cfg s s' :
  same_levels s s' -> short_guarded cfg s ->
  short_guarded cfg s' /\ stop_le s' s.
Proof.
  intros (E & S & A & R & H & L) (ep & sp & l & He & Hs & Hl & Hr & G).
  split.
  - exists ep, sp, l. rewrite E, S, L, R, A. auto.
  - unfold stop_le. rewrite S, Hs. apply Qle_refl.
Qed.

Lemma stop_le_trans s1 s2 s3 : stop_le s1 s2 -> stop_le s2 s3 -> stop_le s1 s3.
Proof.
  unfold stop_le.
  destruct (stop_price s1), (stop_price s2), (stop_price s3); try tauto.
  apply Qle_trans.
Qed.

Lemma max_cases a b :
  (a < b)%Q /\ Py.max a b = b \/ (b <= a)%Q /\ Py.max a b = a.
Proof.
  unfold Py.max. destruct (Py.ltb a b) eqn:E.
  - left. split; [now apply ltb_lt | reflexivity].
  - right. split; [now apply ltb_ge | reflexivity].
Qed.

Lemma min_cases a b :
  (b < a)%Q /\ Py.min a b = b \/ (a <= b)%Q /\ Py.min a b = a.
Proof.
  unfold Py.min. destruct (Py.ltb b a) eqn:E.
  - left. split; [now apply ltb_lt | reflexivity].
  - right. split; [now apply ltb_ge | reflexivity].
Qed.

Lemma or_else_nonzero v d : ~ (v == 0)%Q -> Py.or_else (Some v) d = v.
Proof.
  intro H. unfold Py.or_else. destruct (Qeq_bool v 0) eqn:E; [|reflexivity].
  apply Qeq_bool_iff in E. tauto.
Qed.

Ltac finish_guard :=
  repeat split; auto; try lra;
  try solve [left; lra];
  try solve [right; eexists; split; [reflexivity | lra]];
  try solve [right; eexists; split; [eassumption | lra]].

Lemma long_ratchet cfg c hg ep er s :
  long_guarded cfg s -> entry_price s = Some ep ->
  let hi := Py.max (Py.or_else (highest_since_entry s) ep) hg in
  let m := Long.trailing cfg hi (Long.breakeven cfg c ep er (set_highest hi s)) in
  long_guarded cfg m /\ stop_le s m.
Proof.
  intros (ep0 & sp & h & He & Hs & Hh & Hr & Hpos & Hle & G) Hep.
  rewrite He in Hep. injection Hep as ->.
  rewrite Hh, or_else_nonzero by (intro Z0; rewrite Z0 in Hle; lra).
  cbv zeta. set (hi := Py.max h hg).
  assert (Hhi : (h <= hi)%Q).
  { subst hi. destruct (max_cases h hg) as [[L ->] | [L ->]]; lra. }
  unfold Long.breakeven, Long.trailing, stop_le, long_guarded.
  destruct (Py.leb (ep + tp_r_multiple cfg * er) c
            && negb (breakeven_active (set_highest hi s))); simpl;
    rewrite ?Hs; destruct (initial_atr s) as [a|] eqn:Ha; simpl.
  - destruct (Py.ltb ep (hi - a * trailing_atr_mult cfg)) eqn:T; simpl;
      rewrite ?He, ?Hs, ?Ha;
      [apply ltb_lt in T | apply ltb_ge in T]; split;
      try (destruct G as [G | (a' & Ea & G)]; [lra|];
           injection Ea as <-; lra).
    + exists ep, (hi - a * trailing_atr_mult cfg)%Q, hi. finish_guard.
    + exists ep, ep, hi. finish_guard.
  - rewrite ?He, ?Hs. split.
    + exists ep, ep, hi. finish_guard.
    + destruct G as [G | (a' & Ea & _)]; [lra | discriminate].
  - destruct (Py.ltb sp (hi - a * trailing_atr_mult cfg)) eqn:T; simpl;
      rewrite ?He, ?Hs, ?Ha;
      [apply ltb_lt in T | apply ltb_ge in T]; split; try lra.
    + exists ep, (hi - a * trailing_atr_mult cfg)%Q, hi. finish_guard.
    + exists ep, sp, hi.
      destruct G as [G | (a' & Ea & G)]; [|injection Ea as <-]; finish_guard.
  - rewrite ?He, ?Hs. split; [|lra].
    exists ep, sp, hi.
    destruct G as [G | (a' & Ea & _)]; [|discriminate]. finish_guard.
Qed.

Lemma short_ratchet cfg c lw ep er s :
  short_guarded cfg s -> entry_price s = Some ep -> (0 < lw)%Q ->
  let lo := Py.min (Py.or_else (lowest_since_entry s) ep) lw in
  let m := Short.trailing cfg lo (Short.breakeven cfg c ep er (set_lowest lo s)) in
  short_guarded cfg m /\ stop_le m s.
Proof.
  intros (ep0 & sp & l & He & Hs & Hl & Hr & Hpos & Hle & G) Hep Hlw.
  rewrite He in Hep. injection Hep as ->.
  rewrite Hl, or_else_nonzero by (intro Z0; rewrite Z0 in Hpos; lra).
  cbv zeta. set (lo := Py.min l lw).
  assert (Hlo : (lo <= l)%Q /\ (0 < lo)%Q).
  { subst lo. destruct (min_cases l lw) as [[L ->] | [L ->]]; split; lra. }
  destruct Hlo as [Hlo Hlo0].
  unfold Short.breakeven, Short.trailing, stop_le, short_guarded.
  destruct (Py.leb c (ep - tp_r_multiple cfg * er)
            && negb (breakeven_active (set_lowest lo s))); simpl;
    rewrite ?Hs; destruct (initial_atr s) as [a|] eqn:Ha; simpl.
  - destruct (Py.ltb (lo + a * trailing_atr_mult cfg) ep) eqn:T; simpl;
      rewrite ?He, ?Hs, ?Ha;
      [apply ltb_lt in T | apply ltb_ge in T]; split;
      try (destruct G as [G | (a' & Ea & G)]; [lra|];
           injection Ea as <-; lra).
    + exists ep, (lo + a * trailing_atr_mult cfg)%Q, lo. finish_guard.
    + exists ep, ep, lo. finish_guard.
  - rewrite ?He, ?Hs. split.
    + exists ep, ep, lo. finish_guard.
    + destruct G as [G | (a' & Ea & _)]; [lra | discriminate].
  - destruct (Py.ltb (lo + a * trailing_atr_mult cfg) sp) eqn:T; simpl;
      rewrite ?He, ?Hs, ?Ha;
      [apply ltb_lt in T | apply ltb_ge in T]; split; try lra.
    + exists ep, (lo + a * trailing_atr_mult cfg)%Q, lo. finish_guard.
    + exists ep, sp, lo.
      destruct G as [G | (a' & Ea & G)]; [|injection Ea as <-]; finish_guard.
  - rewrite ?He, ?Hs. split; [|lra].
    exists ep, sp, lo.
    destruct G as [G | (a' & Ea & _)]; [|discriminate]. finish_guard.
Qed.

Lemma long_tail_levels pos c h s :
  same_levels s (Long.stop_loss c (Long.take_profit pos h s)).
Proof.
  apply same_levels_trans with (Long.take_profit pos h s);
    [unfold Long.take_profit | unfold Long.stop_loss]; same_levels_cases.
Qed.

Lemma short_tail_levels pos c l s :
  same_levels s (Short.stop_loss c (Short.take_profit pos l s)).
Proof.
  apply same_levels_trans with (Short.take_profit pos l s);
    [unfold Short.take_profit | unfold Short.stop_loss]; same_levels_cases.
Qed.

Lemma long_open_branch_guarded cfg e i s :
  0 < position e -> long_guarded cfg s ->
  long_guarded cfg (open_branch cfg e i s) /\ stop_le s (open_branch cfg e i s).
Proof.
  intros Hpos G. unfold open_branch, _update_position_management.
  pose proof G as (ep & sp & h & He & Hs & Hh & Hr & _).
  rewrite He, Hs. destruct (entry_risk s) as [er|]; [|congruence].
  apply Z.ltb_lt in Hpos. rewrite Hpos. unfold Long.manage.
  destruct (long_ratchet cfg (close i) (high i) ep er s G He) as [G1 L1].
  cbv zeta in G1, L1.
  set (m := Long.trailing _ _ _) in *.
  destruct (long_guarded_levels cfg m _
              (same_levels_trans _ _ _
                 (long_tail_levels (position e) (close i) (high i) m)
                 (trend_break_levels (position e) i _)) G1) as [G2 L2].
  split; [exact G2 | eapply stop_le_trans; eassumption].
Qed.

Lemma short_open_branch_guarded cfg e i s :
  position e < 0 -> (0 < low i)%Q -> short_guarded cfg s ->
  short_guarded cfg (open_branch cfg e i s) /\
  stop_le (open_branch cfg e i s) s.
Proof.
  intros Hpos Hlow G. unfold open_branch, _update_position_management.
  pose proof G as (ep & sp & l & He & Hs & Hl & Hr & _).
  rewrite He, Hs. destruct (entry_risk s) as [er|]; [|congruence].
  assert (Hn : (0 <? position e) = false) by (apply Z.ltb_ge; lia).
  rewrite Hn. unfold Short.manage.
  destruct (short_ratchet cfg (close i) (low i) ep er s G He Hlow) as [G1 L1].
  cbv zeta in G1, L1.
  set (m := Short.trailing _ _ _) in *.
  destruct (short_guarded_levels cfg m _
              (same_levels_trans _ _ _
                 (short_tail_levels (position e) (close i) (low i) m)
                 (trend_break_levels (position e) i _)) G1) as [G2 L2].
  split; [exact G2 | eapply stop_le_trans; eassumption].
Qed.

Lemma long_next_guarded cfg e s :
  0 < position e -> long_guarded cfg s ->
  exists s', next cfg [] e s = Some s' /\ long_guarded cfg s' /\ stop_le s s'.
Proof.
  intros Hpos G. unfold next.
  destruct (long_guarded_levels cfg s _ (roll_day_levels (date e) s) G)
    as [G0 L0].
  set (s0 := roll_day (date e) s) in *.
  destruct (nbars e <? min_bars cfg); [eauto|].
  destruct (values e) as [i|]; [|eauto].
  destruct (adx_blocks cfg i); [eauto|].
  destruct (max_trades_per_day cfg <=? trades_today s0); [eauto|].
  simpl. assert (Hz : (position e =? 0) = false) by (apply Z.eqb_neq; lia).
  rewrite Hz. eexists. split; [reflexivity|].
  destruct (long_open_branch_guarded cfg e i s0 Hpos G0) as [G1 L1].
  split; [exact G1 | eapply stop_le_trans; eassumption].
Qed.

Lemma short_next_guarded cfg e s :
  position e < 0 -> (forall i, values e = Some i -> (0 < low i)%Q) ->
  short_guarded cfg s ->
  exists s', next cfg [] e s = Some s' /\ short_guarded cfg s' /\ stop_le s' s.
Proof.
  intros Hpos Hlow G. unfold next.
  destruct (short_guarded_levels cfg s _ (roll_day_levels (date e) s) G)
    as [G0 L0].
  set (s0 := roll_day (date e) s) in *.
  destruct (nbars e <? min_bars cfg); [eauto|].
  destruct (values e) as [i|]; [|eauto].
  destruct (adx_blocks cfg i); [eauto|].
  destruct (max_trades_per_day cfg <=? trades_today s0); [eauto|].
  simpl. assert (Hz : (position e =? 0) = false) by (apply Z.eqb_neq; lia).
  rewrite Hz. eexists. split; [reflexivity|].
  destruct (short_open_branch_guarded cfg e i s0 Hpos (Hlow i eq_refl) G0)
    as [G1 L1].
  split; [exact G1 | eapply stop_le_trans; eassumption].
Qed.

(** The signal entries place the stop where the ratchet holds it. *)
Lemma signal_entries_guarded cfg i size s :
  (0 < close i)%Q ->
  (long_signal i = true ->
   long_guarded cfg
     (_enter_long cfg (close i) size (swing_low i) (atr i) s)) /\
  (short_signal i = true ->
   short_guarded cfg
     (_enter_short cfg (close i) size (swing_high i) (atr i) s)).
Proof.
  intro Hc. split; intro H.
  - unfold long_signal in H. apply andb_prop in H. destruct H as [_ H].
    apply ltb_lt in H.
    exists (close i), (swing_low i), (close i). simpl.
    finish_guard. discriminate.
  - unfold short_signal in H. apply andb_prop in H. destruct H as [_ H].
    apply ltb_lt in H.
    exists (close i), (swing_high i), (close i). simpl.
    finish_guard. discriminate.
Qed.

(** X13.  The ratchet, where the code has it.  For a long position whose stop
    is at or under a positive entry price when it is opened (every long signal
    entry at a positive close), and with no external trades, every run of bars
    and notifications while the position is long leaves the stop at or above
    where it was; for a short position (stop at or above the entry, lows
    positive) at or below.  The handler returns on every such bar. *)
Theorem stop_ratchet_on_guarded_positions cfg evs :
  (forall s, long_guarded cfg s -> Forall long_event evs ->
     exists s', run cfg [] evs s = Some s' /\
                long_guarded cfg s' /\ stop_le s s') /\
  (forall s, short_guarded cfg s -> Forall short_event evs ->
     exists s', run cfg [] evs s = Some s' /\
                short_guarded cfg s' /\ stop_le s' s).
Proof.
  induction evs as [|ev rest [IHl IHs]]; split; intros s G F.
  - exists s. repeat split; auto.
    destruct G as (? & sp & ? & _ & Hs & _). unfold stop_le. rewrite Hs.
    apply Qle_refl.
  - exists s. repeat split; auto.
    destruct G as (? & sp & ? & _ & Hs & _). unfold stop_le. rewrite Hs.
    apply Qle_refl.
  - inversion F as [|? ? Hev Hrest]; subst.
    assert (S1 : exists s1, step cfg [] ev s = Some s1 /\
                            long_guarded cfg s1 /\ stop_le s s1).
    { destruct ev as [e | o st | c]; simpl in *.
      - now apply long_next_guarded.
      - eexists. split; [reflexivity|].
        apply long_guarded_levels; [apply notify_order_levels | exact G].
      - eexists. split; [reflexivity|].
        apply long_guarded_levels; [apply notify_trade_levels | exact G]. }
    destruct S1 as (s1 & E1 & G1 & L1).
    destruct (IHl s1 G1 Hrest) as (s' & R & G' & L').
    exists s'. simpl. rewrite E1.
    repeat split; auto. eapply stop_le_trans; eassumption.
  - inversion F as [|? ? Hev Hrest]; subst.
    assert (S1 : exists s1, step cfg [] ev s = Some s1 /\
                            short_guarded cfg s1 /\ stop_le s1 s).
    { destruct ev as [e | o st | c]; simpl in *.
      - destruct Hev. now apply short_next_guarded.
      - eexists. split; [reflexivity|].
        apply short_guarded_levels; [apply notify_order_levels | exact G].
      - eexists. split; [reflexivity|].
        apply short_guarded_levels; [apply notify_trade_levels | exact G]. }
    destruct S1 as (s1 & E1 & G1 & L1).
    destruct (IHs s1 G1 Hrest) as (s' & R & G' & L').
    exists s'. simpl. rewrite E1.
    repeat split; auto. eapply stop_le_trans; eassumption.
Qed.

Lemma stop_ratchet_on_guarded_positions_witness :
  exists s',
    run default_config []
      [OnBar tp_bar; OnOrder {| ref := 1; req := Limit Sell 15 420 |} Completed;
       OnBar tp_again_bar] opened = Some s' /\
    stop_le opened s'.
Proof.
  destruct (proj1 (stop_ratchet_on_guarded_positions default_config
                     [OnBar tp_bar;
                      OnOrder {| ref := 1; req := Limit Sell 15 420 |} Completed;
                      OnBar tp_again_bar]) opened)
    as (s' & R & _ & L).
  - exists 400%Q, 390%Q, 400%Q.
    repeat split; try reflexivity; try discriminate.
    left. discriminate.
  - repeat constructor.
  - exists s'. split; assumption.
Defined.

(** * Further properties of the strategy *)

(** ** The daily cap *)

Lemma roll_day_trades d s :
  trades_today (roll_day d s) = trades_today s \/
  trades_today (roll_day d s) = 0.
Proof.
  unfold roll_day. destruct (today s) as [t|]; [destruct (d =? t)|]; auto.
Qed.

Lemma next_within_cap cfg ext e s s' :
  0 <= max_trades_per_day cfg ->
  trades_today s <= max_trades_per_day cfg ->
  next cfg ext e s = Some s' ->
  trades_today s' <= max_trades_per_day cfg.
Proof.
  intros H0 Hs. unfold next.
  assert (R : trades_today (roll_day (date e) s) <= max_trades_per_day cfg)
    by (destruct (roll_day_trades (date e) s) as [-> | ->]; assumption).
  set (s0 := roll_day (date e) s) in *.
  destruct (nbars e <? min_bars cfg); [intros [= <-]; exact R|].
  destruct (values e) as [i|]; [|intros [= <-]; exact R].
  destruct (adx_blocks cfg i); [intros [= <-]; exact R|].
  destruct (max_trades_per_day cfg <=? trades_today s0) eqn:C;
    [intros [= <-]; exact R|].
  apply Z.leb_gt in C.
  destruct (external_override cfg e i ext s0) eqn:E; [discriminate | |].
  - intros [= <-].
    destruct (external_override_one_entry cfg e i ext s0 s1 E)
      as (o & _ & _ & Ht). lia.
  - destruct (position e =? 0).
    + intro F. destruct (flat_branch_entry cfg e i s0 s' F)
        as [[_ Ht] | (o & _ & _ & Ht)]; lia.
    + intros [= <-].
      destruct (open_branch_same_trade cfg e i s0) as (_ & Ht & _). lia.
Qed.

(** X3.  The daily cap holds whatever happens: with a non-negative
    [max_trades_per_day], a run of bars and notifications that starts with the
    counter within the cap ends with the counter within the cap, every entry,
    forced ones included, being counted. *)
Theorem trades_today_within_cap cfg ext evs : forall s s',
  0 <= max_trades_per_day cfg ->
  trades_today s <= max_trades_per_day cfg ->
  run cfg ext evs s = Some s' ->
  trades_today s' <= max_trades_per_day cfg.
Proof.
  induction evs as [|ev rest IH]; simpl; intros s s' H0 Hs.
  - intros [= <-]. exact Hs.
  - destruct (step cfg ext ev s) as [s1|] eqn:E; [|discriminate].
    apply IH; [exact H0|].
    destruct ev as [e | o st | c]; simpl in E.
    + eapply next_within_cap; eassumption.
    + injection E as <-. unfold notify_order.
      destruct st; try exact Hs; destruct (is_exit_order o s); exact Hs.
    + injection E as <-. unfold notify_trade. destruct c; exact Hs.
Qed.

Lemma trades_today_within_cap_witness :
  exists s',
    run default_config [agent_410] [OnBar entry_bar; OnBar rally_bar] init
    = Some s' /\
    trades_today s' <= max_trades_per_day default_config.
Proof.
  eexists. split; [by_eval|].
  eapply (trades_today_within_cap default_config [agent_410]
            [OnBar entry_bar; OnBar rally_bar] init).
  - discriminate.
  - discriminate.
  - by_eval.
Defined.

(** ** Skipped bars *)

(** X4.  A bar in the warm-up, with unreadable values or with a NaN trend
    strength only does the day bookkeeping: the date is recorded, the counter
    restarts when the date is new and is kept when it is not, and nothing else
    changes; no order is sent. *)
Theorem skipped_bar_only_rolls_the_day cfg ext e s :
  skipped cfg e ->
  exists s',
    next cfg ext e s = Some s' /\
    today s' = Some (date e) /\
    trades_today s' =
      (if match today s with Some t => date e =? t | None => false end
       then trades_today s else 0) /\
    sent s' = sent s /\ same_levels s s' /\
    tp_price s' = tp_price s /\
    breakeven_active s' = breakeven_active s /\
    close_reason s' = close_reason s /\ exit_order s' = exit_order s /\
    executed_external s' = executed_external s.
Proof.
  intro K. exists (roll_day (date e) s). split.
  - unfold next. destruct K as [K | [K | (i & K & A)]].
    + apply Z.ltb_lt in K. now rewrite K.
    + rewrite K. now destruct (nbars e <? min_bars cfg).
    + rewrite K. unfold adx_blocks. rewrite A.
      now destruct (nbars e <? min_bars cfg).
  - unfold roll_day. destruct (today s) as [t|] eqn:T; simpl.
    + destruct (date e =? t) eqn:D; simpl.
      * apply Z.eqb_eq in D. subst t. rewrite T.
        split; [reflexivity | split; [reflexivity |]].
        split; [reflexivity | split; [apply same_levels_refl |]].
        repeat split.
      * split; [reflexivity | split; [reflexivity |]].
        split; [reflexivity | split; [repeat split |]].
        repeat split.
    + split; [reflexivity | split; [reflexivity |]].
      split; [reflexivity | split; [repeat split |]].
      repeat split.
Qed.

Lemma skipped_bar_only_rolls_the_day_witness :
  exists s',
    next default_config [agent_400] warmup_bar opened = Some s' /\
    sent s' = sent opened.
Proof.
  destruct (skipped_bar_only_rolls_the_day default_config [agent_400]
              warmup_bar opened) as (s' & N & _ & _ & S & _).
  - left. reflexivity.
  - exists s'. split; assumption.
Defined.

(** ** The outbox *)

Lemma numbered_snoc l r :
  numbered l -> numbered (l ++ [{| ref := List.length l; req := r |}]).
Proof.
  intros H n o Hn.
  destruct (Nat.lt_ge_cases n (List.length l)) as [L | L].
  - rewrite nth_error_app1 in Hn by exact L. now apply H.
  - rewrite nth_error_app2 in Hn by exact L.
    destruct (n - List.length l)%nat as [|k] eqn:K; simpl in Hn.
    + injection Hn as <-. simpl. lia.
    + destruct k; discriminate.
Qed.

Lemma appended_same k s s' : sent s' = sent s -> appended k s s'.
Proof.
  intro H. exists []. rewrite H, app_nil_r. repeat split; auto. simpl. lia.
Qed.

Lemma appended_submit r s s' :
  sent s' = sent (snd (submit r s)) -> appended 1 s s'.
Proof.
  intro H. exists [{| ref := List.length (sent s); req := r |}].
  rewrite H. simpl. repeat split; auto. apply numbered_snoc.
Qed.

Lemma appended_trans j k s1 s2 s3 :
  appended j s1 s2 -> appended k s2 s3 -> appended (j + k) s1 s3.
Proof.
  intros (l1 & E1 & L1 & N1) (l2 & E2 & L2 & N2).
  exists (l1 ++ l2). split; [|split].
  - now rewrite E2, E1, app_assoc.
  - rewrite length_app. lia.
  - auto.
Qed.

Lemma appended_le j k s s' : (j <= k)%nat -> appended j s s' -> appended k s s'.
Proof.
  intros H (l & E & L & N). exists l. repeat split; auto. lia.
Qed.

Lemma long_take_profit_appended pos h s :
  appended 1 s (Long.take_profit pos h s).
Proof.
  unfold Long.take_profit. split_ifs;
    first [now apply appended_same | now apply (appended_submit (Limit Sell (tp_size pos) q))].
Qed.

Lemma short_take_profit_appended pos l s :
  appended 1 s (Short.take_profit pos l s).
Proof.
  unfold Short.take_profit. split_ifs;
    first [now apply appended_same | now apply (appended_submit (Limit Buy (tp_size pos) q))].
Qed.

Lemma long_exits_appended pos i c s :
  appended 1 s (trend_break pos i (Long.stop_loss c s)).
Proof.
  pose proof (long_stop_loss_cases c s) as SL.
  unfold Long.stop_loss in *. destruct (stop_price s) as [sp|].
  - destruct (Py.leb c sp && reason_empty (close_reason s)).
    + destruct SL as (_ & R & _).
      rewrite trend_break_after_close by (now rewrite R).
      now apply (appended_submit ClosePosition).
    + unfold trend_break. split_ifs;
        first [now apply appended_same
              | now apply (appended_submit ClosePosition)].
  - unfold trend_break. split_ifs;
      first [now apply appended_same
            | now apply (appended_submit ClosePosition)].
Qed.

Lemma short_exits_appended pos i c s :
  appended 1 s (trend_break pos i (Short.stop_loss c s)).
Proof.
  pose proof (short_stop_loss_cases c s) as SL.
  unfold Short.stop_loss in *. destruct (stop_price s) as [sp|].
  - destruct (Py.leb sp c && reason_empty (close_reason s)).
    + destruct SL as (_ & R & _).
      rewrite trend_break_after_close by (now rewrite R).
      now apply (appended_submit ClosePosition).
    + unfold trend_break. split_ifs;
        first [now apply appended_same
              | now apply (appended_submit ClosePosition)].
  - unfold trend_break. split_ifs;
      first [now apply appended_same
            | now apply (appended_submit ClosePosition)].
Qed.

Lemma open_branch_appended cfg e i s : appended 2 s (open_branch cfg e i s).
Proof.
  unfold open_branch, _update_position_management.
  assert (T : forall m, appended 2 m (trend_break (position e) i m)).
  { intro m. apply appended_le with 1%nat; [lia|].
    unfold trend_break. split_ifs;
      first [now apply appended_same
            | now apply (appended_submit ClosePosition)]. }
  destruct (entry_price s) as [ep|]; [|apply T].
  destruct (stop_price s) as [sp|]; [|apply T].
  destruct (entry_risk s) as [er|]; [|apply T].
  destruct (0 <? position e).
  - unfold Long.manage.
    apply (appended_trans 1 1) with
      (Long.take_profit (position e) (high i)
         (Long.trailing cfg (Py.max (Py.or_else (highest_since_entry s) ep) (high i))
            (Long.breakeven cfg (close i) ep er
               (set_highest (Py.max (Py.or_else (highest_since_entry s) ep) (high i)) s))));
      [|apply long_exits_appended].
    apply (appended_trans 0 1) with
      (Long.trailing cfg (Py.max (Py.or_else (highest_since_entry s) ep) (high i))
         (Long.breakeven cfg (close i) ep er
            (set_highest (Py.max (Py.or_else (highest_since_entry s) ep) (high i)) s)));
      [|apply long_take_profit_appended].
    apply appended_same. unfold Long.trailing, Long.breakeven.
    split_ifs; reflexivity.
  - unfold Short.manage.
    apply (appended_trans 1 1) with
      (Short.take_profit (position e) (low i)
         (Short.trailing cfg (Py.min (Py.or_else (lowest_since_entry s) ep) (low i))
            (Short.breakeven cfg (close i) ep er
               (set_lowest (Py.min (Py.or_else (lowest_since_entry s) ep) (low i)) s))));
      [|apply short_exits_appended].
    apply (appended_trans 0 1) with
      (Short.trailing cfg (Py.min (Py.or_else (lowest_since_entry s) ep) (low i))
         (Short.breakeven cfg (close i) ep er
            (set_lowest (Py.min (Py.or_else (lowest_since_entry s) ep) (low i)) s)));
      [|apply short_take_profit_appended].
    apply appended_same. unfold Short.trailing, Short.breakeven.
    split_ifs; reflexivity.
Qed.

Lemma external_override_appended cfg e i trades s s' :
  external_override cfg e i trades s = Entered s' -> appended 1 s s'.
Proof.
  induction trades as [|t rest IH]; simpl; [discriminate|].
  destruct (pending s t); [|exact IH].
  destruct (x_price t) as [px|]; [|discriminate].
  destruct (_determine_size _ _ _ _ _) as [dflt|]; [|discriminate].
  destruct (String.eqb (direction_of t) "long" && near i px).
  - intros [= <-].
    now apply (appended_submit
                 (Market Buy match x_size t with Some z => z | None => dflt end)).
  - destruct (String.eqb (direction_of t) "short" && near i px);
      [|exact IH].
    intros [= <-].
    now apply (appended_submit
                 (Market Sell match x_size t with Some z => z | None => dflt end)).
Qed.

Lemma flat_branch_appended cfg e i s s' :
  flat_branch cfg e i s = Some s' -> appended 1 s s'.
Proof.
  unfold flat_branch, try_short.
  split_ifs; try discriminate; intros [= <-];
    first [now apply appended_same
          | now apply (appended_submit (Market Buy z))
          | now apply (appended_submit (Market Sell z))
          | now apply (appended_submit (Market Sell z0))].
Qed.

Lemma next_appended cfg ext e s s' :
  next cfg ext e s = Some s' ->
  appended 2 s s' /\ (position e = 0 -> appended 1 s s').
Proof.
  unfold next.
  assert (R : forall k, appended k s (roll_day (date e) s))
    by (intro k; apply appended_same, roll_day_sent).
  assert (R1 : forall k x, appended k (roll_day (date e) s) x -> appended k s x).
  { intros k x H. apply (appended_trans 0 k s _ x (R 0%nat) H). }
  set (s0 := roll_day (date e) s) in *.
  destruct (nbars e <? min_bars cfg); [intros [= <-]; split; auto|].
  destruct (values e) as [i|]; [|intros [= <-]; split; auto].
  destruct (adx_blocks cfg i); [intros [= <-]; split; auto|].
  destruct (max_trades_per_day cfg <=? trades_today s0);
    [intros [= <-]; split; auto|].
  destruct (external_override cfg e i ext s0) eqn:E; [discriminate | |].
  - intros [= <-].
    pose proof (external_override_appended cfg e i ext s0 s1 E) as A.
    split; [apply R1, appended_le with 1%nat; [lia | exact A] | intros _; now apply R1].
  - destruct (position e =? 0) eqn:P.
    + intro F. pose proof (flat_branch_appended cfg e i s0 s' F) as A.
      split; [apply R1, appended_le with 1%nat; [lia | exact A] | intros _; now apply R1].
    + intros [= <-]. split; [apply R1, open_branch_appended|].
      intro Z0. apply Z.eqb_neq in P. contradiction.
Qed.

(** X5.  The outbox only grows, by at most two orders a bar (one when the
    position is flat), and each order sent carries the next free index: after
    any run from a numbered outbox, the earlier orders are still in place and
    every order is identified by its reference. *)
Theorem outbox_only_grows cfg ext :
  (forall e s s',
     next cfg ext e s = Some s' ->
     appended 2 s s' /\ (position e = 0 -> appended 1 s s')) /\
  (forall evs s s',
     run cfg ext evs s = Some s' -> appended (2 * bars evs) s s').
Proof.
  split; [apply next_appended|].
  induction evs as [|ev rest IH]; simpl; intros s s'.
  - intros [= <-]. now apply appended_same.
  - destruct (step cfg ext ev s) as [s1|] eqn:E; [|discriminate].
    intro Hrun. specialize (IH s1 s' Hrun).
    destruct ev as [e | o st | c]; simpl in E.
    + replace (S (bars rest) + (S (bars rest) + 0))%nat
        with (2 + 2 * bars rest)%nat by lia.
      eapply appended_trans; [|exact IH].
      now apply (next_appended cfg ext e s s1).
    + injection E as <-.
      apply (appended_trans 0 _ s (notify_order o st s) s'); [|exact IH].
      apply appended_same. unfold notify_order.
      destruct st; try reflexivity; destruct (is_exit_order o s); reflexivity.
    + injection E as <-.
      apply (appended_trans 0 _ s (notify_trade c s) s'); [|exact IH].
      apply appended_same. unfold notify_trade. destruct c; reflexivity.
Qed.

Lemma outbox_only_grows_witness :
  exists s',
    run default_config [] [OnBar entry_bar; OnBar dip_bar; OnBar break_bar] init
    = Some s' /\
    appended 6 init s'.
Proof.
  eexists. split; [by_eval|].
  apply (proj2 (outbox_only_grows default_config [])
           [OnBar entry_bar; OnBar dip_bar; OnBar break_bar] init).
  by_eval.
Defined.

(** ** The size and the shape of a partial exit *)

Lemma tp_size_div pos : tp_size pos = Z.abs pos * 3 / 10.
Proof. reflexivity. Qed.

Lemma tp_size_bounds pos :
  0 <= tp_size pos /\
  10 * tp_size pos <= 3 * Z.abs pos < 10 * (tp_size pos + 1) /\
  (0 < tp_size pos <-> 3 < Z.abs pos) /\
  (pos <> 0 -> tp_size pos < Z.abs pos).
Proof.
  rewrite tp_size_div.
  pose proof (Z.div_mod (Z.abs pos * 3) 10 ltac:(lia)) as D.
  pose proof (Z.mod_pos_bound (Z.abs pos * 3) 10 ltac:(lia)) as M.
  pose proof (Z.abs_nonneg pos) as A.
  repeat split; try lia.
Qed.

(** The steps ahead of the take-profit check send nothing and leave the
    take-profit price and the in-flight marker alone. *)
Lemma long_before_take_profit cfg c hi ep er s :
  let m := Long.trailing cfg hi (Long.breakeven cfg c ep er (set_highest hi s)) in
  sent m = sent s /\ tp_price m = tp_price s /\ exit_order m = exit_order s.
Proof.
  unfold Long.trailing, Long.breakeven. cbv zeta. split_ifs; repeat split.
Qed.

Lemma short_before_take_profit cfg c lo ep er s :
  let m := Short.trailing cfg lo (Short.breakeven cfg c ep er (set_lowest lo s)) in
  sent m = sent s /\ tp_price m = tp_price s /\ exit_order m = exit_order s.
Proof.
  unfold Short.trailing, Short.breakeven. cbv zeta. split_ifs; repeat split.
Qed.

Lemma long_exits_partial pos i c s :
  partial_intents (sent (trend_break pos i (Long.stop_loss c s)))
  = partial_intents (sent s).
Proof.
  unfold trend_break, Long.stop_loss. split_ifs; unfold partial_intents; simpl;
    rewrite ?filter_snoc; reflexivity.
Qed.

Lemma short_exits_partial pos i c s :
  partial_intents (sent (trend_break pos i (Short.stop_loss c s)))
  = partial_intents (sent s).
Proof.
  unfold trend_break, Short.stop_loss. split_ifs; unfold partial_intents; simpl;
    rewrite ?filter_snoc; reflexivity.
Qed.

(** X6.  A partial take-profit order is a real partial.  On a managed bar
    either no limit order is added, or exactly one is, first in the bar's
    orders: at the recorded take-profit price, which the high (long) or the
    low (short) has reached, on the closing side, for floor(0.3 * |size|)
    contracts, which is more than none and fewer than the position, and so
    only for a position of more than 3 contracts, and only when no exit order
    is in flight. *)
Theorem partial_exit_is_partial cfg e i s :
  position e <> 0 ->
  let s' := open_branch cfg e i s in
  let pos := position e in
  partial_intents (sent s') = partial_intents (sent s) \/
  exists tp,
    tp_price s = Some tp /\ exit_order s = None /\
    3 < Z.abs pos /\ 0 < tp_size pos < Z.abs pos /\
    (if 0 <? pos then (tp <= high i)%Q else (low i <= tp)%Q) /\
    partial_intents (sent s') =
    partial_intents (sent s) ++
    [{| ref := List.length (sent s);
        req := Limit (if 0 <? pos then Sell else Buy) (tp_size pos) tp |}].
Proof.
  intro Hpos. cbv zeta. unfold open_branch, _update_position_management.
  pose proof (tp_size_bounds (position e)) as (_ & _ & B3 & B4).
  specialize (B4 Hpos).
  assert (T : forall m,
            partial_intents (sent (trend_break (position e) i m))
            = partial_intents (sent m)).
  { intro m. unfold trend_break. split_ifs; unfold partial_intents; simpl;
      rewrite ?filter_snoc; reflexivity. }
  destruct (entry_price s) as [ep|]; [|left; apply T].
  destruct (stop_price s) as [sp|]; [|left; apply T].
  destruct (entry_risk s) as [er|]; [|left; apply T].
  destruct (0 <? position e) eqn:P.
  - unfold Long.manage. rewrite long_exits_partial.
    pose proof (long_before_take_profit cfg (close i)
                  (Py.max (Py.or_else (highest_since_entry s) ep) (high i))
                  ep er s) as (Hs & Ht & Hx).
    cbv zeta in Hs, Ht, Hx.
    set (m := Long.trailing _ _ _) in *.
    unfold Long.take_profit. rewrite Ht, Hx.
    destruct (tp_price s) as [tp|]; [|left; now rewrite Hs].
    destruct (Py.leb tp (high i)) eqn:Hh; simpl; [|left; now rewrite Hs].
    destruct (exit_order s); simpl; [left; now rewrite Hs|].
    destruct (0 <? tp_size (position e)) eqn:Z0; [|left; now rewrite Hs].
    right. exists tp. apply Z.ltb_lt in Z0. apply leb_le in Hh.
    repeat split; try lia; try assumption.
    unfold partial_intents. simpl. rewrite filter_snoc, Hs. reflexivity.
  - unfold Short.manage. rewrite short_exits_partial.
    pose proof (short_before_take_profit cfg (close i)
                  (Py.min (Py.or_else (lowest_since_entry s) ep) (low i))
                  ep er s) as (Hs & Ht & Hx).
    cbv zeta in Hs, Ht, Hx.
    set (m := Short.trailing _ _ _) in *.
    unfold Short.take_profit. rewrite Ht, Hx.
    destruct (tp_price s) as [tp|]; [|left; now rewrite Hs].
    destruct (Py.leb (low i) tp) eqn:Hh; simpl; [|left; now rewrite Hs].
    destruct (exit_order s); simpl; [left; now rewrite Hs|].
    destruct (0 <? tp_size (position e)) eqn:Z0; [|left; now rewrite Hs].
    right. exists tp. apply Z.ltb_lt in Z0. apply leb_le in Hh.
    repeat split; try lia; try assumption.
    unfold partial_intents. simpl. rewrite filter_snoc, Hs. reflexivity.
Qed.

Lemma partial_exit_is_partial_witness :
  partials (open_branch default_config tp_bar
              {| close := 841 # 2; prev_close := 400; high := 421; low := 400;
                 gauss := 400; gauss_prev := 395; kijun := 399; kijun_prev := 398;
                 vapi := 3; vapi_prev := 2; adx := Some 30%Q; smma := 381; atr := 5;
                 swing_low := 390; swing_high := 410 |} opened)
  = S (partials opened) /\
  0 < tp_size (position tp_bar) < Z.abs (position tp_bar).
Proof.
  split; [by_eval|].
  destruct (partial_exit_is_partial default_config tp_bar
              {| close := 841 # 2; prev_close := 400; high := 421; low := 400;
                 gauss := 400; gauss_prev := 395; kijun := 399; kijun_prev := 398;
                 vapi := 3; vapi_prev := 2; adx := Some 30%Q; smma := 381; atr := 5;
                 swing_low := 390; swing_high := 410 |} opened)
    as [H | (tp & _ & _ & _ & B & _)].
  - discriminate.
  - exfalso. revert H. vm_compute. discriminate.
  - exact B.
Defined.

(** ** Between entries *)

Lemma held_refl s : held s s.
Proof. repeat split; auto. Qed.

Lemma held_trans s1 s2 s3 : held s1 s2 -> held s2 s3 -> held s1 s3.
Proof.
  unfold held. intros H1 H2.
  decompose [and] H1. decompose [and] H2.
  repeat split; try congruence. auto.
Qed.

Ltac held_cases :=
  split_ifs; unfold held, submit; simpl; repeat split; auto.

Lemma roll_day_held d s : held s (roll_day d s).
Proof. unfold roll_day. held_cases. Qed.

Lemma trend_break_held pos i s : held s (trend_break pos i s).
Proof. unfold trend_break. held_cases. Qed.

Lemma long_manage_held cfg pos c h ep er s :
  held s (Long.manage cfg pos c h ep er s).
Proof.
  unfold Long.manage.
  eapply held_trans; [|unfold Long.stop_loss; held_cases].
  eapply held_trans; [|unfold Long.take_profit; held_cases].
  eapply held_trans; [|unfold Long.trailing; held_cases].
  eapply held_trans; [|unfold Long.breakeven; held_cases].
  repeat split; auto.
Qed.

Lemma short_manage_held cfg pos c l ep er s :
  held s (Short.manage cfg pos c l ep er s).
Proof.
  unfold Short.manage.
  eapply held_trans; [|unfold Short.stop_loss; held_cases].
  eapply held_trans; [|unfold Short.take_profit; held_cases].
  eapply held_trans; [|unfold Short.trailing; held_cases].
  eapply held_trans; [|unfold Short.breakeven; held_cases].
  repeat split; auto.
Qed.

Lemma open_branch_held cfg e i s : held s (open_branch cfg e i s).
Proof.
  unfold open_branch. eapply held_trans; [|apply trend_break_held].
  unfold _update_position_management.
  destruct (entry_price s), (stop_price s), (entry_risk s);
    try apply held_refl.
  destruct (0 <? position e);
    [apply long_manage_held | apply short_manage_held].
Qed.

Lemma try_short_held cfg e i s s' :
  try_short cfg e i s = Some s' -> held s s' \/ one_entry s s'.
Proof.
  intro H. destruct (try_short_entry cfg e i s s' H) as [-> | O];
    [left; apply held_refl | now right].
Qed.

Lemma flat_branch_held cfg e i s s' :
  flat_branch cfg e i s = Some s' -> held s s' \/ one_entry s s'.
Proof.
  unfold flat_branch.
  set (s0 := set_close_reason NoReason (set_exit_order None s)).
  assert (H0 : forall x, held s0 x \/ one_entry s0 x ->
                         held s x \/ one_entry s x).
  { intros x [H | H]; [left | now right].
    eapply held_trans; [|exact H]. repeat split; auto. }
  destruct (long_signal i).
  - destruct (_determine_size _ _ _ _ _) as [size|]; [|discriminate].
    destruct (0 <? size).
    + intros [= <-]. right. apply (enter_long_one_entry cfg _ _ _ _ s0).
    + intro H. apply H0. eapply try_short_held, H.
  - intro H. apply H0. eapply try_short_held, H.
Qed.

(** X7.  Only an entry rewrites a position.  A bar either makes an entry (one
    market order, the daily counter up by one), or leaves the entry price, the
    entry risk, the ATR captured at the entry, the take-profit price and the
    list of executed external trades as they were, and does not take an active
    breakeven back; the notifications never touch them. *)
Theorem position_fields_fixed_between_entries cfg ext :
  (forall e s s',
     next cfg ext e s = Some s' ->
     held s s' \/ one_entry (roll_day (date e) s) s') /\
  (forall o st s, held s (notify_order o st s)) /\
  (forall c s, held s (notify_trade c s)).
Proof.
  split; [|split].
  - intros e s s'. unfold next.
    pose proof (roll_day_held (date e) s) as R.
    set (s0 := roll_day (date e) s) in *.
    destruct (nbars e <? min_bars cfg); [intros [= <-]; now left|].
    destruct (values e) as [i|]; [|intros [= <-]; now left].
    destruct (adx_blocks cfg i); [intros [= <-]; now left|].
    destruct (max_trades_per_day cfg <=? trades_today s0);
      [intros [= <-]; now left|].
    destruct (external_override cfg e i ext s0) eqn:E; [discriminate | |].
    + intros [= <-]. right. eapply external_override_one_entry, E.
    + destruct (position e =? 0).
      * intro F. destruct (flat_branch_held cfg e i s0 s' F) as [H | H];
          [left; eapply held_trans; eassumption | now right].
      * intros [= <-]. left.
        eapply held_trans; [exact R | apply open_branch_held].
  - intros o st s. unfold notify_order. destruct st; held_cases.
  - intros c s. unfold notify_trade. held_cases.
Qed.

Lemma position_fields_fixed_between_entries_witness :
  exists s',
    next default_config [] tp_bar opened = Some s' /\
    entry_risk s' = entry_risk opened /\ tp_price s' = tp_price opened.
Proof.
  eexists. split; [by_eval|].
  destruct (proj1 (position_fields_fixed_between_entries default_config [])
              tp_bar opened _ ltac:(by_eval))
    as [(_ & _ & R & T & _) | (o & _ & _ & C)].
  - split; assumption.
  - exfalso. revert C. vm_compute. discriminate.
Defined.

(** ** What a signal entry builds *)

(** X8.  An entry made by the signal path (flat, the override loop not
    entering) builds a well-formed position: long on the long signal with the
    swing low as stop, strictly under the entry price, or short on the short
    signal with the swing high as stop, strictly above it; the entry risk is
    their positive distance, the take-profit lies [tp_r_multiple] risks beyond
    the entry, breakeven is off, no exit order is in flight and no close
    reason is set. *)
Theorem signal_entry_builds_position cfg ext e s s' i :
  next cfg ext e s = Some s' ->
  values e = Some i ->
  external_override cfg e i ext (roll_day (date e) s) = FellThrough ->
  trades_today s' <> trades_today (roll_day (date e) s) ->
  position e = 0 /\
  entry_price s' = Some (close i) /\ initial_atr s' = Some (atr i) /\
  breakeven_active s' = false /\ exit_order s' = None /\
  close_reason s' = NoReason /\
  ((long_signal i = true /\
    stop_price s' = Some (swing_low i) /\ (swing_low i < close i)%Q /\
    entry_risk s' = Some (close i - swing_low i)%Q /\
    tp_price s' =
      Some (close i + tp_r_multiple cfg * (close i - swing_low i))%Q /\
    highest_since_entry s' = Some (close i)) \/
   (short_signal i = true /\
    stop_price s' = Some (swing_high i) /\ (close i < swing_high i)%Q /\
    entry_risk s' = Some (swing_high i - close i)%Q /\
    tp_price s' =
      Some (close i - tp_r_multiple cfg * (swing_high i - close i))%Q /\
    lowest_since_entry s' = Some (close i))).
Proof.
  intros N Hv Ho Hne. revert N Hne. unfold next.
  set (s0 := roll_day (date e) s) in *.
  destruct (nbars e <? min_bars cfg); [intros [= <-]; congruence|].
  rewrite Hv.
  destruct (adx_blocks cfg i); [intros [= <-]; congruence|].
  destruct (max_trades_per_day cfg <=? trades_today s0);
    [intros [= <-]; congruence|].
  rewrite Ho.
  destruct (position e =? 0) eqn:P.
  - apply Z.eqb_eq in P. unfold flat_branch, try_short.
    assert (SL : long_signal i = true -> (swing_low i < close i)%Q).
    { unfold long_signal. intro H. apply andb_prop in H.
      destruct H as [_ H]. now apply ltb_lt. }
    assert (SH : short_signal i = true -> (close i < swing_high i)%Q).
    { unfold short_signal. intro H. apply andb_prop in H.
      destruct H as [_ H]. now apply ltb_lt. }
    destruct (long_signal i) eqn:L.
    + destruct (_determine_size _ _ _ _ false) as [size|]; [|discriminate].
      destruct (0 <? size).
      * intros [= <-] _. simpl. repeat split; auto. left.
        repeat split; auto.
      * rewrite (long_short_exclusive i L).
        intros [= <-] Hne. exfalso. now apply Hne.
    + destruct (short_signal i) eqn:S.
      * destruct (_determine_size _ _ _ _ true) as [size|]; [|discriminate].
        destruct (0 <? size).
        -- intros [= <-] _. simpl. repeat split; auto. right.
           repeat split; auto.
        -- intros [= <-] Hne. exfalso. now apply Hne.
      * intros [= <-] Hne. exfalso. now apply Hne.
  - intros [= <-] Hne. exfalso. apply Hne.
    apply (open_branch_same_trade cfg e i s0).
Qed.

Lemma signal_entry_builds_position_witness :
  entry_price opened = Some 400%Q /\ breakeven_active opened = false.
Proof.
  destruct (signal_entry_builds_position default_config [] entry_bar init
              opened
              {| close := 400; prev_close := 399; high := 401; low := 398;
                 gauss := 395; gauss_prev := 394; kijun := 398;
                 kijun_prev := 398; vapi := 2; vapi_prev := 1;
                 adx := Some 25%Q; smma := 380; atr := 5;
                 swing_low := 390; swing_high := 410 |})
    as (_ & E & _ & B & _); try by_eval.
  split; assumption.
Defined.

(** ** One close for a position *)

Lemma at_most_one_close_refl s : at_most_one_close s s.
Proof. left. split; reflexivity. Qed.

Lemma at_most_one_close_trans s1 s2 s3 :
  at_most_one_close s1 s2 -> at_most_one_close s2 s3 ->
  at_most_one_close s1 s3.
Proof.
  unfold at_most_one_close.
  intros [[A B] | (A & B & C)] [[D E] | (D & E & F)].
  - left. split; congruence.
  - right. repeat split; congruence.
  - right. repeat split; congruence.
  - rewrite D in B. discriminate.
Qed.

Lemma open_branch_one_close cfg e i s :
  at_most_one_close s (open_branch cfg e i s).
Proof.
  unfold open_branch.
  set (m := _update_position_management _ _ _ _ _ _ s).
  assert (M : at_most_one_close s m).
  { pose proof (update_position_management_closes cfg (position e) (close i)
                  (high i) (low i) (kijun i) s) as M.
    cbv zeta in M. fold m in M.
    destruct M as [-> | [(A & B & C) | (A & B)]].
    - apply at_most_one_close_refl.
    - right. auto.
    - left. auto. }
  eapply at_most_one_close_trans; [exact M|].
  pose proof (trend_break_cases (position e) i m) as T.
  destruct (_ && _ && _).
  - destruct T as (A & B & C & _). right. rewrite B. auto.
  - destruct (_ && _ && _).
    + destruct T as (A & B & C & _). right. rewrite B. auto.
    + rewrite T. apply at_most_one_close_refl.
Qed.

Lemma external_override_close cfg e i trades s s' :
  external_override cfg e i trades s = Entered s' ->
  at_most_one_close s s'.
Proof.
  induction trades as [|t rest IH]; simpl; [discriminate|].
  destruct (pending s t); [|exact IH].
  destruct (x_price t) as [px|]; [|discriminate].
  destruct (_determine_size _ _ _ _ _); [|discriminate].
  destruct (String.eqb (direction_of t) "long" && near i px).
  - intros [= <-]. left. unfold closes, close_intents. simpl.
    rewrite filter_snoc. simpl. split; reflexivity.
  - destruct (String.eqb (direction_of t) "short" && near i px);
      [|exact IH].
    intros [= <-]. left. unfold closes, close_intents. simpl.
    rewrite filter_snoc. simpl. split; reflexivity.
Qed.

Lemma next_one_close cfg ext e s s' :
  position e <> 0 -> next cfg ext e s = Some s' -> at_most_one_close s s'.
Proof.
  intro Hpos. unfold next.
  assert (R : at_most_one_close s (roll_day (date e) s)).
  { left. unfold closes. now rewrite roll_day_close_reason, roll_day_sent. }
  set (s0 := roll_day (date e) s) in *.
  destruct (nbars e <? min_bars cfg); [intros [= <-]; exact R|].
  destruct (values e) as [i|]; [|intros [= <-]; exact R].
  destruct (adx_blocks cfg i); [intros [= <-]; exact R|].
  destruct (max_trades_per_day cfg <=? trades_today s0);
    [intros [= <-]; exact R|].
  destruct (external_override cfg e i ext s0) eqn:E; [discriminate | |].
  - intros [= <-]. eapply at_most_one_close_trans;
      [exact R | eapply external_override_close, E].
  - apply Z.eqb_neq in Hpos. rewrite Hpos. intros [= <-].
    eapply at_most_one_close_trans; [exact R | apply open_branch_one_close].
Qed.

(** X9.  A position is closed once.  Over any run of bars on which the
    position is open, with any order notifications and no trade closure in
    between, at most one full-close order is sent; it is sent together with
    its reason, and once a close reason is set no further close goes out,
    through the stop-loss or through the trend-break, until the reason is
    reset. *)
Theorem one_close_for_a_position cfg ext evs : forall s s',
  Forall latched_event evs ->
  run cfg ext evs s = Some s' ->
  (closes s' <= S (closes s))%nat /\
  (reason_empty (close_reason s) = false ->
   closes s' = closes s /\ close_reason s' = close_reason s) /\
  (closes s' = S (closes s) -> reason_empty (close_reason s') = false).
Proof.
  assert (K : forall s s', Forall latched_event evs ->
            run cfg ext evs s = Some s' -> at_most_one_close s s').
  { induction evs as [|ev rest IH]; simpl; intros s s' F.
    - intros [= <-]. apply at_most_one_close_refl.
    - inversion F as [|? ? Hev Hrest]; subst.
      destruct (step cfg ext ev s) as [s1|] eqn:E; [|discriminate].
      intro Hrun. eapply at_most_one_close_trans; [|apply IH; eassumption].
      destruct ev as [e | o st | c]; simpl in *.
      + eapply next_one_close; eassumption.
      + injection E as <-. left. unfold notify_order, closes.
        destruct st; try (split; reflexivity);
          destruct (is_exit_order o s); split; reflexivity.
      + injection E as <-. subst c. apply at_most_one_close_refl. }
  intros s s' F R.
  destruct (K s s' F R) as [[A B] | (A & B & C)].
  - split; [lia | split].
    + intros _. split; assumption.
    + intro H. rewrite B in H. lia.
  - split; [lia | split].
    + intro H. rewrite A in H. discriminate.
    + intros _. exact B.
Qed.

Lemma one_close_for_a_position_witness :
  exists s',
    run default_config [] [OnBar dip_bar; OnBar break_bar; OnBar break_bar]
      opened = Some s' /\
    (closes s' <= S (closes opened))%nat.
Proof.
  eexists. split; [by_eval|].
  eapply (one_close_for_a_position default_config []
            [OnBar dip_bar; OnBar break_bar; OnBar break_bar] opened).
  - repeat constructor; discriminate.
  - by_eval.
Defined.

(** ** Breakeven locks the entry price in *)

Lemma long_locked_levels s s' :
  same_levels s s' -> breakeven_active s' = breakeven_active s ->
  long_locked s -> long_locked s'.
Proof.
  intros (E & S & _ & R & _) B (A & ep & sp & He & Hs & Hr & L).
  split; [congruence|]. exists ep, sp. rewrite E, S, R. auto.
Qed.

Lemma short_locked_levels s s' :
  same_levels s s' -> breakeven_active s' = breakeven_active s ->
  short_locked s -> short_locked s'.
Proof.
  intros (E & S & _ & R & _) B (A & ep & sp & He & Hs & Hr & L).
  split; [congruence|]. exists ep, sp. rewrite E, S, R. auto.
Qed.

Lemma long_tail_flag pos c h s :
  breakeven_active (Long.stop_loss c (Long.take_profit pos h s))
  = breakeven_active s.
Proof. unfold Long.stop_loss, Long.take_profit. split_ifs; reflexivity. Qed.

Lemma short_tail_flag pos c l s :
  breakeven_active (Short.stop_loss c (Short.take_profit pos l s))
  = breakeven_active s.
Proof. unfold Short.stop_loss, Short.take_profit. split_ifs; reflexivity. Qed.

Lemma trend_break_flag pos i s :
  breakeven_active (trend_break pos i s) = breakeven_active s.
Proof. unfold trend_break. split_ifs; reflexivity. Qed.

Lemma roll_day_flag d s :
  breakeven_active (roll_day d s) = breakeven_active s.
Proof. unfold roll_day. split_ifs; reflexivity. Qed.

(** The core of the lock: breakeven and trailing on a long position. *)
Lemma long_lock_core cfg c hi ep er s :
  entry_price s = Some ep -> entry_risk s = Some er ->
  stop_price s <> None ->
  (breakeven_active s = false /\ (ep + tp_r_multiple cfg * er <= c)%Q) \/
  long_locked s ->
  long_locked (Long.trailing cfg hi (Long.breakeven cfg c ep er (set_highest hi s))).
Proof.
  intros He Hr Hs H.
  destruct (stop_price s) as [sp|] eqn:Hsp; [|congruence].
  unfold Long.breakeven, Long.trailing, long_locked.
  destruct H as [[B Hc] | (B & ep' & sp' & He' & Hs' & _ & L)].
  - apply leb_le in Hc. simpl. rewrite Hc, B. simpl.
    destruct (initial_atr s) as [a|]; simpl.
    + destruct (Py.ltb ep (hi - a * trailing_atr_mult cfg)) eqn:T; simpl;
        rewrite ?He, ?Hr.
      * apply ltb_lt in T. split; [reflexivity|].
        exists ep, (hi - a * trailing_atr_mult cfg)%Q.
        repeat split; auto; try discriminate. lra.
      * split; [reflexivity|]. exists ep, ep.
        repeat split; auto; try discriminate. lra.
    + rewrite ?He, ?Hr. split; [reflexivity|]. exists ep, ep.
      repeat split; auto; try discriminate. lra.
  - rewrite He in He'. injection He' as <-.
    rewrite Hsp in Hs'. injection Hs' as <-.
    simpl. rewrite B, andb_false_r. simpl. rewrite Hsp.
    destruct (initial_atr s) as [a|]; simpl.
    + destruct (Py.ltb sp (hi - a * trailing_atr_mult cfg)) eqn:T; simpl;
        rewrite ?He, ?Hr, ?Hsp, ?B.
      * apply ltb_lt in T. split; [reflexivity|].
        exists ep, (hi - a * trailing_atr_mult cfg)%Q.
        repeat split; auto; try discriminate. lra.
      * split; [reflexivity|]. exists ep, sp.
        repeat split; auto; discriminate.
    + rewrite ?He, ?Hr, ?Hsp, ?B. split; [reflexivity|]. exists ep, sp.
      repeat split; auto; discriminate.
Qed.

Lemma short_lock_core cfg c lo ep er s :
  entry_price s = Some ep -> entry_risk s = Some er ->
  stop_price s <> None ->
  (breakeven_active s = false /\ (c <= ep - tp_r_multiple cfg * er)%Q) \/
  short_locked s ->
  short_locked (Short.trailing cfg lo (Short.breakeven cfg c ep er (set_lowest lo s))).
Proof.
  intros He Hr Hs H.
  destruct (stop_price s) as [sp|] eqn:Hsp; [|congruence].
  unfold Short.breakeven, Short.trailing, short_locked.
  destruct H as [[B Hc] | (B & ep' & sp' & He' & Hs' & _ & L)].
  - apply leb_le in Hc. simpl. rewrite Hc, B. simpl.
    destruct (initial_atr s) as [a|]; simpl.
    + destruct (Py.ltb (lo + a * trailing_atr_mult cfg) ep) eqn:T; simpl;
        rewrite ?He, ?Hr.
      * apply ltb_lt in T. split; [reflexivity|].
        exists ep, (lo + a * trailing_atr_mult cfg)%Q.
        repeat split; auto; try discriminate. lra.
      * split; [reflexivity|]. exists ep, ep.
        repeat split; auto; try discriminate. lra.
    + rewrite ?He, ?Hr. split; [reflexivity|]. exists ep, ep.
      repeat split; auto; try discriminate. lra.
  - rewrite He in He'. injection He' as <-.
    rewrite Hsp in Hs'. injection Hs' as <-.
    simpl. rewrite B, andb_false_r. simpl. rewrite Hsp.
    destruct (initial_atr s) as [a|]; simpl.
    + destruct (Py.ltb (lo + a * trailing_atr_mult cfg) sp) eqn:T; simpl;
        rewrite ?He, ?Hr, ?Hsp, ?B.
      * apply ltb_lt in T. split; [reflexivity|].
        exists ep, (lo + a * trailing_atr_mult cfg)%Q.
        repeat split; auto; try discriminate. lra.
      * split; [reflexivity|]. exists ep, sp.
        repeat split; auto; discriminate.
    + rewrite ?He, ?Hr, ?Hsp, ?B. split; [reflexivity|]. exists ep, sp.
      repeat split; auto; discriminate.
Qed.

Lemma long_open_branch_locks cfg e i s ep er :
  0 < position e ->
  entry_price s = Some ep -> entry_risk s = Some er ->
  stop_price s <> None ->
  (breakeven_active s = false /\
   (ep + tp_r_multiple cfg * er <= close i)%Q) \/ long_locked s ->
  long_locked (open_branch cfg e i s).
Proof.
  intros Hpos He Hr Hs H. unfold open_branch, _update_position_management.
  rewrite He, Hr. destruct (stop_price s) as [sp|] eqn:Hsp; [|congruence].
  apply Z.ltb_lt in Hpos. rewrite Hpos. unfold Long.manage.
  assert (Hs' : stop_price s <> None) by congruence.
  pose proof (long_lock_core cfg (close i)
                (Py.max (Py.or_else (highest_since_entry s) ep) (high i))
                ep er s He Hr Hs' H) as L.
  set (m := Long.trailing _ _ _) in *.
  eapply long_locked_levels; [| |exact L].
  - eapply same_levels_trans;
      [apply long_tail_levels | apply trend_break_levels].
  - now rewrite trend_break_flag, long_tail_flag.
Qed.

Lemma short_open_branch_locks cfg e i s ep er :
  position e < 0 ->
  entry_price s = Some ep -> entry_risk s = Some er ->
  stop_price s <> None ->
  (breakeven_active s = false /\
   (close i <= ep - tp_r_multiple cfg * er)%Q) \/ short_locked s ->
  short_locked (open_branch cfg e i s).
Proof.
  intros Hpos He Hr Hs H. unfold open_branch, _update_position_management.
  rewrite He, Hr. destruct (stop_price s) as [sp|] eqn:Hsp; [|congruence].
  assert (Hn : (0 <? position e) = false) by (apply Z.ltb_ge; lia).
  rewrite Hn. unfold Short.manage.
  assert (Hs' : stop_price s <> None) by congruence.
  pose proof (short_lock_core cfg (close i)
                (Py.min (Py.or_else (lowest_since_entry s) ep) (low i))
                ep er s He Hr Hs' H) as L.
  set (m := Short.trailing _ _ _) in *.
  eapply short_locked_levels; [| |exact L].
  - eapply same_levels_trans;
      [apply short_tail_levels | apply trend_break_levels].
  - now rewrite trend_break_flag, short_tail_flag.
Qed.

(** X10.  Breakeven triggers with the take-profit level.  On a managed bar of
    a long position whose take-profit price is the entry plus [tp_r_multiple]
    entry risks (as every entry sets it) and whose breakeven is not active
    yet, a close at or above the take-profit price activates breakeven and
    leaves the stop at or above the entry price; for a short position, a close
    at or below it leaves the stop at or below the entry price. *)
Theorem breakeven_triggers_at_take_profit cfg e i s ep er tp :
  position e <> 0 ->
  entry_price s = Some ep -> entry_risk s = Some er ->
  stop_price s <> None -> tp_price s = Some tp ->
  breakeven_active s = false ->
  (0 < position e -> tp = (ep + tp_r_multiple cfg * er)%Q ->
   (tp <= close i)%Q -> long_locked (open_branch cfg e i s)) /\
  (position e < 0 -> tp = (ep - tp_r_multiple cfg * er)%Q ->
   (close i <= tp)%Q -> short_locked (open_branch cfg e i s)).
Proof.
  intros _ He Hr Hs _ B. split; intros Hpos -> Hc.
  - apply (long_open_branch_locks cfg e i s ep er); auto.
  - apply (short_open_branch_locks cfg e i s ep er); auto.
Qed.

Lemma breakeven_triggers_at_take_profit_witness :
  long_locked
    (open_branch default_config tp_bar
       {| close := 841 # 2; prev_close := 400; high := 421; low := 400;
          gauss := 400; gauss_prev := 395; kijun := 399; kijun_prev := 398;
          vapi := 3; vapi_prev := 2; adx := Some 30%Q; smma := 381; atr := 5;
          swing_low := 390; swing_high := 410 |} opened).
Proof.
  apply (proj1 (breakeven_triggers_at_take_profit default_config tp_bar
                  {| close := 841 # 2; prev_close := 400; high := 421;
                     low := 400; gauss := 400; gauss_prev := 395;
                     kijun := 399; kijun_prev := 398; vapi := 3;
                     vapi_prev := 2; adx := Some 30%Q; smma := 381; atr := 5;
                     swing_low := 390; swing_high := 410 |}
                  opened 400%Q 10%Q 420%Q
                  ltac:(discriminate) eq_refl eq_refl ltac:(discriminate)
                  eq_refl eq_refl)).
  - reflexivity.
  - reflexivity.
  - discriminate.
Defined.

Lemma long_next_locked cfg e s :
  0 < position e -> long_locked s ->
  exists s', next cfg [] e s = Some s' /\ long_locked s'.
Proof.
  intros Hpos L. unfold next.
  assert (L0 : long_locked (roll_day (date e) s))
    by (eapply long_locked_levels;
        [apply roll_day_levels | apply roll_day_flag | exact L]).
  set (s0 := roll_day (date e) s) in *.
  destruct (nbars e <? min_bars cfg); [eauto|].
  destruct (values e) as [i|]; [|eauto].
  destruct (adx_blocks cfg i); [eauto|].
  destruct (max_trades_per_day cfg <=? trades_today s0); [eauto|].
  simpl. assert (Hz : (position e =? 0) = false) by (apply Z.eqb_neq; lia).
  rewrite Hz. eexists. split; [reflexivity|].
  pose proof L0 as (_ & ep & sp & He & Hs & Hr & _).
  destruct (entry_risk s0) as [er|] eqn:Er; [|congruence].
  apply (long_open_branch_locks cfg e i s0 ep er); auto; congruence.
Qed.

Lemma short_next_locked cfg e s :
  position e < 0 -> short_locked s ->
  exists s', next cfg [] e s = Some s' /\ short_locked s'.
Proof.
  intros Hpos L. unfold next.
  assert (L0 : short_locked (roll_day (date e) s))
    by (eapply short_locked_levels;
        [apply roll_day_levels | apply roll_day_flag | exact L]).
  set (s0 := roll_day (date e) s) in *.
  destruct (nbars e <? min_bars cfg); [eauto|].
  destruct (values e) as [i|]; [|eauto].
  destruct (adx_blocks cfg i); [eauto|].
  destruct (max_trades_per_day cfg <=? trades_today s0); [eauto|].
  simpl. assert (Hz : (position e =? 0) = false) by (apply Z.eqb_neq; lia).
  rewrite Hz. eexists. split; [reflexivity|].
  pose proof L0 as (_ & ep & sp & He & Hs & Hr & _).
  destruct (entry_risk s0) as [er|] eqn:Er; [|congruence].
  apply (short_open_branch_locks cfg e i s0 ep er); auto; congruence.
Qed.

(** X11.  Once breakeven is active the entry price is locked in: over every
    run of bars of the long position (no external trades given), with any
    notifications, breakeven stays active and the stop stays at or above the
    entry price; for a short position, at or below it.  The handler returns on
    every such bar. *)
Theorem breakeven_lock_holds cfg evs :
  (forall s, long_locked s -> Forall long_event evs ->
     exists s', run cfg [] evs s = Some s' /\ long_locked s') /\
  (forall s, short_locked s -> Forall short_side_event evs ->
     exists s', run cfg [] evs s = Some s' /\ short_locked s').
Proof.
  induction evs as [|ev rest [IHl IHs]]; split; intros s L F.
  - exists s. split; [reflexivity | exact L].
  - exists s. split; [reflexivity | exact L].
  - inversion F as [|? ? Hev Hrest]; subst.
    assert (S1 : exists s1, step cfg [] ev s = Some s1 /\ long_locked s1).
    { destruct ev as [e | o st | c]; simpl in *.
      - now apply long_next_locked.
      - eexists. split; [reflexivity|].
        eapply long_locked_levels; [apply notify_order_levels | | exact L].
        unfold notify_order.
        destruct st; try reflexivity; destruct (is_exit_order o s); reflexivity.
      - eexists. split; [reflexivity|].
        eapply long_locked_levels; [apply notify_trade_levels | | exact L].
        unfold notify_trade. destruct c; reflexivity. }
    destruct S1 as (s1 & E1 & L1).
    destruct (IHl s1 L1 Hrest) as (s' & R & L').
    exists s'. simpl. rewrite E1. auto.
  - inversion F as [|? ? Hev Hrest]; subst.
    assert (S1 : exists s1, step cfg [] ev s = Some s1 /\ short_locked s1).
    { destruct ev as [e | o st | c]; simpl in *.
      - now apply short_next_locked.
      - eexists. split; [reflexivity|].
        eapply short_locked_levels; [apply notify_order_levels | | exact L].
        unfold notify_order.
        destruct st; try reflexivity; destruct (is_exit_order o s); reflexivity.
      - eexists. split; [reflexivity|].
        eapply short_locked_levels; [apply notify_trade_levels | | exact L].
        unfold notify_trade. destruct c; reflexivity. }
    destruct S1 as (s1 & E1 & L1).
    destruct (IHs s1 L1 Hrest) as (s' & R & L').
    exists s'. simpl. rewrite E1. auto.
Qed.

Lemma breakeven_lock_holds_witness :
  exists s0 s',
    run default_config [] [OnBar tp_bar] opened = Some s0 /\
    run default_config [] [OnBar tp_again_bar] s0 = Some s' /\
    long_locked s'.
Proof.
  eexists. 
  assert (L0 : long_locked
                 {| today := Some 1; trades_today := 1;
                    entry_price := Some 400%Q; stop_price := Some 401%Q;
                    initial_atr := Some 5%Q; entry_risk := Some 10%Q;
                    tp_price := Some 420%Q; breakeven_active := true;
                    highest_since_entry := Some 421%Q;
                    lowest_since_entry := None; close_reason := NoReason;
                    entry_order := Some {| ref := 0; req := Market Buy 50 |};
                    exit_order := Some {| ref := 1; req := Limit Sell 15 420 |};
                    executed_external := [];
                    sent := [{| ref := 0; req := Market Buy 50 |};
                             {| ref := 1; req := Limit Sell 15 420 |}] |}).
  { split; [reflexivity|]. exists 400%Q, 401%Q.
    repeat split; try discriminate. }
  destruct (proj1 (breakeven_lock_holds default_config [OnBar tp_again_bar])
              _ L0) as (s' & R & L).
  - repeat constructor.
  - exists s'. split; [by_eval | split; [exact R | exact L]].
Defined.

(** ** External trades are entered once *)

Lemma mem_In k l : mem k l = true <-> In k l.
Proof.
  unfold mem. rewrite existsb_exists. split.
  - intros (x & Hx & E). apply String.eqb_eq in E. now subst.
  - intro H. exists k. split; [exact H | apply String.eqb_refl].
Qed.

Lemma pending_fresh s t :
  pending s t = true -> ~ In (x_entry t) (executed_external s).
Proof.
  unfold pending. intro H. apply andb_prop in H. destruct H as [_ H].
  apply negb_true_iff in H. intro I. apply mem_In in I. congruence.
Qed.

Lemma external_override_executed cfg e i trades s s' :
  external_override cfg e i trades s = Entered s' ->
  exists u, In u trades /\ pending s u = true /\
            executed_external s' = x_entry u :: executed_external s.
Proof.
  induction trades as [|t rest IH]; simpl; [discriminate|].
  assert (IH' : external_override cfg e i rest s = Entered s' ->
                exists u, (t = u \/ In u rest) /\ pending s u = true /\
                  executed_external s' = x_entry u :: executed_external s).
  { intro H. destruct (IH H) as (u & A & B). exists u. auto. }
  destruct (pending s t) eqn:P; [|exact IH'].
  destruct (x_price t) as [px|]; [|discriminate].
  destruct (_determine_size _ _ _ _ _); [|discriminate].
  destruct (String.eqb (direction_of t) "long" && near i px).
  - intros [= <-]. exists t. auto.
  - destruct (String.eqb (direction_of t) "short" && near i px);
      [|exact IH'].
    intros [= <-]. exists t. auto.
Qed.

Lemma flat_branch_executed cfg e i s s' :
  flat_branch cfg e i s = Some s' ->
  executed_external s' = executed_external s.
Proof.
  unfold flat_branch, try_short.
  split_ifs; try discriminate; intros [= <-]; reflexivity.
Qed.

Lemma next_executed cfg ext e s s' :
  next cfg ext e s = Some s' ->
  executed_external s' = executed_external s \/
  exists u, In u ext /\ ~ In (x_entry u) (executed_external s) /\
            executed_external s' = x_entry u :: executed_external s /\
            one_entry (roll_day (date e) s) s'.
Proof.
  unfold next.
  assert (R : executed_external (roll_day (date e) s) = executed_external s)
    by apply (roll_day_held (date e) s).
  set (s0 := roll_day (date e) s) in *.
  destruct (nbars e <? min_bars cfg); [intros [= <-]; now left|].
  destruct (values e) as [i|]; [|intros [= <-]; now left].
  destruct (adx_blocks cfg i); [intros [= <-]; now left|].
  destruct (max_trades_per_day cfg <=? trades_today s0);
    [intros [= <-]; now left|].
  destruct (external_override cfg e i ext s0) eqn:E; [discriminate | |].
  - intros [= <-]. right.
    destruct (external_override_executed cfg e i ext s0 s1 E)
      as (u & Hu & Hp & He).
    exists u. apply pending_fresh in Hp. rewrite R in Hp, He.
    split; [exact Hu | split; [exact Hp | split; [exact He|]]].
    exact (external_override_one_entry cfg e i ext s0 s1 E).
  - destruct (position e =? 0).
    + intro F. left. rewrite (flat_branch_executed cfg e i s0 s' F). exact R.
    + intros [= <-]. left.
      rewrite <- R. apply (open_branch_held cfg e i s0).
Qed.

Lemma step_executed cfg ext ev s s' :
  step cfg ext ev s = Some s' ->
  executed_external s' = executed_external s \/
  exists u, In u ext /\ ~ In (x_entry u) (executed_external s) /\
            executed_external s' = x_entry u :: executed_external s.
Proof.
  destruct ev as [e | o st | c]; simpl.
  - intro N. destruct (next_executed cfg ext e s s' N)
      as [H | (u & A & B & C & _)]; [now left | right; eauto].
  - intros [= <-]. left. unfold notify_order.
    destruct st; try reflexivity; destruct (is_exit_order o s); reflexivity.
  - intros [= <-]. left. unfold notify_trade. destruct c; reflexivity.
Qed.

(** X12.  Each external trade is entered at most once.  The record of executed
    trades (a set in the source, here the list of its strings, last added
    first) changes on a bar only together with a forced entry, by the
    ['entry'] string of a given trade that is not yet recorded, and the
    notifications leave it alone.  So over any run that starts with a
    duplicate-free record drawn from the given trades, no string is recorded
    twice, nothing is ever removed, and the record never holds more strings
    than there are trades. *)
Theorem external_trades_entered_once cfg ext :
  (forall e s s',
     next cfg ext e s = Some s' ->
     executed_external s' = executed_external s \/
     exists u, In u ext /\ ~ In (x_entry u) (executed_external s) /\
               executed_external s' = x_entry u :: executed_external s /\
               one_entry (roll_day (date e) s) s') /\
  (forall evs s s',
     NoDup (executed_external s) ->
     incl (executed_external s) (keys ext) ->
     run cfg ext evs s = Some s' ->
     NoDup (executed_external s') /\
     incl (executed_external s') (keys ext) /\
     incl (executed_external s) (executed_external s') /\
     (List.length (executed_external s') <= List.length ext)%nat).
Proof.
  split; [apply next_executed|].
  assert (K : forall evs s s', NoDup (executed_external s) ->
            incl (executed_external s) (keys ext) ->
            run cfg ext evs s = Some s' ->
            NoDup (executed_external s') /\
            incl (executed_external s') (keys ext) /\
            incl (executed_external s) (executed_external s')).
  { induction evs as [|ev rest IH]; simpl; intros s s' D I.
    - intros [= <-]. repeat split; auto. apply incl_refl.
    - destruct (step cfg ext ev s) as [s1|] eqn:E; [|discriminate].
      intro Hrun.
      assert (S1 : NoDup (executed_external s1) /\
                   incl (executed_external s1) (keys ext) /\
                   incl (executed_external s) (executed_external s1)).
      { destruct (step_executed cfg ext ev s s1 E)
          as [-> | (u & Hu & Hf & ->)].
        - repeat split; auto. apply incl_refl.
        - repeat split.
          + now constructor.
          + intros k [<- | Hk]; [|now apply I].
            unfold keys. now apply in_map.
          + now apply incl_tl, incl_refl. }
      destruct S1 as (D1 & I1 & J1).
      destruct (IH s1 s' D1 I1 Hrun) as (D2 & I2 & J2).
      repeat split; auto. eapply incl_tran; eassumption. }
  intros evs s s' D I R. destruct (K evs s s' D I R) as (D' & I' & J').
  repeat split; auto.
  replace (List.length ext) with (List.length (keys ext))
    by (unfold keys; apply length_map).
  now apply NoDup_incl_length.
Qed.

Lemma external_trades_entered_once_witness :
  exists s',
    run default_config [agent_410]
      [OnBar entry_bar; OnBar rally_bar; OnBar rally_bar] init = Some s' /\
    (List.length (executed_external s') <= 1)%nat.
Proof.
  eexists. split; [by_eval|].
  eapply (proj2 (external_trades_entered_once default_config [agent_410])
            [OnBar entry_bar; OnBar rally_bar; OnBar rally_bar] init).
  - constructor.
  - intros k [].
  - by_eval.
Defined.

(** * Properties of the configuration helpers *)

Import ConfigUtils.
Local Open Scope string_scope.

(** ** Dictionaries *)

Section DictFacts.

Context {V : Type}.
Implicit Types d r other : list (string * V).

Lemma lookup_app k d1 d2 :
  lookup k (d1 ++ d2)%list =
  match lookup k d1 with Some v => Some v | None => lookup k d2 end.
Proof.
  induction d1 as [|[k' v'] r IH]; simpl; [reflexivity|].
  destruct (String.eqb k' k); [reflexivity | exact IH].
Qed.

Lemma lookup_replace_other k (v : V) m d :
  String.eqb k m = false ->
  lookup m (map (fun kv => if String.eqb (fst kv) k then (k, v) else kv) d)
  = lookup m d.
Proof.
  intro N. induction d as [|[k' v'] r IH]; simpl; [reflexivity|].
  destruct (String.eqb k' k) eqn:E; simpl.
  - apply String.eqb_eq in E. subst k'. rewrite N. exact IH.
  - rewrite IH. reflexivity.
Qed.

Lemma lookup_replace_same k (v : V) d :
  lookup k (map (fun kv => if String.eqb (fst kv) k then (k, v) else kv) d)
  = match lookup k d with Some _ => Some v | None => None end.
Proof.
  induction d as [|[k' v'] r IH]; simpl; [reflexivity|].
  destruct (String.eqb k' k) eqn:E; simpl.
  - rewrite String.eqb_refl. reflexivity.
  - rewrite E. exact IH.
Qed.

Lemma lookup_setitem k (v : V) m d :
  lookup m (setitem k v d) = if String.eqb k m then Some v else lookup m d.
Proof.
  unfold setitem, has_key.
  destruct (String.eqb k m) eqn:E.
  - apply String.eqb_eq in E. subst m.
    destruct (lookup k d) eqn:L.
    + rewrite lookup_replace_same, L. reflexivity.
    + rewrite lookup_app, L. simpl. rewrite String.eqb_refl. reflexivity.
  - destruct (lookup k d) eqn:L.
    + apply lookup_replace_other, E.
    + rewrite lookup_app. simpl. rewrite E.
      destruct (lookup m d); reflexivity.
Qed.

Lemma has_key_setitem k (v : V) m d :
  has_key m (setitem k v d) = (String.eqb k m || has_key m d)%bool.
Proof.
  unfold has_key at 1. rewrite lookup_setitem.
  destruct (String.eqb k m); reflexivity.
Qed.

Lemma lookup_pop k m d :
  lookup m (pop k d) = if String.eqb k m then None else lookup m d.
Proof.
  unfold pop. induction d as [|[k' v'] r IH]; simpl.
  - destruct (String.eqb k m); reflexivity.
  - destruct (String.eqb k' k) eqn:E; simpl.
    + apply String.eqb_eq in E. subst k'. rewrite IH.
      destruct (String.eqb k m); reflexivity.
    + rewrite IH. destruct (String.eqb k' m) eqn:F; [|reflexivity].
      apply String.eqb_eq in F. subst k'.
      rewrite String.eqb_sym, E. reflexivity.
Qed.

Lemma lookup_absent k d : ~ In k (map fst d) -> lookup k d = None.
Proof.
  induction d as [|[k' v'] r IH]; simpl; intro N; [reflexivity|].
  destruct (String.eqb k' k) eqn:E.
  - apply String.eqb_eq in E. tauto.
  - apply IH. tauto.
Qed.

Lemma lookup_present k d : In k (map fst d) -> lookup k d <> None.
Proof.
  induction d as [|[k' v'] r IH]; simpl; [tauto|].
  intros [-> | H].
  - rewrite String.eqb_refl. discriminate.
  - destruct (String.eqb k' k); [discriminate | now apply IH].
Qed.

Lemma lookup_In k v d : lookup k d = Some v -> In (k, v) d.
Proof.
  induction d as [|[k' v'] r IH]; simpl; [discriminate|].
  destruct (String.eqb k' k) eqn:E.
  - apply String.eqb_eq in E. intros [= <-]. subst. now left.
  - intro H. right. now apply IH.
Qed.

Lemma lookup_update m d other :
  NoDup (map fst other) ->
  lookup m (update d other) =
  match lookup m other with Some v => Some v | None => lookup m d end.
Proof.
  unfold update. revert d.
  induction other as [|[k v] r IH]; simpl; intros d N; [reflexivity|].
  inversion N as [|? ? Hk Hr]; subst.
  rewrite (IH _ Hr), lookup_setitem.
  destruct (String.eqb k m) eqn:E; [|reflexivity].
  apply String.eqb_eq in E. subst m.
  rewrite (lookup_absent k r Hk). reflexivity.
Qed.

Lemma setitem_nonempty k (v : V) d : setitem k v d <> [].
Proof.
  unfold setitem. destruct (has_key k d) eqn:H.
  - destruct d; [discriminate H | discriminate].
  - destruct d; discriminate.
Qed.

Lemma update_nonempty d other : d <> [] -> update d other <> [].
Proof.
  unfold update. revert d.
  induction other as [|[k v] r IH]; simpl; intros d N; [exact N|].
  apply IH, setitem_nonempty.
Qed.

Lemma update_empty d other : update d other = [] -> d = [] /\ other = [].
Proof.
  destruct other as [|[k v] r].
  - simpl. auto.
  - intro H. exfalso. revert H. unfold update. simpl.
    apply (update_nonempty (setitem k v d) r), setitem_nonempty.
Qed.

Lemma keys_replace k (v : V) d :
  map fst (map (fun kv => if String.eqb (fst kv) k then (k, v) else kv) d)
  = map fst d.
Proof.
  induction d as [|[k' v'] r IH]; simpl; [reflexivity|].
  rewrite IH. destruct (String.eqb k' k) eqn:E; [|reflexivity].
  apply String.eqb_eq in E. now subst.
Qed.

Lemma setitem_NoDup k (v : V) d :
  NoDup (map fst d) -> NoDup (map fst (setitem k v d)).
Proof.
  intro N. unfold setitem, has_key. destruct (lookup k d) eqn:L.
  - now rewrite keys_replace.
  - rewrite map_app. simpl.
    apply NoDup_app; [exact N | repeat constructor; intros [] |].
    intros x Hx [<- | []]. now apply lookup_present in Hx.
Qed.

Lemma update_NoDup d other :
  NoDup (map fst d) -> NoDup (map fst (update d other)).
Proof.
  unfold update. revert d.
  induction other as [|[k v] r IH]; simpl; intros d N; [exact N|].
  apply IH, setitem_NoDup, N.
Qed.

(** Writing what is already there changes nothing. *)
Lemma setitem_same k (v : V) d :
  has_key k d = true ->
  (forall v', In (k, v') d -> v' = v) ->
  setitem k v d = d.
Proof.
  intros H A. unfold setitem. rewrite H. clear H.
  induction d as [|[k' v'] r IH]; simpl; [reflexivity|].
  rewrite IH by (intros; apply A; now right).
  destruct (String.eqb k' k) eqn:E; [|reflexivity].
  apply String.eqb_eq in E. subst k'.
  now rewrite (A v') by now left.
Qed.

Lemma NoDup_unique k (v v' : V) d :
  NoDup (map fst d) -> In (k, v) d -> In (k, v') d -> v = v'.
Proof.
  induction d as [|[k0 v0] r IH]; simpl; [tauto|].
  intros N. inversion N as [|? ? Hk Hr]; subst.
  intros [[= -> ->] | H1] [[= <-] | H2]; auto.
  - exfalso. apply Hk. change k with (fst (k, v')). now apply in_map.
  - subst. exfalso. apply Hk. change k0 with (fst (k0, v)). now apply in_map.
Qed.

Lemma update_within d other :
  NoDup (map fst d) -> incl other d -> update d other = d.
Proof.
  unfold update.
  induction other as [|[k v] r IH]; simpl; intros N I; [reflexivity|].
  rewrite setitem_same.
  - apply IH; [exact N | intros x Hx; apply I; now right].
  - unfold has_key.
    destruct (lookup k d) eqn:L; [reflexivity|].
    exfalso. apply (lookup_present k d); [|exact L].
    change k with (fst (k, v)). apply in_map, I. now left.
  - intros v' H. apply (NoDup_unique k v' v d N H). apply I. now left.
Qed.

Lemma update_fresh other :
  NoDup (map fst other) -> forall d,
  (forall k, In k (map fst other) -> ~ In k (map fst d)) ->
  update d other = (d ++ other)%list.
Proof.
  unfold update.
  induction other as [|[k v] r IH]; simpl; intros N d F.
  - now rewrite app_nil_r.
  - inversion N as [|? ? Hk Hr]; subst.
    assert (S : setitem k v d = (d ++ [(k, v)])%list).
    { unfold setitem, has_key. rewrite lookup_absent; [reflexivity|].
      apply F. now left. }
    rewrite S, IH; [now rewrite <- app_assoc | exact Hr |].
    intros x Hx. rewrite map_app, in_app_iff. simpl.
    intros [Hd | [<- | []]]; [|contradiction].
    revert Hd. apply F. now right.
Qed.

End DictFacts.

(** ** [convert_paths] *)

Lemma pyval_induction (P : pyval -> Prop) :
  P PNone -> (forall b, P (PBool b)) -> (forall n, P (PInt n)) ->
  (forall x, P (PFloat x)) -> (forall s, P (PStr s)) ->
  (forall p, P (PPath p)) ->
  (forall l, Forall P l -> P (PList l)) ->
  (forall d, Forall (fun kv => P (snd kv)) d -> P (PDict d)) ->
  forall v, P v.
Proof.
  intros HN HB HI HF HS HP HL HD.
  fix IH 1.
  intros [ | b | n | x | s | p | l | d];
    [exact HN | apply HB | apply HI | apply HF | apply HS | apply HP | | ].
  - apply HL. induction l as [|a l IHl]; constructor; [apply IH | exact IHl].
  - apply HD. induction d as [|[k v] d IHd]; constructor;
      [apply IH | exact IHd].
Qed.

(** The definition does what the source does in two steps: the key is
    masked where it is present, then every value is converted. *)
Lemma convert_paths_dict (d : dict) :
  convert_paths (PDict d) =
  PDict (map (fun kv => (fst kv, convert_paths (snd kv))) (mask d)).
Proof.
  simpl. f_equal. unfold mask, setitem.
  destruct (has_key "xai_api_key" d) eqn:H.
  - rewrite map_map. apply map_ext. intros [k v]. simpl.
    destruct (String.eqb k "xai_api_key"); reflexivity.
  - apply map_ext_in. intros [k v] I. simpl.
    destruct (String.eqb k "xai_api_key") eqn:E; [|reflexivity].
    apply String.eqb_eq in E. subst k. exfalso.
    unfold has_key in H.
    destruct (lookup "xai_api_key" d) eqn:L; [discriminate|].
    apply (lookup_present "xai_api_key" d); [|exact L].
    change "xai_api_key" with (fst ("xai_api_key", v)). now apply in_map.
Qed.

Lemma convert_paths_converted (obj : pyval) : converted (convert_paths obj).
Proof.
  induction obj as [ | b | n | x | s | p | l IH | d IH] using pyval_induction;
    simpl; auto.
  - induction IH as [|a l Ha _ IHl]; simpl; auto.
  - induction IH as [|[k v] d Hv _ IHd]; simpl; [exact I|].
    split; [|exact IHd].
    destruct (String.eqb k "xai_api_key") eqn:E; simpl.
    + reflexivity.
    + rewrite E. exact Hv.
Qed.

Lemma convert_paths_fixed (obj : pyval) :
  converted obj -> convert_paths obj = obj.
Proof.
  induction obj as [ | b | n | x | s | p | l IH | d IH] using pyval_induction;
    simpl; auto.
  - tauto.
  - intro C. f_equal. induction IH as [|a l Ha _ IHl]; simpl in *; [reflexivity|].
    destruct C as [Ca Cl]. now rewrite Ha, IHl.
  - intro C. f_equal.
    induction IH as [|[k v] d Hv _ IHd]; simpl in *; [reflexivity|].
    destruct C as [Ckv Cd]. rewrite (IHd Cd). f_equal.
    destruct (String.eqb k "xai_api_key") eqn:E.
    + apply String.eqb_eq in E. now subst.
    + now rewrite Hv.
Qed.

(** X14.  Nothing sensitive is left in a configuration dump: whatever
    [model_dump] returns and whichever argument is given, the result of
    [safe_dump_config] holds no [Path] at any depth of its lists and
    dictionaries, and every ["xai_api_key"] in it, at any depth, holds the
    string ["MASKED"]. *)
Theorem dump_is_masked_and_path_free
  (AppConfig : Type) (model_dump : AppConfig -> dict)
  (app_default : AppConfig) (config : dict + AppConfig) :
  converted (safe_dump_config AppConfig model_dump app_default config).
Proof.
  unfold safe_dump_config. apply convert_paths_converted.
Qed.

(** X15.  [convert_paths] touches nothing else: data without a [Path] and with
    every ["xai_api_key"] already masked is returned as it is, keys, order and
    values; so converting twice is converting once. *)
Theorem convert_paths_changes_nothing_else (obj : pyval) :
  (converted obj -> convert_paths obj = obj) /\
  convert_paths (convert_paths obj) = convert_paths obj.
Proof.
  split; [apply convert_paths_fixed|].
  apply convert_paths_fixed, convert_paths_converted.
Qed.

Lemma convert_paths_changes_nothing_else_witness :
  convert_paths
    (PDict [("api", PDict [("xai_api_key", masked)]);
            ("logging", PDict [("log_level", PStr "INFO")]);
            ("periods", PList [PInt 14; PInt 26])])
  = PDict [("api", PDict [("xai_api_key", masked)]);
           ("logging", PDict [("log_level", PStr "INFO")]);
           ("periods", PList [PInt 14; PInt 26])].
Proof.
  apply (proj1 (convert_paths_changes_nothing_else _)).
  simpl. repeat split.
Defined.

(** ** [safe_validate_config]: the two loops *)

Lemma has_key_cons {V : Type} k k' (v : V) r :
  has_key k ((k', v) :: r) = (String.eqb k' k || has_key k r)%bool.
Proof.
  unfold has_key. simpl. destruct (String.eqb k' k); reflexivity.
Qed.

Lemma has_key_In {V : Type} k (d : list (string * V)) :
  has_key k d = true -> exists v, In (k, v) d.
Proof.
  unfold has_key. destruct (lookup k d) as [v|] eqn:L; [|discriminate].
  intros _. exists v. now apply lookup_In.
Qed.

Lemma In_has_key {V : Type} k (v : V) (d : list (string * V)) :
  In (k, v) d -> has_key k d = true.
Proof.
  intro I. unfold has_key. destruct (lookup k d) eqn:L; [reflexivity|].
  exfalso. apply (lookup_present k d); [|exact L].
  change k with (fst (k, v)). now apply in_map.
Qed.

Lemma setitem_items {V : Type} k (v v' : V) d :
  In (k, v') (setitem k v d) -> v' = v.
Proof.
  unfold setitem. destruct (has_key k d) eqn:H.
  - rewrite in_map_iff. intros ([k0 v0] & E & _). simpl in E.
    destruct (String.eqb k0 k) eqn:F.
    + now injection E as <-.
    + injection E as -> _. now rewrite String.eqb_refl in F.
  - rewrite in_app_iff. intros [I | [[= <-] | []]]; [|reflexivity].
    apply In_has_key in I. congruence.
Qed.

(** The three ways of a turn of the first loop. *)
Lemma extract_cases cd te key value :
  (exists mapped,
     lookup key trading_map = Some mapped /\
     extract (cd, te) (key, value)
     = (pop key cd, setitem mapped value te)) \/
  (lookup key trading_map = None /\ key = "trading" /\
   exists other, value = PDict other /\
     extract (cd, te) (key, value) = (cd, update te other)) \/
  (lookup key trading_map = None /\
   (key <> "trading" \/ forall other, value <> PDict other) /\
   extract (cd, te) (key, value) = (cd, te)).
Proof.
  unfold extract.
  destruct (lookup key trading_map) as [mapped|]; [left; eauto | right].
  destruct (String.eqb key "trading") eqn:E.
  - apply String.eqb_eq in E.
    destruct value; try (right; repeat split; auto; right; discriminate).
    left. eauto.
  - apply String.eqb_neq in E. right. auto.
Qed.

Lemma not_alias key : lookup key trading_map = None -> is_alias key = false.
Proof.
  intro A. unfold is_alias, has_key. now rewrite A.
Qed.

Lemma alias key mapped :
  lookup key trading_map = Some mapped -> is_alias key = true.
Proof.
  intro A. unfold is_alias, has_key. now rewrite A.
Qed.

(** The first loop removes from the dictionary exactly the mapped keys. *)
Lemma extract_fst items : forall (cd te : dict) k,
  lookup k (fst (fold_left extract items (cd, te))) =
  if (is_alias k && has_key k items)%bool then None else lookup k cd.
Proof.
  induction items as [|[key value] r IH]; intros cd te k.
  - simpl. now rewrite andb_false_r.
  - cbn [fold_left]. rewrite has_key_cons.
    destruct (extract_cases cd te key value)
      as [(mapped & A & ->) | [(A & _ & other & _ & ->) | (A & _ & ->)]];
      rewrite IH.
    + rewrite lookup_pop.
      destruct (String.eqb key k) eqn:E; [|reflexivity].
      apply String.eqb_eq in E. subst k.
      rewrite (alias _ _ A). simpl.
      destruct (has_key key r); reflexivity.
    + destruct (String.eqb key k) eqn:E; [|reflexivity].
      apply String.eqb_eq in E. subst k.
      rewrite (not_alias _ A). reflexivity.
    + destruct (String.eqb key k) eqn:E; [|reflexivity].
      apply String.eqb_eq in E. subst k.
      rewrite (not_alias _ A). reflexivity.
Qed.

Lemma writes_alias m key value mapped :
  lookup key trading_map = Some mapped ->
  writes m (key, value) = if String.eqb mapped m then Some value else None.
Proof.
  intro A. unfold writes. cbn [fst snd]. now rewrite A.
Qed.

Lemma writes_section m other :
  writes m ("trading", PDict other) = lookup m other.
Proof.
  reflexivity.
Qed.

Lemma writes_nothing m key value :
  lookup key trading_map = None ->
  (key <> "trading" \/ forall other, value <> PDict other) ->
  writes m (key, value) = None.
Proof.
  intros A B. unfold writes. cbn [fst snd]. rewrite A.
  destruct (String.eqb key "trading") eqn:E; [|reflexivity].
  apply String.eqb_eq in E. destruct B as [B | B]; [contradiction|].
  destruct value; try reflexivity. now destruct (B d).
Qed.

(** The trading section it builds holds, under each key, the last value
    written for that key. *)
Lemma extract_snd items : forall (cd te : dict) m,
  sections_well_formed items ->
  lookup m (snd (fold_left extract items (cd, te))) =
  last_write m items (lookup m te).
Proof.
  unfold last_write.
  induction items as [|[key value] r IH]; intros cd te m W;
    [reflexivity|].
  assert (Wr : sections_well_formed r)
    by (intros t I; apply W; now right).
  cbn [fold_left].
  destruct (extract_cases cd te key value)
    as [(mapped & A & ->) | [(A & -> & other & -> & ->) | (A & B & ->)]];
    rewrite (IH _ _ _ Wr).
  - rewrite lookup_setitem, (writes_alias _ _ _ _ A).
    destruct (String.eqb mapped m); reflexivity.
  - rewrite writes_section, lookup_update; [reflexivity|].
    apply W. now left.
  - now rewrite (writes_nothing _ _ _ A B).
Qed.

Lemma extract_snd_NoDup items : forall cd te : dict,
  NoDup (map fst te) ->
  NoDup (map fst (snd (fold_left extract items (cd, te)))).
Proof.
  induction items as [|[key value] r IH]; intros cd te N; [exact N|].
  cbn [fold_left].
  destruct (extract_cases cd te key value)
    as [(mapped & A & ->) | [(A & -> & other & -> & ->) | (A & B & ->)]];
    apply IH.
  - apply setitem_NoDup, N.
  - apply update_NoDup, N.
  - exact N.
Qed.

(** An empty trading section: no mapped key was met and every ["trading"]
    dictionary was empty. *)
Lemma extract_snd_empty items : forall cd te : dict,
  snd (fold_left extract items (cd, te)) = [] ->
  te = [] /\
  forall key value, In (key, value) items ->
    is_alias key = false /\
    (key = "trading" -> forall other, value = PDict other -> other = []).
Proof.
  induction items as [|[key value] r IH]; intros cd te H.
  - split; [exact H | intros ? ? []].
  - cbn [fold_left] in H.
    destruct (extract_cases cd te key value)
      as [(mapped & A & E) | [(A & -> & other & -> & E) | (A & B & E)]];
      rewrite E in H; apply IH in H; destruct H as [H1 H2].
    + now apply setitem_nonempty in H1.
    + apply update_empty in H1. destruct H1 as [H1 H3].
      split; [exact H1|].
      intros k v [[= <- <-] | I]; [|now apply H2].
      split; [now apply not_alias|]. intros _ o [= <-]. exact H3.
    + split; [exact H1|].
      intros k v [[= <- <-] | I]; [|now apply H2].
      split; [now apply not_alias|]. intros K o ->.
      destruct B as [B | B]; [contradiction | now destruct (B o)].
Qed.

(** Without mapped keys, and with every ["trading"] item holding [T], the
    first loop leaves the dictionary alone and builds an empty section or
    the section of [T]. *)
Lemma extract_settled T items : forall cd te : dict,
  (forall key value, In (key, value) items ->
     is_alias key = false /\ (key = "trading" -> value = T)) ->
  (forall t, T = PDict t -> NoDup (map fst t)) ->
  (te = [] \/ T = PDict te) ->
  exists te', fold_left extract items (cd, te) = (cd, te') /\
              (te' = [] \/ T = PDict te').
Proof.
  induction items as [|[key value] r IH]; intros cd te A N H.
  - simpl. eauto.
  - destruct (A key value (or_introl eq_refl)) as [NA KT].
    assert (Ar : forall key value, In (key, value) r ->
                 is_alias key = false /\ (key = "trading" -> value = T))
      by (intros; apply A; now right).
    cbn [fold_left].
    destruct (extract_cases cd te key value)
      as [(mapped & M & E) | [(M & -> & other & -> & E) | (M & B & E)]];
      rewrite E.
    + apply alias in M. congruence.
    + assert (ET : T = PDict other) by (symmetry; now apply KT).
      assert (No : NoDup (map fst other)) by (now apply N).
      apply IH; auto. right. rewrite ET. f_equal. symmetry.
      destruct H as [-> | H].
      * now rewrite update_fresh by (auto; intros ? _ []).
      * rewrite ET in H. injection H as <-.
        apply update_within; [exact No | apply incl_refl].
    + now apply IH.
Qed.

Lemma fill_raised dl : fold_left fill dl None = None.
Proof.
  induction dl; simpl; auto.
Qed.

Lemma fill_dict dl : forall t,
  fold_left fill dl (Some (PDict t)) = Some (PDict (filled dl t)).
Proof.
  unfold filled.
  induction dl as [|[k v] r IH]; simpl; intro t; [reflexivity|].
  destruct (has_key k t); simpl; apply IH.
Qed.

Lemma lookup_filled m dl : forall t,
  lookup m (filled dl t) =
  match lookup m t with Some v => Some v | None => lookup m dl end.
Proof.
  unfold filled.
  induction dl as [|[k v] r IH]; simpl; intro t.
  - destruct (lookup m t); reflexivity.
  - rewrite IH. unfold has_key at 1.
    destruct (lookup k t) eqn:L; simpl.
    + destruct (lookup m t) eqn:M; [reflexivity|].
      destruct (String.eqb k m) eqn:E; [|reflexivity].
      apply String.eqb_eq in E. congruence.
    + rewrite lookup_setitem.
      destruct (String.eqb k m) eqn:E.
      * apply String.eqb_eq in E. subst m. now rewrite L.
      * reflexivity.
Qed.

Lemma filled_NoDup dl : forall t,
  NoDup (map fst t) -> NoDup (map fst (filled dl t)).
Proof.
  unfold filled.
  induction dl as [|[k v] r IH]; simpl; intros t N; [exact N|].
  destruct (has_key k t); apply IH; [exact N | now apply setitem_NoDup].
Qed.

Lemma filled_complete t : complete (filled defaults t).
Proof.
  intros k H. unfold has_key in *. rewrite lookup_filled.
  destruct (lookup k t); [reflexivity | exact H].
Qed.

Lemma filled_fixed dl : forall t,
  (forall k, has_key k dl = true -> has_key k t = true) ->
  filled dl t = t.
Proof.
  unfold filled.
  induction dl as [|[k v] r IH]; simpl; intros t C; [reflexivity|].
  rewrite C by (rewrite has_key_cons, String.eqb_refl; reflexivity).
  apply IH. intros k' H. apply C. rewrite has_key_cons, H.
  now rewrite orb_true_r.
Qed.

(** On a value that is not a dictionary the second loop either leaves the
    value as it is, when it holds every key, or raises. *)
Lemma fill_other dl v :
  (forall t, v <> PDict t) ->
  fold_left fill dl (Some v) =
  if forallb (fun item => match contains (fst item) v with
                          | Some true => true
                          | _ => false
                          end) dl
  then Some v else None.
Proof.
  intro ND. induction dl as [|[k d] r IH]; simpl; [reflexivity|].
  destruct (contains k v) as [[|]|]; simpl.
  - exact IH.
  - destruct v; simpl; try apply fill_raised. now destruct (ND d0).
  - apply fill_raised.
Qed.

Lemma fill_again T0 T :
  fold_left fill defaults (Some T0) = Some T ->
  fold_left fill defaults (Some T) = Some T.
Proof.
  destruct T0 as [ | | | | | | | t];
    try (rewrite fill_other by discriminate;
         match goal with
         | |- context [forallb ?f ?l] =>
             destruct (forallb f l) eqn:F; [|discriminate]
         end;
         intros [= <-]; rewrite fill_other by discriminate;
         now rewrite F).
  rewrite fill_dict. intros [= <-]. rewrite fill_dict.
  rewrite filled_fixed; [reflexivity | apply filled_complete].
Qed.

(** ** [safe_validate_config]: the prepared dictionary *)

(** The shape of a prepared dictionary: the mapped keys are gone from the
    top level, the other keys are as they were, and the ["trading"] item
    is the result of the second loop on the section [T0] that the first
    part has put there. *)
Lemma prepared_shape d d' :
  prepared d = Some d' ->
  exists cd T0 T,
    d' = setitem "trading" T cd /\
    lookup "trading" cd = Some T0 /\
    fold_left fill defaults (Some T0) = Some T /\
    (forall k, k <> "trading" ->
       lookup k cd = if is_alias k then None else lookup k d) /\
    (forall t0, T0 = PDict t0 -> NoDup (map fst t0)) /\
    (T0 = PDict (snd (extracted d)) \/
     snd (extracted d) = [] /\
     (T0 = PDict [] \/ lookup "trading" d = Some T0)).
Proof.
  unfold prepared.
  assert (F : forall k, lookup k (fst (extracted d)) =
                        if (is_alias k && has_key k d)%bool then None
                        else lookup k d)
    by (intro k; apply extract_fst).
  assert (N : NoDup (map fst (snd (extracted d))))
    by (apply extract_snd_NoDup; constructor).
  assert (Em : snd (extracted d) = [] ->
               forall key value, In (key, value) d ->
                 is_alias key = false /\
                 (key = "trading" ->
                  forall other, value = PDict other -> other = []))
    by (intro H; now apply (extract_snd_empty d d [])).
  destruct (extracted d) as [cd te]. cbn [fst snd] in *.
  assert (Fk : forall k, k <> "trading" ->
               lookup k cd = if is_alias k then None else lookup k d).
  { intros k _. rewrite F. destruct (is_alias k); [|reflexivity].
    simpl. unfold has_key. destruct (lookup k d); reflexivity. }
  assert (Ft : lookup "trading" cd = lookup "trading" d) by apply F.
  destruct te as [|x te].
  - specialize (Em eq_refl).
    destruct (has_key "trading" cd) eqn:H.
    + unfold has_key in H.
      destruct (lookup "trading" cd) as [T0|] eqn:L; [|discriminate].
      destruct (fold_left fill defaults (Some T0)) as [T|] eqn:Fi;
        [|discriminate].
      intros [= <-]. exists cd, T0, T.
      repeat split; auto.
      intros t0 ->. symmetry in Ft. apply lookup_In in Ft.
      destruct (Em _ _ Ft) as [_ E0]. rewrite (E0 eq_refl t0 eq_refl).
      constructor.
    + rewrite lookup_setitem, String.eqb_refl.
      destruct (fold_left fill defaults (Some (PDict []))) as [T|] eqn:Fi;
        [|discriminate].
      intros [= <-].
      exists (setitem "trading" (PDict []) cd), (PDict []), T.
      repeat split; auto.
      * rewrite lookup_setitem, String.eqb_refl. reflexivity.
      * intros k Hk. rewrite lookup_setitem.
        destruct (String.eqb "trading" k) eqn:E; [|now apply Fk].
        apply String.eqb_eq in E. congruence.
      * intros t0 [= <-]. constructor.
  - rewrite has_key_setitem, String.eqb_refl. cbn [orb].
    rewrite lookup_setitem, String.eqb_refl.
    destruct (fold_left fill defaults (Some (PDict (x :: te)))) as [T|] eqn:Fi;
      [|discriminate].
    intros [= <-].
    exists (setitem "trading" (PDict (x :: te)) cd), (PDict (x :: te)), T.
    repeat split; auto.
    + rewrite lookup_setitem, String.eqb_refl. reflexivity.
    + intros k Hk. rewrite lookup_setitem.
      destruct (String.eqb "trading" k) eqn:E; [|now apply Fk].
      apply String.eqb_eq in E. congruence.
    + intros t0 [= <-]. exact N.
Qed.

Lemma trading_not_alias : is_alias "trading" = false.
Proof.
  reflexivity.
Qed.

Lemma no_alias_when_empty d :
  snd (extracted d) = [] ->
  forall k, has_key k d = true -> is_alias k = false.
Proof.
  intros E k H. apply has_key_In in H. destruct H as (v & I).
  now destruct (proj2 (extract_snd_empty d d [] E) k v I).
Qed.

Lemma prepared_returns d :
  (exists k, is_alias k = true /\ has_key k d = true) \/
  lookup "trading" d = None \/
  (exists t0, lookup "trading" d = Some (PDict t0)) ->
  exists d', prepared d = Some d'.
Proof.
  intro H. unfold prepared.
  assert (F : lookup "trading" (fst (extracted d)) = lookup "trading" d)
    by apply extract_fst.
  pose proof (no_alias_when_empty d) as Em.
  destruct (extracted d) as [cd te]. cbn [fst snd] in *.
  destruct te as [|x te].
  - specialize (Em eq_refl).
    destruct H as [(k & A & K) | H];
      [rewrite (Em k K) in A; discriminate|].
    unfold has_key. rewrite F.
    destruct H as [L | (t0 & L)]; rewrite L.
    + rewrite lookup_setitem, String.eqb_refl, fill_dict. eauto.
    + rewrite F, L, fill_dict. eauto.
  - rewrite has_key_setitem, String.eqb_refl. cbn [orb].
    rewrite lookup_setitem, String.eqb_refl, fill_dict. eauto.
Qed.

(** When the second loop returns a dictionary it started from one. *)
Lemma fill_to_dict T0 t :
  fold_left fill defaults (Some T0) = Some (PDict t) ->
  exists t0, T0 = PDict t0 /\ t = filled defaults t0.
Proof.
  destruct T0 as [ | | | | | | | t0];
    try (rewrite fill_other by discriminate;
         match goal with
         | |- context [forallb ?f ?l] => destruct (forallb f l)
         end; discriminate).
  rewrite fill_dict. intros [= <-]. eauto.
Qed.

Lemma prepared_again d d' : prepared d = Some d' -> prepared d' = Some d'.
Proof.
  intro P.
  destruct (prepared_shape d d' P) as (cd & T0 & T & -> & L & Fi & Fk & N & _).
  set (d' := setitem "trading" T cd) in *.
  assert (LT : lookup "trading" d' = Some T)
    by (unfold d'; now rewrite lookup_setitem, String.eqb_refl).
  assert (A : forall key value, In (key, value) d' ->
              is_alias key = false /\ (key = "trading" -> value = T)).
  { intros key value I. split.
    - assert (Lk : lookup key d' <> None).
      { apply lookup_present. change key with (fst (key, value)).
        now apply in_map. }
      unfold d' in Lk. rewrite lookup_setitem in Lk.
      destruct (String.eqb "trading" key) eqn:E.
      + apply String.eqb_eq in E. subst key. apply trading_not_alias.
      + apply String.eqb_neq in E. rewrite Fk in Lk by congruence.
        destruct (is_alias key); [now destruct Lk | reflexivity].
    - intros ->. now apply setitem_items in I. }
  assert (NT : forall t, T = PDict t -> NoDup (map fst t)).
  { intros t ->. apply fill_to_dict in Fi. destruct Fi as (t0 & -> & ->).
    apply filled_NoDup. now apply N. }
  destruct (extract_settled T d' d' [] A NT (or_introl eq_refl))
    as (te' & E0 & H).
  assert (E : extracted d' = (d', te')) by exact E0.
  assert (S : setitem "trading" T d' = d').
  { apply setitem_same.
    - unfold has_key. now rewrite LT.
    - intros v' I. now apply (A _ _ I). }
  unfold prepared. rewrite E. cbv beta iota zeta.
  destruct te' as [|x te']; cbv iota;
    [|destruct H as [H | H]; [discriminate | rewrite <- H, S]];
    unfold has_key; rewrite LT, LT, (fill_again T0 T Fi), S; reflexivity.
Qed.

(** X16.  A dictionary whose ["trading"] item is absent or a dictionary, or
    that has a top-level key of [trading_map], is validated without an
    exception.  What [model_validate] receives, and the caller's dictionary
    holds afterwards, has under ["trading"] a dictionary with the six keys of
    [defaults]; no key of [trading_map] is left at the top level; the other
    top-level keys are as they were.  The configuration returned is the
    validated one, or the default one when validation fails. *)
Theorem validation_prepares_the_trading_section
  (AppConfig : Type) (model_validate : dict -> option AppConfig)
  (app_default : AppConfig) (d : dict) :
  (exists k, is_alias k = true /\ has_key k d = true) \/
  lookup "trading" d = None \/
  (exists t0, lookup "trading" d = Some (PDict t0)) ->
  exists d' t,
    safe_validate_config AppConfig model_validate app_default d
    = Some (d', match model_validate d' with
                | Some c => c
                | None => app_default
                end) /\
    lookup "trading" d' = Some (PDict t) /\
    complete t /\
    (forall k, is_alias k = true -> lookup k d' = None) /\
    (forall k, is_alias k = false -> k <> "trading" ->
               lookup k d' = lookup k d).
Proof.
  intro H. destruct (prepared_returns d H) as (d' & P).
  destruct (prepared_shape d d' P) as (cd & T0 & T & E & L & Fi & Fk & N & S).
  assert (D : exists t0, T0 = PDict t0).
  { destruct S as [S | (S & [S' | S'])]; eauto.
    destruct H as [(k & A & K) | [H | (t0 & H)]].
    - rewrite (no_alias_when_empty d S k K) in A. discriminate.
    - congruence.
    - exists t0. congruence. }
  destruct D as (t0 & ->). rewrite fill_dict in Fi. injection Fi as <-.
  exists d', (filled defaults t0).
  unfold safe_validate_config. rewrite P. split; [reflexivity|].
  subst d'. repeat split.
  - now rewrite lookup_setitem, String.eqb_refl.
  - apply filled_complete.
  - intros k A. rewrite lookup_setitem.
    destruct (String.eqb "trading" k) eqn:Ek.
    + apply String.eqb_eq in Ek. subst k. discriminate A.
    + apply String.eqb_neq in Ek. rewrite Fk by congruence. now rewrite A.
  - intros k A K. rewrite lookup_setitem.
    destruct (String.eqb "trading" k) eqn:Ek.
    + apply String.eqb_eq in Ek. congruence.
    + rewrite Fk by congruence. now rewrite A.
Qed.

Lemma validation_prepares_the_trading_section_witness :
  exists d' t,
    safe_validate_config unit (fun _ => Some tt) tt
      [("symbol", PStr "KC=F"); ("tp1", PFloat (5 # 2));
       ("trading", PDict [("adx_threshold", PInt 19)])]
    = Some (d', tt) /\
    lookup "trading" d' = Some (PDict t) /\ complete t.
Proof.
  destruct (validation_prepares_the_trading_section unit (fun _ => Some tt) tt
              [("symbol", PStr "KC=F"); ("tp1", PFloat (5 # 2));
               ("trading", PDict [("adx_threshold", PInt 19)])])
    as (d' & t & A & B & C & _).
  - left. exists "symbol". split; reflexivity.
  - exists d', t. auto.
Defined.

(** X17.  In the validated ["trading"] section every key holds the value that
    was written last, in the order of the caller's dictionary, by a top-level
    key mapped to it or by the ["trading"] dictionary itself; a key that
    nothing wrote holds its default, when it has one, and is absent otherwise.
    So a top-level value and a nested one for the same key do not have a fixed
    precedence: the later item wins. *)
Theorem last_written_value_wins
  (AppConfig : Type) (model_validate : dict -> option AppConfig)
  (app_default : AppConfig) (d d' t : dict) (c : AppConfig) :
  sections_well_formed d ->
  safe_validate_config AppConfig model_validate app_default d
  = Some (d', c) ->
  lookup "trading" d' = Some (PDict t) ->
  forall m,
    lookup m t = match last_write m d None with
                 | Some v => Some v
                 | None => lookup m defaults
                 end.
Proof.
  intros W V L m. unfold safe_validate_config in V.
  destruct (prepared d) as [d0|] eqn:P; [|discriminate].
  injection V as <- _.
  destruct (prepared_shape d d0 P) as (cd & T0 & T & -> & _ & Fi & _ & _ & S).
  rewrite lookup_setitem, String.eqb_refl in L. injection L as ->.
  apply fill_to_dict in Fi. destruct Fi as (t0 & -> & ->).
  rewrite lookup_filled.
  assert (X : lookup m (snd (extracted d)) = last_write m d None)
    by (apply (extract_snd d d [] m W)).
  assert (Y : lookup m t0 = last_write m d None).
  { destruct S as [[= ->] | (S & [[= ->] | S'])]; [exact X | |].
    - now rewrite S in X.
    - rewrite S in X. rewrite <- X. apply lookup_In in S'.
      destruct (proj2 (extract_snd_empty d d [] S) _ _ S') as [_ E0].
      now rewrite (E0 eq_refl t0 eq_refl). }
  rewrite Y. reflexivity.
Qed.

Lemma last_written_value_wins_witness :
  (forall t,
     lookup "trading"
       (fst (match safe_validate_config unit (fun _ => Some tt) tt
                     [("tp1", PFloat (5 # 2));
                      ("trading", PDict [("tp_r_multiple", PFloat 3)])]
             with Some r => r | None => ([], tt) end))
     = Some (PDict t) ->
     lookup "tp_r_multiple" t = Some (PFloat 3)) /\
  (forall t,
     lookup "trading"
       (fst (match safe_validate_config unit (fun _ => Some tt) tt
                     [("trading", PDict [("tp_r_multiple", PFloat 3)]);
                      ("tp1", PFloat (5 # 2))]
             with Some r => r | None => ([], tt) end))
     = Some (PDict t) ->
     lookup "tp_r_multiple" t = Some (PFloat (5 # 2))).
Proof.
  assert (W : forall t0 x,
            sections_well_formed
              [("tp1", x); ("trading", PDict [("tp_r_multiple", t0)])] /\
            sections_well_formed
              [("trading", PDict [("tp_r_multiple", t0)]); ("tp1", x)]).
  { intros t0 x. split; intros t [[= <-] | [[= <-] | []]];
      repeat constructor; simpl; tauto. }
  split; intros t L.
  - eapply (last_written_value_wins unit (fun _ => Some tt) tt
              [("tp1", PFloat (5 # 2));
               ("trading", PDict [("tp_r_multiple", PFloat 3)])]
              _ t tt (proj1 (W _ _)) eq_refl L "tp_r_multiple").
  - eapply (last_written_value_wins unit (fun _ => Some tt) tt
              [("trading", PDict [("tp_r_multiple", PFloat 3)]);
               ("tp1", PFloat (5 # 2))]
              _ t tt (proj2 (W _ _)) eq_refl L "tp_r_multiple").
Defined.

(** X18.  The fallback to defaults does not cover a broken ["trading"] item:
    with no top-level key of [trading_map], a ["trading"] value that is not a
    dictionary makes the call raise [TypeError], outside the [try], unless the
    value is a string or a list in which all six default keys are found. *)
Theorem validation_raises_on_a_broken_section
  (AppConfig : Type) (model_validate : dict -> option AppConfig)
  (app_default : AppConfig) (d : dict) (v : pyval) :
  NoDup (map fst d) ->
  (forall k, has_key k d = true -> is_alias k = false) ->
  lookup "trading" d = Some v ->
  (forall t, v <> PDict t) ->
  (exists k, has_key k defaults = true /\ contains k v <> Some true) ->
  safe_validate_config AppConfig model_validate app_default d = None.
Proof.
  intros N A L ND (k & K & C).
  assert (I : forall key value, In (key, value) d ->
              is_alias key = false /\ (key = "trading" -> value = v)).
  { intros key value H. split.
    - apply A. eapply In_has_key, H.
    - intros ->. apply lookup_In in L. exact (NoDup_unique _ _ _ _ N H L). }
  destruct (extract_settled v d d [] I) as (te' & E0 & H).
  { intros t ->. now destruct (ND t). }
  { now left. }
  assert (E : extracted d = (d, te')) by exact E0.
  destruct H as [-> | ->]; [|now destruct (ND te')].
  unfold safe_validate_config, prepared. rewrite E. cbv beta iota zeta.
  unfold has_key. rewrite L, L, fill_other by exact ND.
  destruct (forallb _ defaults) eqn:F; [|reflexivity].
  exfalso. rewrite forallb_forall in F.
  apply has_key_In in K. destruct K as (dv & K).
  specialize (F _ K). cbn [fst] in F.
  destruct (contains k v) as [[|]|]; congruence.
Qed.

Lemma validation_raises_on_a_broken_section_witness :
  safe_validate_config unit (fun _ => Some tt) tt
    [("trading", PNone); ("database", PDict [])] = None.
Proof.
  apply (validation_raises_on_a_broken_section unit (fun _ => Some tt) tt
           [("trading", PNone); ("database", PDict [])] PNone).
  - repeat constructor; simpl; intuition discriminate.
  - intros k H. apply has_key_In in H.
    destruct H as (v & [[= <- <-] | [[= <- <-] | []]]); reflexivity.
  - reflexivity.
  - discriminate.
  - exists "atr_period". split; [reflexivity | discriminate].
Defined.

(** X19.  Validation is idempotent on the dictionary: the dictionary a call
    leaves behind is left as it is by a second call, which validates the same
    data and returns the same configuration. *)
Theorem validation_is_idempotent
  (AppConfig : Type) (model_validate : dict -> option AppConfig)
  (app_default : AppConfig) (d d' : dict) (c : AppConfig) :
  safe_validate_config AppConfig model_validate app_default d
  = Some (d', c) ->
  safe_validate_config AppConfig model_validate app_default d'
  = Some (d', c).
Proof.
  unfold safe_validate_config.
  destruct (prepared d) as [d0|] eqn:P; [|discriminate].
  intros [= <- <-]. now rewrite (prepared_again d d0 P).
Qed.

Lemma validation_is_idempotent_witness :
  exists d',
    safe_validate_config unit (fun _ => Some tt) tt
      [("symbol", PStr "KC=F"); ("logging", PDict []);
       ("trading", PDict [("adx_threshold", PInt 25)])]
    = Some (d', tt) /\
    safe_validate_config unit (fun _ => Some tt) tt d' = Some (d', tt).
Proof.
  eexists. split; [vm_compute; reflexivity|].
  apply (validation_is_idempotent unit (fun _ => Some tt) tt
           [("symbol", PStr "KC=F"); ("logging", PDict []);
            ("trading", PDict [("adx_threshold", PInt 25)])]).
  vm_compute. reflexivity.
Defined.
